(** * Sapo: bundles, Bernstein bounds, STL and the reach / synthesis loops

    A shallow embedding of the core of Sapo (dreossi/sapo) and the
    properties its specification states about it.

    Part I holds the definitions, each translated from the C++ function whose
    name it keeps; Part II holds the lemmas and theorems.

    Numbers.  The C++ code computes on [double].  The embedding is written
    over a [Scalar] structure with two instances: [binary64], the IEEE 754
    doubles of the kernel (signed zeros, infinities and NaN included), and
    [exactZ], an exact ordered ring used where a statement speaks about
    mathematical maxima of linear programs. *)

From Stdlib Require Import String ZArith Bool Lia Floats Uint63 PeanoNat List.
From Stdlib Require Import Permutation Sorted.
Import ListNotations.

Set Implicit Arguments.

(* ================================================================== *)
(** * Part I: definitions                                              *)
(* ================================================================== *)

(** ** Scalars: what the code needs from [double] *)

Class Scalar : Type := {
  double : Type;
  d_of_Z : Z -> double;                 (* the conversion of an int literal *)
  d_add : double -> double -> double;
  d_mul : double -> double -> double;
  d_opp : double -> double;
  d_eqb : double -> double -> bool;     (* ==  *)
  d_ltb : double -> double -> bool;     (* <   *)
  d_leb : double -> double -> bool;     (* <=  *)
  d_max : double                        (* std::numeric_limits<double>::max() *)
}.

Definition d_zero `{Scalar} : double := d_of_Z 0.

(** [a > b] of C++ is [b < a]. *)
Definition d_gtb `{Scalar} (a b : double) : bool := d_ltb b a.

(** The conversion of an [int] to a binary64 float. *)
Definition float_of_Z (z : Z) : float :=
  match z with
  | Z0 => PrimFloat.zero
  | Zpos _ => PrimFloat.of_uint63 (Uint63.of_Z z)
  | Zneg p => PrimFloat.opp (PrimFloat.of_uint63 (Uint63.of_Z (Zpos p)))
  end.

#[export] Instance binary64 : Scalar := {|
  double := float;
  d_of_Z := float_of_Z;
  d_add := PrimFloat.add;
  d_mul := PrimFloat.mul;
  d_opp := PrimFloat.opp;
  d_eqb := PrimFloat.eqb;
  d_ltb := PrimFloat.ltb;
  d_leb := PrimFloat.leb;
  d_max := 0x1.fffffffffffffp+1023%float
|}.

(** Exact integers: the largest finite double is the integer
    [2^1024 - 2^971]. *)
Definition exactZ : Scalar := {|
  double := Z;
  d_of_Z := fun z => z;
  d_add := Z.add;
  d_mul := Z.mul;
  d_opp := Z.opp;
  d_eqb := Z.eqb;
  d_ltb := Z.ltb;
  d_leb := Z.leb;
  d_max := (2 ^ 1024 - 2 ^ 971)%Z
|}.

(** The order laws of an exact scalar structure.  [exactZ] has them;
    [binary64] does not ([+0] and [-0] compare equal, NaN compares with
    nothing). *)
Record ExactOrder (S : Scalar) : Prop := {
  leb_refl : forall a : double, d_leb a a = true;
  leb_trans : forall a b c : double,
      d_leb a b = true -> d_leb b c = true -> d_leb a c = true;
  leb_antisym : forall a b : double,
      d_leb a b = true -> d_leb b a = true -> a = b;
  leb_total : forall a b : double, d_leb a b = false -> d_leb b a = true;
  opp_nonpos : forall a : double,
      a <> d_zero -> d_leb (d_opp a) d_zero = negb (d_leb a d_zero);
  minus_one_nonpos : d_leb (d_of_Z (-1)) d_zero = true
}.

(** ** Vectors and matrices ([std::vector<double>], [std::vector<Vector>]) *)

Abbreviation Vector := (list double).
Abbreviation Matrix := (list (list double)).

(** [-v] on vectors (LinearAlgebra.h). *)
Definition vec_opp `{Scalar} (v : Vector) : Vector := map d_opp v.

(** The scalar product [v1 * v2], summed from the left starting at 0. *)
Fixpoint dot `{Scalar} (v1 v2 : Vector) : double :=
  match v1, v2 with
  | a :: v1', b :: v2' => d_add (d_mul a b) (dot v1' v2')
  | _, _ => d_zero
  end.

(** ** Bernstein coefficient bounds (Bundle.cpp, [MaxCoeffFinder]) *)

(** [MaxCoeffFinder::MaxCoeffType]. *)
Record MaxCoeffType `{Scalar} : Type := mkMaxCoeff {
  mc_p : double;   (* the Bernstein coefficient upper-bound *)
  mc_m : double    (* the Bernstein coefficient lower-bound complementary *)
}.
Arguments mkMaxCoeff {_} _ _.

(** The two virtual methods of [MaxCoeffFinder]; [ParamMaxCoeffFinder]
    overrides both. *)
Record MaxCoeffFinder `{Scalar} (Expression : Type) : Type := mkFinder {
  coeff_eval_p : Expression -> double;
  coeff_eval_m : Expression -> double
}.
Arguments mkFinder {_ _} _ _.
Arguments coeff_eval_p {_ _} _ _.
Arguments coeff_eval_m {_ _} _ _.

Section PlainFinder.
Context `{Scalar}.
(** [SymbolicAlgebra::Expression<>] and its [evaluate<double>()] are not
    part of the sources at hand: they are parameters here. *)
Variable Expression : Type.
Variable evaluate : Expression -> double.

(** [Bundle::MaxCoeffFinder::coeff_eval_p]. *)
Definition plain_coeff_eval_p (c : Expression) : double := evaluate c.

(** [Bundle::MaxCoeffFinder::coeff_eval_m]: [(value == 0 ? 0 : -value)]. *)
Definition plain_coeff_eval_m (bernCoeff : Expression) : double :=
  let value := evaluate bernCoeff in
  if d_eqb value (d_of_Z 0) then d_of_Z 0 else d_opp value.

Definition plain_finder : MaxCoeffFinder Expression :=
  mkFinder plain_coeff_eval_p plain_coeff_eval_m.

(** One turn of the loop of [find_max_coeffs]. *)
Definition max_coeff_step (finder : MaxCoeffFinder Expression)
    (acc : MaxCoeffType) (c : Expression) : MaxCoeffType :=
  let actCoeffp := coeff_eval_p finder c in
  let maxCoeffp := if d_gtb actCoeffp (mc_p acc) then actCoeffp else mc_p acc in
  let actCoeffm := coeff_eval_m finder c in
  let maxCoeffm := if d_gtb actCoeffm (mc_m acc) then actCoeffm else mc_m acc in
  mkMaxCoeff maxCoeffp maxCoeffm.

(** [Bundle::MaxCoeffFinder::find_max_coeffs].  The C++ dereferences
    [b_coeffs.begin()] unchecked; on an empty vector that is undefined, which
    is [None] here. *)
Definition find_max_coeffs (finder : MaxCoeffFinder Expression)
    (b_coeffs : list Expression) : option MaxCoeffType :=
  match b_coeffs with
  | [] => None
  | c :: rest =>
      Some (fold_left (max_coeff_step finder) rest
              (mkMaxCoeff (coeff_eval_p finder c) (coeff_eval_m finder c)))
  end.

End PlainFinder.

(** The running maximum that [find_max_coeffs] keeps in each of its two
    accumulators: [if (actCoeff > maxCoeff) maxCoeff = actCoeff]. *)
Definition rmax (A : Type) (lt : A -> A -> bool) (acc x : A) : A :=
  if lt acc x then x else acc.

(** ** Outcomes of a call

    A C++ function of the engine either returns, or leaves through
    [exit(EXIT_FAILURE)], or throws; an unchecked [operator[]] or iterator
    read outside its vector is undefined behaviour, reported here as
    [out_of_range] instead of being given a value. *)

Inductive failure : Type :=
| exit_failure                         (* exit(EXIT_FAILURE) *)
| out_of_range                         (* unchecked access outside a vector *)
| runtime_error (what : string)        (* throw std::runtime_error(what) *)
| logic_error (what : string)          (* throw std::logic_error(what) *)
| out_of_fuel.                         (* no C++ outcome: the step budget of a
                                          modelled loop ran out *)

Inductive outcome (A : Type) : Type :=
| Done (a : A)
| Fail (f : failure).
Arguments Done {A} a.
Arguments Fail {A} f.

Definition bind (A B : Type) (c : outcome A) (k : A -> outcome B) : outcome B :=
  match c with
  | Done a => k a
  | Fail f => Fail f
  end.

Notation "x <- c ;; k" := (bind c (fun x => k))
  (at level 61, c at next level, right associativity).

(** [v[i]] for an unsigned index. *)
Definition index (A : Type) (v : list A) (i : nat) : outcome A :=
  match nth_error v i with
  | Some a => Done a
  | None => Fail out_of_range
  end.

(** [v[idx]] for an [int] index: a negative [idx] converts to a huge
    unsigned value, outside every vector. *)
Definition index_int (A : Type) (v : list A) (idx : Z) : outcome A :=
  if (idx <? 0)%Z then Fail out_of_range else index v (Z.to_nat idx).

(** Runs [f] on every element, left to right, stopping at the first
    failure. *)
Fixpoint mapM (A B : Type) (f : A -> outcome B) (l : list A) : outcome (list B) :=
  match l with
  | [] => Done []
  | a :: l' => b <- f a ;; bs <- mapM f l' ;; Done (b :: bs)
  end.

(** A loop that threads a state through the elements of [l]. *)
Fixpoint foldM (A S : Type) (f : S -> A -> outcome S) (l : list A) (s : S) : outcome S :=
  match l with
  | [] => Done s
  | a :: l' => s' <- f s a ;; foldM f l' s'
  end.

(** [v[i] = x]. *)
Fixpoint assign (A : Type) (v : list A) (i : nat) (x : A) : outcome (list A) :=
  match v, i with
  | [], _ => Fail out_of_range
  | _ :: v', O => Done (x :: v')
  | a :: v', S i' => r <- assign v' i' x ;; Done (a :: r)
  end.

(** ** Polytopes [{x | A x <= b}] (Polytope.h is not in the sources; the
    pair is what [Bundle::operator Polytope] hands to its constructor) *)

Record Polytope `{Scalar} : Type := mkPolytope {
  poly_A : Matrix;
  poly_b : Vector
}.
Arguments mkPolytope {_} _ _.

(** [x] satisfies every row [A_i . x <= b_i]. *)
Definition in_polytope `{Scalar} (P : Polytope) (x : Vector) : bool :=
  forallb (fun row => d_leb (dot (fst row) x) (snd row))
          (combine (poly_A P) (poly_b P)).

(** [v] is the maximum of [c . x] over the points of [P]: some point
    reaches it and no point exceeds it. *)
Definition is_maximum `{Scalar} (P : Polytope) (c : Vector) (v : double) : Prop :=
  (exists x, in_polytope P x = true /\ dot c x = v) /\
  (forall x, in_polytope P x = true -> d_leb (dot c x) v = true).

(** ** Parallelotopes: the arguments [(Lambda, lbound, ubound)] that
    [Bundle::getParallelotope] passes to the constructor (documented in
    Parallelotope.h as template matrix, lower and upper bound offsets) *)

Record Parallelotope `{Scalar} : Type := mkParallelotope {
  template_matrix : Matrix;
  lower_bound : Vector;
  upper_bound : Vector
}.
Arguments mkParallelotope {_} _ _ _.

(** ** Bundles (Bundle.h, Bundle.cpp) *)

(** The two transformation modes, [Bundle::transfomation_mode]. *)
Inductive transfomation_mode : Type :=
| AFO   (* over-approximate by using all the templates of the bundle *)
| OFO.  (* over-approximate by using exclusively the parallelotope own template *)

(** The integer [Bundle::transform] receives for a mode.  Its definition in
    Bundle.cpp takes [int mode], documented as [0=OFO,1=AFO], and AbsSyn.h
    gives the same numbers for [getTransValue], the int value used by sapo:
    [AFO = 1, OFO = 0]. *)
Definition mode_value (mode : transfomation_mode) : Z :=
  match mode with
  | AFO => 1
  | OFO => 0
  end.

(** The data members of [Bundle].  [Theta], the cache of orthogonal
    proximities filled by the constructor, is read only by [decompose]
    and is left out. *)
Record Bundle `{Scalar} : Type := mkBundle {
  dir_matrix : Matrix;                 (* direction matrix *)
  offp : Vector;                       (* superior offset *)
  offm : Vector;                       (* inferior offset *)
  t_matrix : list (list Z);            (* templates matrix *)
  constraintDirections : Matrix;       (* constraints over directions (assertions) *)
  constraintOffsets : Vector
}.
Arguments mkBundle {_} _ _ _ _ _ _.

Section BundleOps.
Context `{Scalar}.

(** [Bundle::dim], [Bundle::size], [Bundle::num_of_templates]. *)
Definition dim (B : Bundle) : nat :=
  match dir_matrix B with
  | [] => 0
  | front :: _ => length front
  end.

Definition size (B : Bundle) : nat := length (dir_matrix B).

Definition num_of_templates (B : Bundle) : nat := length (t_matrix B).

(** The checks of the constructor [Bundle(dir_matrix, offp, offm,
    t_matrix)]: each failed one ends in [exit(EXIT_FAILURE)]. *)
Definition Bundle_checks (D : Matrix) (p m : Vector) (T : list (list Z)) : bool :=
  negb (length D =? 0) &&
  (length D =? length p) &&
  (length D =? length m) &&
  (0 <? length T) &&
  forallb (fun row => length row =? match D with [] => 0 | front :: _ => length front end) T.

(** The four-argument constructor; the two assumption members are
    default-constructed, that is empty. *)
Definition Bundle_new (D : Matrix) (p m : Vector) (T : list (list Z)) : outcome Bundle :=
  if Bundle_checks D p m T then Done (mkBundle D p m T [] []) else Fail exit_failure.

(** The object was built by a constructor: its checks hold. *)
Definition Bundle_valid (B : Bundle) : bool :=
  Bundle_checks (dir_matrix B) (offp B) (offm B) (t_matrix B).

(** [Bundle::operator Polytope]: two loops over [i < size()], the first
    pushing [dir_matrix[i]] and [offp[i]], the second [-dir_matrix[i]] and
    [offm[i]]. *)
Definition as_polytope (B : Bundle) : outcome Polytope :=
  let idx := seq 0 (size B) in
  A1 <- mapM (index (dir_matrix B)) idx ;;
  b1 <- mapM (index (offp B)) idx ;;
  A2 <- mapM (fun i => d <- index (dir_matrix B) i ;; Done (vec_opp d)) idx ;;
  b2 <- mapM (index (offm B)) idx ;;
  Done (mkPolytope (A1 ++ A2) (b1 ++ b2)).

(** The constraint system the specification gives for [as_polytope()]:
    [A = [D; -D]], [b = [offp; offm]]. *)
Definition stacked_system (B : Bundle) : Polytope :=
  mkPolytope (dir_matrix B ++ map vec_opp (dir_matrix B)) (offp B ++ offm B).

(** The same system extended with the assumption half-spaces recorded on
    the bundle. *)
Definition stacked_system_with_assumptions (B : Bundle) : Polytope :=
  mkPolytope (dir_matrix B ++ map vec_opp (dir_matrix B) ++ constraintDirections B)
             (offp B ++ offm B ++ constraintOffsets B).

(** The points a bundle denotes: row [i] of the direction matrix stands for
    the pair of half-spaces [D[i] . x <= offp[i]] and [-D[i] . x <= offm[i]]. *)
Definition in_bundle (B : Bundle) (x : Vector) : Prop :=
  forall (i : nat) (d : Vector) (p m : double),
    nth_error (dir_matrix B) i = Some d ->
    nth_error (offp B) i = Some p ->
    nth_error (offm B) i = Some m ->
    d_leb (dot d x) p = true /\ d_leb (dot (vec_opp d) x) m = true.

(** The assumption half-spaces recorded on the bundle:
    [constraintDirections[i] * vars <= constraintOffsets[i]]. *)
Definition in_assumptions (B : Bundle) (x : Vector) : bool :=
  in_polytope (mkPolytope (constraintDirections B) (constraintOffsets B)) x.

(** [v] is the maximum of [c . x] over the points of the bundle. *)
Definition is_bundle_maximum (B : Bundle) (c : Vector) (v : double) : Prop :=
  (exists x, in_bundle B x /\ dot c x = v) /\
  (forall x, in_bundle B x -> d_leb (dot c x) v = true).

(** The linear-programming call answers with the maximum on the polytope of
    [B], for every direction of [B] and its opposite. *)
Definition lp_exact_on (maximize : Polytope -> Vector -> double) (B : Bundle) : Prop :=
  forall d, In d (dir_matrix B) ->
    is_maximum (stacked_system B) d (maximize (stacked_system B) d) /\
    is_maximum (stacked_system B) (vec_opp d) (maximize (stacked_system B) (vec_opp d)).

(** [Bundle::getParallelotope]. *)
Definition getParallelotope (B : Bundle) (i : nat) : outcome Parallelotope :=
  if length (t_matrix B) <? i then Fail exit_failure
  else
    row <- index (t_matrix B) i ;;
    facets <- mapM (fun j =>
                idx <- index row j ;;
                d <- index_int (dir_matrix B) idx ;;
                u <- index_int (offp B) idx ;;
                l <- index_int (offm B) idx ;;
                Done (d, l, u)) (seq 0 (dim B)) ;;
    Done (mkParallelotope (map (fun f => fst (fst f)) facets)
                          (map (fun f => snd (fst f)) facets)
                          (map snd facets)).

(** [Bundle::get_canonical].  [Polytope::maximize], the linear-programming
    call, is not in the sources: it is the parameter [maximize]. *)
Definition get_canonical (maximize : Polytope -> Vector -> double) (B : Bundle)
  : outcome Bundle :=
  bund <- as_polytope B ;;
  let idx := seq 0 (size B) in
  canoffp <- mapM (fun i => d <- index (dir_matrix B) i ;; Done (maximize bund d)) idx ;;
  canoffm <- mapM (fun i => d <- index (dir_matrix B) i ;; Done (maximize bund (vec_opp d))) idx ;;
  Bundle_new (dir_matrix B) canoffp canoffm (t_matrix B).

(** The local class [minCoeffType] of [Bundle::transform]: a value that
    starts at the largest double and only decreases. *)
Definition minCoeffType_init : double := d_max.

Definition minCoeffType_update (_value value : double) : double :=
  if d_gtb _value value then value else _value.

Section Transform.
(** The symbolic pipeline of [minimizeCoeffs] from the parallelotope to the
    Bernstein coefficients of one direction,
    [compute_Bern_coeffs(alpha, sub_vars(f, vars,
    build_instanciated_generator_functs(alpha, P)), dir_matrix[dir_b])],
    rests on Parallelotope's generator form, SymbolicAlgebra and
    BaseConverter, none of which is in the sources: it is the parameter
    [bern_coeffs]. *)
Variable Expression : Type.
Variable bern_coeffs : Parallelotope -> Vector -> list Expression.
Variable max_finder : MaxCoeffFinder Expression.
Variable maximize : Polytope -> Vector -> double.

(** The body of the loop over [j] in [minimizeCoeffs], for a direction
    index [dir_b]. *)
Definition bound_direction (bundle : Bundle) (P : Parallelotope)
    (coeffs : list double * list double) (dir_b : nat)
  : outcome (list double * list double) :=
  d <- index (dir_matrix bundle) dir_b ;;
  match find_max_coeffs max_finder (bern_coeffs P d) with
  | None => Fail out_of_range
  | Some maxCoeff =>
      tp <- index (fst coeffs) dir_b ;;
      tp_coeffs <- assign (fst coeffs) dir_b (minCoeffType_update tp (mc_p maxCoeff)) ;;
      tm <- index (snd coeffs) dir_b ;;
      tm_coeffs <- assign (snd coeffs) dir_b (minCoeffType_update tm (mc_m maxCoeff)) ;;
      Done (tp_coeffs, tm_coeffs)
  end.

(** The lambda [minimizeCoeffs] of [Bundle::transform], with the test
    [mode == 0] as the source writes it. *)
Definition minimizeCoeffs (mode : Z) (bundle : Bundle)
    (coeffs : list double * list double) (template_num : nat)
  : outcome (list double * list double) :=
  P <- getParallelotope bundle template_num ;;
  t_matrix_i <- index (t_matrix bundle) template_num ;;
  let num_of_dirs :=
    if (mode =? 0)%Z then length t_matrix_i else length (dir_matrix bundle) in
  foldM (fun coeffs j =>
           dir_b <- (if (mode =? 0)%Z
                     then idx <- index t_matrix_i j ;;
                          if (idx <? 0)%Z then Fail out_of_range
                          else Done (Z.to_nat idx)
                     else Done j) ;;
           bound_direction bundle P coeffs dir_b)
        (seq 0 num_of_dirs) coeffs.

(** [Bundle::transform], on the integer the comparison [mode == 0] sees. *)
Definition transform_coeffs (mode : Z) (B : Bundle)
  : outcome (list double * list double) :=
  let tp_coeffs := repeat minCoeffType_init (size B) in
  let tm_coeffs := repeat minCoeffType_init (size B) in
  foldM (minimizeCoeffs mode B) (seq 0 (num_of_templates B)) (tp_coeffs, tm_coeffs).

Definition transform_int (mode : Z) (B : Bundle) : outcome Bundle :=
  coeffs <- transform_coeffs mode B ;;
  res <- Bundle_new (dir_matrix B) (fst coeffs) (snd coeffs) (t_matrix B) ;;
  if (mode =? 0)%Z then get_canonical maximize res else Done res.

(** [Bundle::transform] called for a mode, through the integer that stands
    for it. *)
Definition transform (mode : transfomation_mode) (B : Bundle) : outcome Bundle :=
  transform_int (mode_value mode) B.

(** What the specification says of the two modes, for comparison with
    [transform]: AFO bounds every direction over every template and returns
    the bundle as it is; OFO bounds the directions of each template only and
    canonicalises. *)
Definition minimizeCoeffs_spec (mode : transfomation_mode) (bundle : Bundle)
    (coeffs : list double * list double) (template_num : nat)
  : outcome (list double * list double) :=
  P <- getParallelotope bundle template_num ;;
  t_matrix_i <- index (t_matrix bundle) template_num ;;
  match mode with
  | AFO => foldM (bound_direction bundle P) (seq 0 (length (dir_matrix bundle))) coeffs
  | OFO => foldM (fun coeffs j =>
                    idx <- index t_matrix_i j ;;
                    if (idx <? 0)%Z then Fail out_of_range
                    else bound_direction bundle P coeffs (Z.to_nat idx))
                 (seq 0 (length t_matrix_i)) coeffs
  end.

Definition transform_spec (mode : transfomation_mode) (B : Bundle) : outcome Bundle :=
  coeffs <- foldM (minimizeCoeffs_spec mode B) (seq 0 (num_of_templates B))
                  (repeat minCoeffType_init (size B), repeat minCoeffType_init (size B)) ;;
  res <- Bundle_new (dir_matrix B) (fst coeffs) (snd coeffs) (t_matrix B) ;;
  match mode with
  | AFO => Done res
  | OFO => get_canonical maximize res
  end.

(** Template [template_num] bounds direction [j] by [maxCoeff]: the result
    of [find_max_coeffs] on the Bernstein coefficients of the direction over
    the parallelotope of the template. *)
Definition template_bound (B : Bundle) (template_num j : nat)
    (maxCoeff : MaxCoeffType) : Prop :=
  exists P d,
    getParallelotope B template_num = Done P /\
    nth_error (dir_matrix B) j = Some d /\
    find_max_coeffs max_finder (bern_coeffs P d) = Some maxCoeff.

(** [p] and [m] are the coefficients that the updates of [minCoeffType]
    leave for direction [j] when the templates in [templates] have bounded
    it: neither is above the bound of any of those templates, and each is
    the bound of one of them or still the initial [DBL_MAX]. *)
Definition bounded_via (B : Bundle) (templates : nat -> Prop) (j : nat)
    (p m : double) : Prop :=
  (forall i, templates i ->
     exists maxCoeff, template_bound B i j maxCoeff /\
       d_gtb p (mc_p maxCoeff) = false /\ d_gtb m (mc_m maxCoeff) = false) /\
  (p = d_max \/
   exists i maxCoeff, templates i /\ template_bound B i j maxCoeff /\
                      p = mc_p maxCoeff) /\
  (m = d_max \/
   exists i maxCoeff, templates i /\ template_bound B i j maxCoeff /\
                      m = mc_m maxCoeff).

(** Template [i] contains direction [j]. *)
Definition contains_direction (B : Bundle) (j i : nat) : Prop :=
  exists row, nth_error (t_matrix B) i = Some row /\ In (Z.of_nat j) row.

End Transform.
End BundleOps.


(** ** Symbolic expressions

    Modelled from the spec: [SymbolicAlgebra::Expression<>] is not in the
    sources.  Section 4.C asks for expressions that can be built from a
    number, negated, and evaluated once every free symbol is bound; the
    bound symbols are a [Point] here. *)

Class SymbolicAlgebra `{Scalar} : Type := {
  Expr : Type;
  Point : Type;
  expr_of_int : Z -> Expr;              (* Expression<>(int) *)
  expr_neg : Expr -> Expr;              (* unary minus *)
  expr_value : Expr -> Point -> double  (* the value at a point *)
}.

Record SymbolicLaws `{SymbolicAlgebra} : Prop := {
  value_of_int : forall z x, expr_value (expr_of_int z) x = d_of_Z z;
  value_neg : forall e x, expr_value (expr_neg e) x = d_opp (expr_value e x)
}.
Arguments SymbolicLaws {_} _.

(** ** STL formulas (STL.h and the classes it is the base of) *)

(** [STL::formula_type]. *)
Inductive formula_type : Type :=
| ATOM | CONJUNCTION | DISJUNCTION | UNTIL | ALWAYS | EVENTUALLY | NEGATION.

Section STLSyntax.
Context `{SymbolicAlgebra}.

(** The formula classes as Sapo.cpp and Always.cpp build and read them: an
    atom holds an expression [e] and stands for [e <= 0]; the temporal
    formulas carry the two ends of their time interval. *)
Inductive STL : Type :=
| Atom (e : Expr)
| Conjunction (left right : STL)
| Disjunction (left right : STL)
| Until (left : STL) (a b : Z) (right : STL)
| Always (a b : Z) (f : STL)
| Eventually (a b : Z) (f : STL)
| Negation (f : STL).

Definition get_type (formula : STL) : formula_type :=
  match formula with
  | Atom _ => ATOM
  | Conjunction _ _ => CONJUNCTION
  | Disjunction _ _ => DISJUNCTION
  | Until _ _ _ _ => UNTIL
  | Always _ _ _ => ALWAYS
  | Eventually _ _ _ => EVENTUALLY
  | Negation _ => NEGATION
  end.

(** No [Negation] node anywhere in the formula. *)
Fixpoint negation_free (formula : STL) : bool :=
  match formula with
  | Atom _ => true
  | Conjunction l r | Disjunction l r | Until l _ _ r =>
      negation_free l && negation_free r
  | Always _ _ f | Eventually _ _ f => negation_free f
  | Negation _ => false
  end.

(** Built from atoms, conjunctions and disjunctions only. *)
Fixpoint propositional (formula : STL) : bool :=
  match formula with
  | Atom _ => true
  | Conjunction l r | Disjunction l r => propositional l && propositional r
  | _ => false
  end.

(** Modelled from the spec: the bodies of [STL::get_PNF] are not in the
    sources (STL.h declares the pure virtual method).  The rewrite rules of
    section 4.H, with [negated] telling whether the formula stands under an
    odd number of negations: [~~f = f]; [~(f /\ g) = ~f \/ ~g];
    [~(f \/ g) = ~f /\ ~g]; [~G f = F ~f]; [~F f = G ~f];
    [~(f U g) = (~g U (~f /\ ~g)) \/ G ~g]; [~Atom(p) = Atom(-p - eps)]
    with [eps = 0]. *)
Fixpoint PNF_under (negated : bool) (formula : STL) : STL :=
  match formula with
  | Atom e => if negated then Atom (expr_neg e) else Atom e
  | Negation f => PNF_under (negb negated) f
  | Conjunction l r =>
      if negated then Disjunction (PNF_under true l) (PNF_under true r)
      else Conjunction (PNF_under false l) (PNF_under false r)
  | Disjunction l r =>
      if negated then Conjunction (PNF_under true l) (PNF_under true r)
      else Disjunction (PNF_under false l) (PNF_under false r)
  | Always a b f =>
      if negated then Eventually a b (PNF_under true f)
      else Always a b (PNF_under false f)
  | Eventually a b f =>
      if negated then Always a b (PNF_under true f)
      else Eventually a b (PNF_under false f)
  | Until l a b r =>
      if negated
      then Disjunction
             (Until (PNF_under true r) a b
                    (Conjunction (PNF_under true l) (PNF_under true r)))
             (Always a b (PNF_under true r))
      else Until (PNF_under false l) a b (PNF_under false r)
  end.

Definition get_PNF (formula : STL) : STL := PNF_under false formula.

(** *** Satisfaction on a trajectory

    A trajectory gives the state at each step from now on.  The temporal
    operators are unfolded step by step exactly as [Sapo::synthesize]
    unfolds them (Sapo.cpp, the overloads for [Until] and [Always]): an
    empty interval gives nothing; before the interval an Until asks for its
    left formula now and moves on, an Always just moves on; inside the
    interval an Until holds if the right formula holds now or the left one
    does and the rest holds after a step, an Always asks for its formula
    now and the rest after a step; at the end of the interval only the
    formula (the right one for Until) is asked for.  [fuel] bounds the
    number of steps. *)

Definition trajectory : Type := nat -> Point.

(** One transition: the trajectory seen from the next step. *)
Definition advance (sigma : trajectory) : trajectory := fun t => sigma (S t).

Fixpoint until_holds (fuel : nat) (L R : trajectory -> bool) (a b time : Z)
    (sigma : trajectory) : bool :=
  if (b <? a)%Z then false
  else if (time <? a)%Z then
    L sigma && match fuel with
               | S fuel' => until_holds fuel' L R a b (time + 1) (advance sigma)
               | O => false
               end
  else if (time <? b)%Z then
    (L sigma && match fuel with
                | S fuel' => until_holds fuel' L R a b (time + 1) (advance sigma)
                | O => false
                end)
    || R sigma
  else R sigma.

Fixpoint always_holds (fuel : nat) (F : trajectory -> bool) (a b time : Z)
    (sigma : trajectory) : bool :=
  if (b <? a)%Z then false
  else if (time <? a)%Z then
    match fuel with
    | S fuel' => always_holds fuel' F a b (time + 1) (advance sigma)
    | O => false
    end
  else if (time <? b)%Z then
    F sigma && match fuel with
               | S fuel' => always_holds fuel' F a b (time + 1) (advance sigma)
               | O => false
               end
  else F sigma.

(** The atom [e] holds in a state when [e <= 0] there. *)
Definition atom_holds (e : Expr) (sigma : trajectory) : bool :=
  d_leb (expr_value e (sigma 0)) d_zero.

(** [Eventually] is read as [Sapo::synthesize] reads it: the Until whose
    left formula is the atom [-1]. *)
Fixpoint holds (formula : STL) (sigma : trajectory) : bool :=
  match formula with
  | Atom e => atom_holds e sigma
  | Conjunction l r => holds l sigma && holds r sigma
  | Disjunction l r => holds l sigma || holds r sigma
  | Negation f => negb (holds f sigma)
  | Until l a b r => until_holds (Z.to_nat b) (holds l) (holds r) a b 0 sigma
  | Always a b f => always_holds (Z.to_nat b) (holds f) a b 0 sigma
  | Eventually a b f =>
      until_holds (Z.to_nat b) (atom_holds (expr_of_int (-1))) (holds f) a b 0 sigma
  end.

(** The atoms of a formula. *)
Fixpoint atoms (formula : STL) : list Expr :=
  match formula with
  | Atom e => [e]
  | Conjunction l r | Disjunction l r | Until l _ _ r => atoms l ++ atoms r
  | Always _ _ f | Eventually _ _ f | Negation f => atoms f
  end.

(** No atom of the formula takes the value 0 along the trajectory. *)
Definition never_zero (formula : STL) (sigma : trajectory) : Prop :=
  forall e t, In e (atoms formula) -> expr_value e (sigma t) <> d_zero.

(** Every temporal operator that stands under an odd number of negations
    has a non-empty time interval, and an Until that does starts at once
    ([a <= 0]). *)
Fixpoint PNF_exact_under (negated : bool) (formula : STL) : bool :=
  match formula with
  | Atom _ => true
  | Negation f => PNF_exact_under (negb negated) f
  | Conjunction l r | Disjunction l r =>
      PNF_exact_under negated l && PNF_exact_under negated r
  | Always a b f | Eventually a b f =>
      (if negated then (a <=? b)%Z else true) && PNF_exact_under negated f
  | Until l a b r =>
      (if negated then (a <=? b)%Z && (a <=? 0)%Z else true) &&
      PNF_exact_under negated l && PNF_exact_under negated r
  end.

End STLSyntax.

(** ** The engine (Sapo.cpp)

    Sapo.cpp handles a bundle only through member functions that Bundle.cpp
    at hand does not define ([intersect_with], [split], [is_empty]) and
    through other classes ([DynamicalSystem], [SetsUnion<Polytope>],
    [Polytope::split]) that are not in the sources.  For the engine a
    bundle and a union of polytopes are therefore abstract values, and
    those operations are the fields of [Collaborators]. *)

(** The data members of [class Sapo] that the two loops read. *)
Record Sapo `{Scalar} : Type := mkSapo {
  t_mode : transfomation_mode;          (* transformation mode *)
  decomp : nat;                         (* number of decompositions (0 = none) *)
  decomp_weight : double;
  max_param_splits : nat;
  num_of_pre_splits : N;
  max_bundle_magnitude : double;
  assumptions : Polytope                (* a LinearSystem; size() is its row count *)
}.
Arguments mkSapo {_} _ _ _ _ _ _ _.

Record Collaborators `{SymbolicAlgebra} (bundle SetsUnion : Type) : Type := {
  (* Bundle *)
  intersect_with : bundle -> Polytope -> bundle;
  split : bundle -> double -> double -> list bundle;
  bundle_is_empty : bundle -> bool;
  decompose : bundle -> double -> nat -> bundle;
  to_polytope : bundle -> Polytope;           (* operator Polytope *)
  SPLIT_MAGNITUDE_RATIO : double;             (* 0.75 *)
  (* DynamicalSystem *)
  ds_transform : bundle -> transfomation_mode -> bundle;
  ds_transform_param : bundle -> SetsUnion -> transfomation_mode -> bundle;
  (* SetsUnion<Polytope> and Polytope *)
  su_empty : SetsUnion;                       (* SetsUnion<Polytope>() *)
  su_of_bundle : bundle -> SetsUnion;         (* SetsUnion<Polytope>(bundle) *)
  su_of_polytope : Polytope -> SetsUnion;
  su_polytopes : SetsUnion -> list Polytope;  (* begin() .. end() *)
  su_add_polytope : SetsUnion -> Polytope -> SetsUnion;
  su_add : SetsUnion -> SetsUnion -> SetsUnion;
  su_intersect : SetsUnion -> SetsUnion -> SetsUnion;
  su_is_empty : SetsUnion -> bool;
  su_simplify : SetsUnion -> SetsUnion;
  polytope_split : Polytope -> N -> list Polytope;
  (* ::synthesize(ds, init_set, pSet, atom) *)
  synthesize_atom : bundle -> SetsUnion -> Expr -> SetsUnion
}.

Section Engine.
Context `{SymbolicAlgebra}.
Variables bundle SetsUnion : Type.
Variable env : Collaborators bundle SetsUnion.
Variable sapo : Sapo.

(** [SetsUnion::size()]: the number of polytopes of the union. *)
Definition su_size (u : SetsUnion) : nat := length (su_polytopes env u).

(** *** Reachability: [Sapo::reach(init_set, k)] *)

Definition Flowpipe : Type := list SetsUnion.

(** The bundle the lambda [compute_next_bundles_and_add_to_last] computes
    from [bundle]: transformed, cut by the assumptions, decomposed if asked
    for. *)
Definition next_bundle (b : bundle) : bundle :=
  let nbundle := ds_transform env b (t_mode sapo) in
  let nbundle := intersect_with env nbundle (assumptions sapo) in
  if 0 <? decomp sapo
  then decompose env nbundle (decomp_weight sapo) (decomp sapo)
  else nbundle.

(** The lambda [compute_next_bundles_and_add_to_last]; the pair is
    [(nbundles, last_step)], the two variables it captures by reference. *)
Definition compute_next_bundles_and_add_to_last
    (captured : list bundle * SetsUnion) (b : bundle) : list bundle * SetsUnion :=
  let nbundle := next_bundle b in
  if negb (bundle_is_empty env nbundle) then
    (fst captured
       ++ split env nbundle (max_bundle_magnitude sapo) (SPLIT_MAGNITUDE_RATIO env),
     su_add_polytope env (snd captured) (to_polytope env nbundle))
  else captured.

(** The [while (i < k && last_step.size() != 0)] loop, with [k - i] as
    the number of turns left. *)
Fixpoint reach_loop (turns_left : nat) (cbundles : list bundle)
    (last_step : SetsUnion) (flowpipe : Flowpipe) : Flowpipe :=
  match turns_left with
  | O => flowpipe
  | S turns_left' =>
      if su_size last_step =? 0 then flowpipe
      else
        let after := fold_left compute_next_bundles_and_add_to_last cbundles
                               ([], su_empty env) in
        reach_loop turns_left' (fst after) (snd after) (flowpipe ++ [snd after])
  end.

Definition reach (init_set : bundle) (k : nat) : Flowpipe :=
  let init_set := intersect_with env init_set (assumptions sapo) in
  let cbundles := split env init_set (max_bundle_magnitude sapo) (d_of_Z 1) in
  let last_step := su_simplify env (su_of_bundle env init_set) in
  reach_loop k cbundles last_step [last_step].

(** What the specification says of one step, for comparison with [reach]:
    of the transformed bundles only those that are not empty are kept
    ([kept_images]); the next bundles are the pieces of the kept ones
    ([step_bundles]) and the union of the step holds their polytopes
    ([step_union]). *)
Definition kept_images (cbundles : list bundle) : list bundle :=
  filter (fun b => negb (bundle_is_empty env b)) (map next_bundle cbundles).

Definition step_bundles (cbundles : list bundle) : list bundle :=
  flat_map (fun b => split env b (max_bundle_magnitude sapo)
                           (SPLIT_MAGNITUDE_RATIO env))
           (kept_images cbundles).

Definition step_union (cbundles : list bundle) : SetsUnion :=
  fold_left (su_add_polytope env) (map (to_polytope env) (kept_images cbundles))
            (su_empty env).

(** The bundles after [n] such steps from the initial set, and the union
    reached after [n] steps: the simplified initial set for [n = 0]. *)
Definition bundles_after (init_set : bundle) (n : nat) : list bundle :=
  Nat.iter n step_bundles
    (split env (intersect_with env init_set (assumptions sapo))
           (max_bundle_magnitude sapo) (d_of_Z 1)).

Definition reached_after (init_set : bundle) (n : nat) : SetsUnion :=
  match n with
  | O => su_simplify env
           (su_of_bundle env (intersect_with env init_set (assumptions sapo)))
  | S n' => step_union (bundles_after init_set n')
  end.

(** *** Synthesis *)

Definition assumptions_not_supported : failure :=
  runtime_error "Assumptions not supported in synthesis yet.".

Definition unsupported_formula : failure := logic_error "Unsupported formula".

(** Modelled from the spec: [Sapo::transition_and_synthesis] is declared in
    Sapo.h, which is not in the sources.  Section 4.J.3: it replaces init
    by its one-step transform under the currently retained parameter
    subset and recurses with [t + 1]; [again] is the overload of
    [synthesize] it recurses into. *)
Definition transition_and_synthesis
    (again : bundle -> SetsUnion -> Z -> outcome SetsUnion)
    (init_set : bundle) (pSet : SetsUnion) (time : Z) : outcome SetsUnion :=
  again (ds_transform_param env init_set pSet (t_mode sapo)) pSet (time + 1)%Z.

(** [Sapo::synthesize] for [Until] formulas (Sapo.cpp:633); [synth_left]
    and [synth_right] are [this->synthesize] on the two subformulas.  The
    time interval is empty when its end is before its begin, and is
    [> time] when it begins after [time]. *)
Fixpoint synthesize_until (fuel : nat)
    (synth_left synth_right : bundle -> SetsUnion -> outcome SetsUnion)
    (a b : Z) (init_set : bundle) (pSet : SetsUnion) (time : Z)
  : outcome SetsUnion :=
  let again i p t :=
    match fuel with
    | S fuel' => synthesize_until fuel' synth_left synth_right a b i p t
    | O => Fail out_of_fuel
    end in
  if (b <? a)%Z then Done (su_empty env)
  else if (time <? a)%Z then
    P1 <- synth_left init_set pSet ;;
    if su_is_empty env P1 then Done P1
    else transition_and_synthesis again init_set P1 time
  else if (time <? b)%Z then
    P1 <- synth_left init_set pSet ;;
    if su_is_empty env P1 then synth_right init_set pSet
    else
      result <- transition_and_synthesis again init_set P1 time ;;
      right <- synth_right init_set pSet ;;
      Done (su_add env result right)
  else synth_right init_set pSet.

(** [Sapo::synthesize] for [Always] formulas (Sapo.cpp:689). *)
Fixpoint synthesize_always (fuel : nat)
    (synth_sub : bundle -> SetsUnion -> outcome SetsUnion)
    (a b : Z) (init_set : bundle) (pSet : SetsUnion) (time : Z)
  : outcome SetsUnion :=
  let again i p t :=
    match fuel with
    | S fuel' => synthesize_always fuel' synth_sub a b i p t
    | O => Fail out_of_fuel
    end in
  if (b <? a)%Z then Done (su_empty env)
  else if (time <? a)%Z then
    transition_and_synthesis again init_set pSet time
  else if (time <? b)%Z then
    P <- synth_sub init_set pSet ;;
    if su_is_empty env P then Done P
    else transition_and_synthesis again init_set P time
  else synth_sub init_set pSet.

(** [Sapo::synthesize(init_set, pSet, formula)] (Sapo.cpp:563), the switch
    on the formula type, with the overloads for atoms, conjunctions,
    disjunctions and [Eventually] formulas in its branches.  The two
    temporal overloads are entered at time 0; they make at most [b] further
    steps, which is the fuel they get. *)
Fixpoint synthesize (formula : STL) (init_set : bundle) (pSet : SetsUnion)
  : outcome SetsUnion :=
  if 0 <? length (poly_A (assumptions sapo))
  then Fail assumptions_not_supported
  else
    match formula with
    | Atom e => Done (synthesize_atom env init_set pSet e)
    | Conjunction l r =>
        Pu1 <- synthesize l init_set pSet ;;
        Pu2 <- synthesize r init_set pSet ;;
        Done (su_intersect env Pu1 Pu2)
    | Disjunction l r =>
        Pu <- synthesize l init_set pSet ;;
        Pu2 <- synthesize r init_set pSet ;;
        Done (su_add env Pu Pu2)
    | Until l a b r =>
        synthesize_until (Z.to_nat b) (synthesize l) (synthesize r) a b
                         init_set pSet 0
    | Always a b f =>
        synthesize_always (Z.to_nat b) (synthesize f) a b init_set pSet 0
    | Eventually a b f =>
        (* true_atom = Atom(-1); u = Until(true_atom, begin, end, subformula) *)
        synthesize_until (Z.to_nat b)
          (fun i p =>
             if 0 <? length (poly_A (assumptions sapo))
             then Fail assumptions_not_supported
             else Done (synthesize_atom env i p (expr_of_int (-1))))
          (synthesize f) a b init_set pSet 0
    | Negation _ => Fail unsupported_formula
    end.

(** What section 4.J.3 says of [Eventually]: rewrite as [True U_[a,b] f]
    and recurse, where [True] is the atom of the constant [-1]. *)
Definition synthesize_eventually_spec (a b : Z) (f : STL)
    (init_set : bundle) (pSet : SetsUnion) : outcome SetsUnion :=
  synthesize (Until (Atom (expr_of_int (-1))) a b f) init_set pSet.

(** [get_a_finer_covering] (Sapo.cpp:298). *)
Definition get_a_finer_covering (orig : list SetsUnion)
    (num_of_polytope_splits : N) : list SetsUnion :=
  flat_map (fun ps =>
     match su_polytopes env ps with
     | [] => []
     | [P] => map (su_of_polytope env) (polytope_split env P num_of_polytope_splits)
     | polytopes => map (su_of_polytope env) polytopes
     end) orig.

(** [std::numeric_limits<unsigned>::max()], the default number of splits. *)
Definition UINT_MAX : N := 4294967295.

(** [synthesize_list] (Sapo.cpp:384), one synthesis per parameter set. *)
Definition synthesize_list (init_set : bundle) (pSetList : list SetsUnion)
    (formula : STL) : outcome (list SetsUnion) :=
  mapM (fun pSet => synthesize formula init_set pSet) pSetList.

(** Modelled from the spec: [every_set_is_empty] is not in the sources; by
    its name and its use, every union of the list is empty. *)
Definition every_set_is_empty (res : list SetsUnion) : bool :=
  forallb (su_is_empty env) res.

(** The loop [while (every_set_is_empty(res) && num_of_splits++ < max_splits)]
    of the synthesis with splits, with [max_splits - num_of_splits] as the
    number of turns left. *)
Fixpoint refine_while_empty (turns_left : nat) (init_set : bundle)
    (formula : STL) (pSetList res : list SetsUnion) : outcome (list SetsUnion) :=
  if every_set_is_empty res then
    match turns_left with
    | O => Done res
    | S turns_left' =>
        let pSetList := get_a_finer_covering pSetList UINT_MAX in
        res <- synthesize_list init_set pSetList formula ;;
        refine_while_empty turns_left' init_set formula pSetList res
    end
  else Done res.

(** [Sapo::synthesize(init_set, pSet, formula, max_splits,
    num_of_pre_splits)] (Sapo.cpp:450). *)
Definition synthesize_with_splits (init_set : bundle) (pSet : SetsUnion)
    (formula : STL) (max_splits : nat) (num_of_pre_splits : N)
  : outcome (list SetsUnion) :=
  if 0 <? length (poly_A (assumptions sapo))
  then Fail assumptions_not_supported
  else
    let pSetList :=
      if (1 <? num_of_pre_splits)%N
      then get_a_finer_covering [pSet] num_of_pre_splits
      else [pSet] in
    res <- synthesize_list init_set pSetList formula ;;
    res <- refine_while_empty max_splits init_set formula pSetList res ;;
    Done (map (su_simplify env) res).

End Engine.

(** *** Parameter sets as sets of points

    [mem theta U] reads "the parameter valuation [theta] belongs to the
    union [U]".  The laws say what the set operations and the synthesis of
    an atom do to membership (section 4.J.3: an atom keeps the subset of
    [pSet] for which the predicate holds on all of [init]). *)
Record SetLaws `{SymbolicAlgebra} (bundle SetsUnion Param : Type)
    (env : Collaborators bundle SetsUnion)
    (mem : Param -> SetsUnion -> Prop) : Prop := {
  mem_empty : forall theta, ~ mem theta (su_empty env);
  mem_add : forall theta U V,
      mem theta (su_add env U V) <-> mem theta U \/ mem theta V;
  mem_intersect : forall theta U V,
      mem theta (su_intersect env U V) <-> mem theta U /\ mem theta V;
  mem_atom_subset : forall init e U theta,
      mem theta (synthesize_atom env init U e) -> mem theta U;
  mem_atom_monotone : forall init e U U',
      (forall theta, mem theta U -> mem theta U') ->
      forall theta, mem theta (synthesize_atom env init U e) ->
                    mem theta (synthesize_atom env init U' e)
}.

(** [R] is a subset of [U], as sets of parameter valuations. *)
Definition subset (SetsUnion Param : Type) (mem : Param -> SetsUnion -> Prop)
    (R U : SetsUnion) : Prop :=
  forall theta, mem theta R -> mem theta U.

(** ** Sample collaborators: integer points on a line

    One state variable and one parameter, both integers.  A bundle is an
    interval [(lo, hi)]; a union of polytopes is the list of its integer
    points; an expression [(c1, c0)] stands for [c1 * x + c0]. *)

Definition line_algebra : @SymbolicAlgebra exactZ :=
  @Build_SymbolicAlgebra exactZ
    (Z * Z)                                      (* Expr *)
    Z                                            (* Point *)
    (fun z => (0, z)%Z)                          (* expr_of_int *)
    (fun e => (- fst e, - snd e)%Z)              (* expr_neg *)
    (fun e x => (fst e * x + snd e)%Z).          (* expr_value *)

Definition Z_range (lo hi : Z) : list Z :=
  map (fun i => (lo + Z.of_nat i)%Z) (seq 0 (Z.to_nat (hi - lo + 1))).

(** The polytope [{theta}]. *)
Definition point_polytope (theta : Z) : Polytope (H := exactZ) :=
  @mkPolytope exactZ [[1%Z]; [(-1)%Z]] [theta; (- theta)%Z].

(** The integer points of the polytope [-nlo <= x <= hi]. *)
Definition polytope_points (P : Polytope (H := exactZ)) : list Z :=
  match poly_b P with
  | [hi; nlo] => Z_range (- nlo) hi
  | _ => []
  end.

(** The interval spanned by the images [theta * x] of the end points. *)
Definition scaled_interval (b : Z * Z) (thetas : list Z) : Z * Z :=
  match flat_map (fun theta => [theta * fst b; theta * snd b]%Z) thetas with
  | [] => (1, 0)%Z
  | y :: ys => (fold_left Z.min ys y, fold_left Z.max ys y)
  end.

(** The dynamics are [x' = x + 1] without parameters and [x' = theta * x]
    with the parameter [theta]; an assumption [x <= ub] cuts the interval
    from above. *)
Definition line_env : @Collaborators exactZ line_algebra (Z * Z) (list Z) :=
  @Build_Collaborators exactZ line_algebra (Z * Z) (list Z)
    (* intersect_with *)
    (fun b P => match poly_b P with
                | ub :: _ => (fst b, Z.min (snd b) ub)
                | [] => b
                end)
    (* split *)
    (fun b _ _ => [b])
    (* bundle_is_empty *)
    (fun b => (snd b <? fst b)%Z)
    (* decompose *)
    (fun b _ _ => b)
    (* to_polytope *)
    (fun b => @mkPolytope exactZ [[1%Z]; [(-1)%Z]] [snd b; (- fst b)%Z])
    (* SPLIT_MAGNITUDE_RATIO *)
    1%Z
    (* ds_transform *)
    (fun b _ => (fst b + 1, snd b + 1)%Z)
    (* ds_transform_param *)
    (fun b thetas _ => scaled_interval b thetas)
    (* su_empty *)
    []
    (* su_of_bundle *)
    (fun b => Z_range (fst b) (snd b))
    (* su_of_polytope *)
    polytope_points
    (* su_polytopes *)
    (map point_polytope)
    (* su_add_polytope *)
    (fun U P => U ++ polytope_points P)
    (* su_add *)
    (@app Z)
    (* su_intersect *)
    (fun U V => filter (fun theta => existsb (Z.eqb theta) V) U)
    (* su_is_empty *)
    (fun U => match U with [] => true | _ => false end)
    (* su_simplify *)
    (fun U => U)
    (* polytope_split *)
    (fun P _ => [P])
    (* synthesize_atom *)
    (fun b thetas e =>
       if forallb (fun x => (fst e * x + snd e <=? 0)%Z) (Z_range (fst b) (snd b))
       then thetas else []).

(** Three negated formulas and trajectories on which the rewrite to
    positive normal form changes the truth value: the negation of [x <= 0]
    on the trajectory that stays at 0; the negation of an Until over [[1, 1]]
    whose left side is false; the negation of an Always over the empty
    interval [[1, 0]].  And one formula on which it does not: the negation
    of [1 <= 0  U_[0,2]  x - 3 <= 0] on the trajectory [0, 2, 4, ...]. *)
Definition not_nonpositive : @STL exactZ line_algebra :=
  @Negation exactZ line_algebra (@Atom exactZ line_algebra (1, 0)%Z).

Definition not_until_late : @STL exactZ line_algebra :=
  @Negation exactZ line_algebra
    (@Until exactZ line_algebra (@Atom exactZ line_algebra (0, 1)%Z) 1 1
            (@Atom exactZ line_algebra (0, -1)%Z)).

Definition not_always_empty : @STL exactZ line_algebra :=
  @Negation exactZ line_algebra
    (@Always exactZ line_algebra 1 0 (@Atom exactZ line_algebra (0, -1)%Z)).

Definition not_until_now : @STL exactZ line_algebra :=
  @Negation exactZ line_algebra
    (@Until exactZ line_algebra (@Atom exactZ line_algebra (0, 1)%Z) 0 2
            (@Atom exactZ line_algebra (1, -3)%Z)).

Definition stays_at_zero : @trajectory exactZ line_algebra := fun _ => 0%Z.

Definition even_steps : @trajectory exactZ line_algebra := fun t => (2 * Z.of_nat t)%Z.

(** An engine without assumptions, and one that assumes [x <= 2]. *)
Definition line_sapo : Sapo (H := exactZ) :=
  @mkSapo exactZ AFO 0 0%Z 0 0%N 100%Z (@mkPolytope exactZ [] []).

Definition line_sapo_assuming : Sapo (H := exactZ) :=
  @mkSapo exactZ AFO 0 0%Z 0 0%N 100%Z (@mkPolytope exactZ [[1%Z]] [2%Z]).

(** [x <= 1] at time 1, as the formula [G_[1,1] (x - 1 <= 0)]. *)
Definition at_most_one_next : @STL exactZ line_algebra :=
  @Always exactZ line_algebra 1 1 (@Atom exactZ line_algebra (1, -1)%Z).

(** ** Sample data over binary64 doubles *)

(** The interval [-1 <= x <= 1] as a bundle with one direction and one
    template, on which the assumption [x <= 0] has been recorded. *)
Definition bundle_with_assumption : Bundle (H := binary64) :=
  mkBundle [[1%float]] [1%float] [1%float] [[0%Z]] [[1%float]] [0%float].

(** One variable, two directions [x] and [2x], one template that uses the
    first direction only: [0 <= x <= 1] and [0 <= 2x <= 4]. *)
Definition bundle_two_directions : Bundle (H := binary64) :=
  mkBundle [[1%float]; [2%float]] [1%float; 4%float] [0%float; 0%float]
           [[0%Z]] [] [].

(** The Bernstein coefficients of [d . x] for the identity dynamics of one
    variable over a parallelotope with template direction [x], lower offset
    [l] and upper offset [u], that is over [-l <= x <= u]: the values of
    [d0 * x] at the two end points. *)
Definition identity_bern (P : Parallelotope (H := binary64)) (d : list float)
  : list float :=
  match d, lower_bound P, upper_bound P with
  | [d0], [l], [u] => [(d0 * - l)%float; (d0 * u)%float]
  | _, _, _ => []
  end.

(** ** Sample data over exact integers *)

(** One variable, directions [x] and [2x] with [0 <= x <= 3] and
    [0 <= 2x <= 4]: the interval [[0, 2]], not in canonical form. *)
Definition interval_bundle : Bundle (H := exactZ) :=
  @mkBundle exactZ [[1%Z]; [2%Z]] [3%Z; 4%Z] [0%Z; 0%Z] [[0%Z]] [] [].

(** The maximum of [c0 * x] over the interval [[0, 2]]. *)
Definition interval_maximize (P : Polytope (H := exactZ)) (c : list Z) : Z :=
  match c with
  | [c0] => if (0 <=? c0)%Z then (2 * c0)%Z else 0%Z
  | _ => 0%Z
  end.

(** ** Trimming the directions no template uses
    (sapo/src/AutoGenerated.cpp, [trim_unused_directions]) *)

(** [v[idx] = x] for an [int] index. *)
Definition assign_int (A : Type) (v : list A) (idx : Z) (x : A) : outcome (list A) :=
  if (idx <? 0)%Z then Fail out_of_range else assign v (Z.to_nat idx) x.

(** [v[k]] for an index of type [size_t]. *)
Definition index_N (A : Type) (v : list A) (k : N) : outcome A :=
  if (N.of_nat (length v) <=? k)%N then Fail out_of_range else index v (N.to_nat k).

(** [i - 1] on an [unsigned int]: 0 wraps around to [UINT_MAX]. *)
Definition unsigned_pred (i : nat) : N :=
  if i =? 0 then 4294967295%N else N.of_nat (i - 1).

(** [v.size() - 1] on a 64-bit [size_t]. *)
Definition size_pred (n : nat) : N :=
  if n =? 0 then 18446744073709551615%N else N.of_nat (n - 1).

(** [v.resize(n)]: the first [n] elements, followed by value-initialised
    ones when [v] is shorter. *)
Definition resize (A : Type) (v : list A) (n : nat) (fill : A) : list A :=
  firstn n v ++ repeat fill (n - length v).

Section TrimUnusedDirections.
Context `{Scalar}.

(** The first loop: [new_pos[dir] = 1] for every entry of every template. *)
Definition mark_used (template_matrix : list (list Z)) (new_pos : list Z)
  : outcome (list Z) :=
  foldM (fun new_pos T =>
           foldM (fun new_pos dir => assign_int new_pos dir 1%Z) T new_pos)
        template_matrix new_pos.

(** The second loop: [new_pos[i] += new_pos[i - 1]] for [i] from 1. *)
Definition partial_sums (n : nat) (new_pos : list Z) : outcome (list Z) :=
  foldM (fun new_pos i =>
           a <- index new_pos i ;;
           b <- index new_pos (i - 1) ;;
           assign new_pos i (a + b)%Z)
        (seq 1 (n - 1)) new_pos.

(** The test [(i == 0 && new_pos[i] == 1) || (new_pos[i] != new_pos[i - 1])]
    on the [unsigned int i], evaluated left to right with its short
    cuts. *)
Definition is_used_direction (new_pos : list Z) (i : nat) : outcome bool :=
  first <- (if i =? 0 then a <- index new_pos i ;; Done (a =? 1)%Z
            else Done false) ;;
  if first then Done true
  else
    a <- index new_pos i ;;
    b <- index_N new_pos (unsigned_pred i) ;;
    Done (negb (a =? b)%Z).

(** The body of the third loop: a used direction and its two bounds move
    to position [new_pos[i] - 1]. *)
Definition move_direction (new_pos : list Z) (state : Matrix * Vector * Vector)
    (i : nat) : outcome (Matrix * Vector * Vector) :=
  let '(directions, LB, UB) := state in
  used <- is_used_direction new_pos i ;;
  if used then
    p <- index new_pos i ;;
    let new_i := (p - 1)%Z in
    d <- index directions i ;;
    directions <- assign_int directions new_i d ;;
    l <- index LB i ;;
    LB <- assign_int LB new_i l ;;
    u <- index UB i ;;
    UB <- assign_int UB new_i u ;;
    Done (directions, LB, UB)
  else Done state.

(** [trim_unused_directions(directions, LB, UB, template_matrix)]; the
    result is the value of the four vectors, all passed by reference, when
    the function returns.  The loop counters are [unsigned int]: the loops
    are those of vectors with fewer than 2^32 entries. *)
Definition trim_unused_directions (directions : Matrix) (LB UB : Vector)
    (template_matrix : list (list Z))
  : outcome (Matrix * Vector * Vector * list (list Z)) :=
  let n := length directions in
  new_pos <- mark_used template_matrix (repeat 0%Z n) ;;
  new_pos <- partial_sums n new_pos ;;
  last_pos <- index_N new_pos (size_pred n) ;;
  (* unsigned int num_of_directions = new_pos[directions.size() - 1] *)
  let num_of_directions := Z.to_nat (last_pos mod 4294967296) in
  moved <- foldM (move_direction new_pos) (seq 0 n) (directions, LB, UB) ;;
  let '(directions, LB, UB) := moved in
  let directions := resize directions num_of_directions [] in
  let LB := resize LB num_of_directions d_zero in
  let UB := resize UB num_of_directions d_zero in
  (* re-map the template matrix: dir = new_pos[dir] - 1 *)
  template_matrix <-
    mapM (mapM (fun dir => p <- index_int new_pos dir ;; Done (p - 1)%Z))
         template_matrix ;;
  Done (directions, LB, UB, template_matrix).

End TrimUnusedDirections.

(** Direction [i] occurs in some template. *)
Definition used_by (template_matrix : list (list Z)) (i : nat) : bool :=
  existsb (Z.eqb (Z.of_nat i)) (concat template_matrix).

(** Every template entry is the index of a direction. *)
Definition entries_in_range (template_matrix : list (list Z)) (n : nat) : bool :=
  forallb (fun e => (0 <=? e)%Z && (e <? Z.of_nat n)%Z) (concat template_matrix).

(** The number of used directions among the first [k]: the position a used
    direction [k] is moved to. *)
Definition used_before (template_matrix : list (list Z)) (k : nat) : nat :=
  length (filter (used_by template_matrix) (seq 0 k)).

(** Three directions of the plane, for the sample runs of the trim. *)
Definition three_directions : list (list Z) :=
  [[1%Z; 0%Z]; [0%Z; 1%Z]; [1%Z; 1%Z]].

(** A bundle that passes the checks of the constructor although its
    template names a direction 5 that does not exist. *)
Definition bundle_with_stray_entry : Bundle (H := binary64) :=
  mkBundle [[1%float]; [2%float]] [1%float; 4%float] [0%float; 0%float]
           [[5%Z]] [] [].

(** ** Directions on the same line (sapo/src/AutoGenerated.cpp) *)

(** A call that returns or throws [std::domain_error]. *)
Inductive or_domain_error (A : Type) : Type :=
| Returned (a : A)
| domain_error (what : string).
Arguments Returned {A} a.
Arguments domain_error {A} what.

Section SameLine.
Context `{Scalar}.

(** The [for] loop of [on_the_same_line], from index [nn_i] on: [a] and [b]
    are [v1[nn_i]] and [v2[nn_i]]. *)
Fixpoint proportional_from (a b : double) (v1 v2 : Vector) : bool :=
  match v1, v2 with
  | x :: v1', y :: v2' =>
      if negb (d_eqb (d_mul y a) (d_mul x b)) then false
      else proportional_from a b v1' v2'
  | _, _ => true
  end.

(** The [while] loop of [on_the_same_line], which looks for the first
    non-null element of [v1], followed by the [for] loop. *)
Fixpoint skip_null_prefix (v1 v2 : Vector) : bool :=
  match v1, v2 with
  | a :: v1', b :: v2' =>
      if d_eqb a d_zero
      then if negb (d_eqb b d_zero) then false else skip_null_prefix v1' v2'
      else proportional_from a b v1 v2
  | _, _ => true
  end.

(** [on_the_same_line(v1, v2)]. *)
Definition on_the_same_line (v1 v2 : Vector) : or_domain_error bool :=
  if negb (length v1 =? length v2)
  then domain_error "The two vectors must belong to the same space"
  else if length v1 =? 0 then Returned true
  else Returned (skip_null_prefix v1 v2).

(** The loop of [find_on_the_same_line], at index [i]. *)
Fixpoint find_on_the_same_line_from (i : nat) (M : Matrix) (v : Vector)
  : or_domain_error nat :=
  match M with
  | [] => Returned i
  | row :: M' =>
      match on_the_same_line row v with
      | domain_error what => domain_error what
      | Returned true => Returned i
      | Returned false => find_on_the_same_line_from (S i) M' v
      end
  end.

(** [find_on_the_same_line(M, v)]. *)
Definition find_on_the_same_line (M : Matrix) (v : Vector) : or_domain_error nat :=
  find_on_the_same_line_from 0 M v.

End SameLine.

(** ** Rows that are permutations of one another (Bundle.cpp) *)

(** [std::sort] on a vector of [int]: its ascending rearrangement, built
    here by insertion. *)
Fixpoint sort_insert (x : Z) (l : list Z) : list Z :=
  match l with
  | [] => [x]
  | y :: l' => if (x <=? y)%Z then x :: l else y :: sort_insert x l'
  end.

Fixpoint std_sort (l : list Z) : list Z :=
  match l with
  | [] => []
  | x :: l' => sort_insert x (std_sort l')
  end.

(** The loop of [isPermutationOfSorted] that walks the two vectors
    together and stops at the first difference. *)
Fixpoint same_elements (v1 v2 : list Z) : bool :=
  match v1, v2 with
  | a :: v1', b :: v2' => if negb (a =? b)%Z then false else same_elements v1' v2'
  | _, _ => true
  end.

(** [isPermutationOfSorted(v1, v2_sorted)]. *)
Definition isPermutationOfSorted (v1 v2_sorted : list Z) : bool :=
  if negb (length v1 =? length v2_sorted) then false
  else same_elements (std_sort v1) v2_sorted.

(** [isPermutation(v1, v2)]. *)
Definition isPermutation (v1 v2 : list Z) : bool :=
  if negb (length v1 =? length v2) then false
  else isPermutationOfSorted v1 (std_sort v2).

(** [is_permutation_of_other_rows(M, i)], for the element type [int] the
    templates have. *)
Definition is_permutation_of_other_rows (M : list (list Z)) (i : nat)
  : outcome bool :=
  M_i <- index M i ;;
  let M_i := std_sort M_i in
  Done (existsb (fun row => negb (fst row =? i) && isPermutationOfSorted (snd row) M_i)
                (combine (seq 0 (length M)) M)).

(** [isIn(n, v)] and [isIn(v, vlist)]. *)
Definition isIn (n : Z) (v : list Z) : bool := existsb (fun x => (n =? x)%Z) v.

Definition isIn_rows (v : list Z) (vlist : list (list Z)) : bool :=
  existsb (fun row => isPermutation v row) vlist.

(** ** Accumulated distances of the templates (Bundle.cpp) *)

Section OffsetDistances.
Context `{Scalar}.

(** [maxOffsetDist(dirsIdx, dists)]: the product of the distances of the
    directions, starting from 1. *)
Definition maxOffsetDist_dirs (dirsIdx : list Z) (dists : Vector) : outcome double :=
  foldM (fun dist idx => d <- index_int dists idx ;; Done (d_mul dist d))
        dirsIdx (d_of_Z 1).

(** [maxOffsetDist(vIdx, dirsIdx, dists)]. *)
Definition maxOffsetDist_from (vIdx : Z) (dirsIdx : list Z) (dists : Vector)
  : outcome double :=
  if length dirsIdx =? 0 then Done (d_of_Z 0)
  else
    dist <- index_int dists vIdx ;;
    foldM (fun dist idx => d <- index_int dists idx ;; Done (d_mul dist d))
          dirsIdx dist.

(** [maxOffsetDist(T, dists)]: [std::max(a, b)] is [(a < b) ? b : a], and
    the running maximum starts at [std::numeric_limits<double>::lowest()],
    which is [-DBL_MAX]. *)
Definition maxOffsetDist (T : list (list Z)) (dists : Vector) : outcome double :=
  foldM (fun maxdist row =>
           d <- maxOffsetDist_dirs row dists ;;
           Done (rmax d_ltb maxdist d))
        T (d_opp d_max).

End OffsetDistances.

(** ** Reachability under a set of parameters:
    [Sapo::reach(init_set, pSet, k)] (Sapo.cpp:154) *)

Section ParametricReach.
Context `{SymbolicAlgebra}.
Variables bundle SetsUnion : Type.
Variable env : Collaborators bundle SetsUnion.
Variable sapo : Sapo.
(** [DynamicalSystem::transform(bundle, pSet, mode)] for one polytope of
    parameters, and [Polytope::is_empty]: neither is in the sources. *)
Variable ds_transform_polytope : bundle -> Polytope -> transfomation_mode -> bundle.
Variable polytope_is_empty : Polytope -> bool.

(** The bundle the lambda computes from a bundle of [cbundles[pos]]:
    transformed under the parameters of [pSet], cut by the assumptions,
    decomposed if asked for. *)
Definition next_bundle_param (pSet : Polytope) (b : bundle) : bundle :=
  let nbundle := ds_transform_polytope b pSet (t_mode sapo) in
  let nbundle := intersect_with env nbundle (assumptions sapo) in
  if 0 <? decomp sapo
  then decompose env nbundle (decomp_weight sapo) (decomp sapo)
  else nbundle.

(** The body of the loop over [cbundles[pos]]; the pair is
    [(nbundles[pos], last_step)]. *)
Definition add_next_param (pSet : Polytope)
    (captured : list bundle * SetsUnion) (b : bundle) : list bundle * SetsUnion :=
  let nbundle := next_bundle_param pSet b in
  let bls := to_polytope env nbundle in
  if negb (polytope_is_empty bls) then
    (fst captured
       ++ split env nbundle (max_bundle_magnitude sapo) (SPLIT_MAGNITUDE_RATIO env),
     su_add_polytope env (snd captured) bls)
  else captured.

(** One turn of the [while] loop: the lambda
    [compute_next_bundles_and_add_to_last] is called on every polytope of
    [pSet] with its position [pos], reads [cbundles[pos]] and fills
    [nbundles[pos]], which starts empty; [last_step] is shared by all the
    calls.  Both vectors hold one list for each polytope of [pSet]. *)
Definition reach_param_step (polytopes : list Polytope)
    (cbundles : list (list bundle)) : list (list bundle) * SetsUnion :=
  fold_left (fun (state : list (list bundle) * SetsUnion)
                 (at_pos : Polytope * list bundle) =>
               let after := fold_left (add_next_param (fst at_pos)) (snd at_pos)
                                      ([], snd state) in
               (fst state ++ [fst after], snd after))
            (combine polytopes cbundles) ([], su_empty env).

(** The [while (i < k && last_step.size() != 0)] loop. *)
Fixpoint reach_param_loop (turns_left : nat) (polytopes : list Polytope)
    (cbundles : list (list bundle)) (last_step : SetsUnion)
    (flowpipe : list SetsUnion) : list SetsUnion :=
  match turns_left with
  | O => flowpipe
  | S turns_left' =>
      if su_size env last_step =? 0 then flowpipe
      else
        let after := reach_param_step polytopes cbundles in
        reach_param_loop turns_left' polytopes (fst after) (snd after)
                         (flowpipe ++ [snd after])
  end.

Definition reach_param (init_set : bundle) (pSet : SetsUnion) (k : nat)
  : list SetsUnion :=
  let polytopes := su_polytopes env pSet in
  let num_p_poly := length polytopes in
  let init_set := intersect_with env init_set (assumptions sapo) in
  let cbundle_list := split env init_set (max_bundle_magnitude sapo) (d_of_Z 1) in
  let cbundles := repeat cbundle_list num_p_poly in
  let last_step := su_simplify env (su_of_bundle env init_set) in
  reach_param_loop k polytopes cbundles last_step [last_step].

(** The engine whose dynamical system transforms every bundle under the
    parameters of the polytope [P]. *)
Definition under_parameters (P : Polytope) : Collaborators bundle SetsUnion :=
  {| intersect_with := intersect_with env;
     split := split env;
     bundle_is_empty := bundle_is_empty env;
     decompose := decompose env;
     to_polytope := to_polytope env;
     SPLIT_MAGNITUDE_RATIO := SPLIT_MAGNITUDE_RATIO env;
     ds_transform := fun b mode => ds_transform_polytope b P mode;
     ds_transform_param := ds_transform_param env;
     su_empty := su_empty env;
     su_of_bundle := su_of_bundle env;
     su_of_polytope := su_of_polytope env;
     su_polytopes := su_polytopes env;
     su_add_polytope := su_add_polytope env;
     su_add := su_add env;
     su_intersect := su_intersect env;
     su_is_empty := su_is_empty env;
     su_simplify := su_simplify env;
     polytope_split := polytope_split env;
     synthesize_atom := synthesize_atom env |}.

End ParametricReach.

(** ** The sets of a model (src/AutoGenerated.cpp, the constructor of
    [AutoGenerated]) *)

Section ModelSets.
Context `{Scalar}.

(** The initial set:
    [new Bundle(m.getDirections(), m.getUB(), -m.getLB(), m.getTemplate())]. *)
Definition model_reachSet (directions : Matrix) (LB UB : Vector)
    (template : list (list Z)) : outcome Bundle :=
  Bundle_new directions UB (vec_opp LB) template.

(** The parameter set.  The rows [pA[2 * i]] and [pA[2 * i + 1]] and the
    entries [pb[2 * i]] and [pb[2 * i + 1]] are written for [i] from 0 on,
    so the matrix and the vector are the concatenations of these pairs;
    without parameter directions no polytope is built and [paraSet] is left
    as it was. *)
Definition model_paraSet (paramDirections : Matrix) (paramLB paramUB : Vector)
    (paramNum : nat) : outcome (option Polytope) :=
  let paramDirectionsNum := length paramDirections in
  if paramDirectionsNum =? 0 then Done None
  else
    pA <- mapM (fun i =>
                  d <- index paramDirections i ;;
                  (* pA[2 * i + 1][j] = -pA[2 * i][j] for j < getParamNum() *)
                  opposite <- mapM (fun j => x <- index d j ;; Done (d_opp x))
                                   (seq 0 paramNum) ;;
                  Done [d; opposite])
               (seq 0 paramDirectionsNum) ;;
    pb <- mapM (fun i =>
                  ub <- index paramUB i ;;
                  lb <- index paramLB i ;;
                  Done [ub; d_opp lb])
               (seq 0 paramDirectionsNum) ;;
    Done (Some (mkPolytope (concat pA) (concat pb))).

End ModelSets.

(** ** The columns of the template problem (sapo/src/AutoGenerated.cpp) *)

(** The value of an [int] expression, with the wrap-around of 32-bit
    two's complement arithmetic written out (the C++ standard leaves
    signed overflow undefined). *)
Definition int_wrap (z : Z) : Z :=
  ((z + 2147483648) mod 4294967296 - 2147483648)%Z.

(** [map_paral(d, P, Pn)], the column of direction [d] in parallelotope
    [P]: [d * (Pn) + P] on [int]. *)
Definition map_paral (d P Pn : Z) : Z := int_wrap (int_wrap (d * Pn) + P).

(** ** Looking up the variables of the input (sapo/src/InputData.cpp) *)

Section InputDataLookups.
(** What the lookups read of a [Variable]: its name.  [vars] is the vector
    of the variables in the order [addVariable] pushed them. *)
Variable Variable_ : Type.
Variable getName : Variable_ -> string.

(** [isVarDefined(name)]. *)
Definition isVarDefined (vars : list Variable_) (name : string) : bool :=
  existsb (fun v => String.eqb (getName v) name) vars.

(** [getVar(name)]; [None] is [NULL]. *)
Definition getVar (vars : list Variable_) (name : string) : option Variable_ :=
  find (fun v => String.eqb (getName v) name) vars.

(** The loop of [getVarPos], at index [i]. *)
Fixpoint getVarPos_from (i : nat) (vars : list Variable_) (name : string) : Z :=
  match vars with
  | [] => (-1)%Z
  | v :: vars' =>
      if String.eqb (getName v) name then Z.of_nat i
      else getVarPos_from (S i) vars' name
  end.

(** [getVarPos(name)]. *)
Definition getVarPos (vars : list Variable_) (name : string) : Z :=
  getVarPos_from 0 vars name.

End InputDataLookups.

(** ** More sample data *)

(** On the line, the transform under the parameters of a polytope scales
    by each of its points, and a polytope [-nlo <= x <= hi] is empty when
    [hi < -nlo]. *)
Definition line_transform_polytope (b : Z * Z) (P : Polytope (H := exactZ))
    (_ : transfomation_mode) : Z * Z :=
  scaled_interval b (polytope_points P).

Definition line_polytope_is_empty (P : Polytope (H := exactZ)) : bool :=
  match poly_b P with
  | [hi; nlo] => (hi <? - nlo)%Z
  | _ => false
  end.

(** [G_[2,1] (not (x <= 0))]: a negation under an empty interval. *)
Definition always_never : @STL exactZ line_algebra :=
  @Always exactZ line_algebra 2 1 not_nonpositive.

(** ** The storage of control points (src/ControlPointStorage.cpp) *)

Section ControlPointStorage.
(** [GiNaC::lst], its default value [GiNaC::lst()] and its [is_equal]. *)
Variable lst : Type.
Variable lst_empty : lst.
Variable lst_is_equal : lst -> lst -> bool.

(** The member [_genF_ctrlP], a map from [std::vector<int>] to
    [std::pair<GiNaC::lst, GiNaC::lst>], as the list of its entries; a map
    holds each key once. *)
Definition ControlPointStorage : Type := list (list Z * (lst * lst)).

Definition unique_keys (s : ControlPointStorage) : Prop := NoDup (map fst s).

(** The entry of a key, if the map has one. *)
Fixpoint find_entry (s : ControlPointStorage) (index : list Z) : option (lst * lst) :=
  match s with
  | [] => None
  | (k, v) :: s' =>
      if list_eq_dec Z.eq_dec k index then Some v else find_entry s' index
  end.

(** [_genF_ctrlP[index] = v]. *)
Fixpoint store_entry (s : ControlPointStorage) (index : list Z) (v : lst * lst)
  : ControlPointStorage :=
  match s with
  | [] => [(index, v)]
  | (k, w) :: s' =>
      if list_eq_dec Z.eq_dec k index then (k, v) :: s'
      else (k, w) :: store_entry s' index v
  end.

(** The copy constructor: every entry of [orig] is assigned into the new,
    empty map. *)
Definition ControlPointStorage_copy (orig : ControlPointStorage)
  : ControlPointStorage :=
  fold_left (fun s entry =>
               store_entry s (fst entry) (fst (snd entry), snd (snd entry)))
            orig [].

(** The four readers go through [std::map::at], which throws
    [std::out_of_range] on a key the map does not hold: [None]. *)
Definition get (s : ControlPointStorage) (index : list Z) : option (lst * lst) :=
  find_entry s index.

Definition gen_fun_is_equal_to (s : ControlPointStorage) (index : list Z)
    (genFun : lst) : option bool :=
  option_map (fun entry => lst_is_equal (fst entry) genFun) (find_entry s index).

Definition get_gen_fun (s : ControlPointStorage) (index : list Z) : option lst :=
  option_map fst (find_entry s index).

Definition get_ctrl_pts (s : ControlPointStorage) (index : list Z) : option lst :=
  option_map snd (find_entry s index).

(** [_genF_ctrlP.count(index) > 0]. *)
Definition contains (s : ControlPointStorage) (index : list Z) : bool :=
  match find_entry s index with
  | Some _ => true
  | None => false
  end.

(** [_genF_ctrlP[index]]: [operator[]] inserts a value-initialised pair
    under a key the map does not hold. *)
Definition entry_or_default (s : ControlPointStorage) (index : list Z) : lst * lst :=
  match find_entry s index with
  | Some entry => entry
  | None => (lst_empty, lst_empty)
  end.

(** [_genF_ctrlP[index].first = genFun] and
    [_genF_ctrlP[index].second = ctrlPts]. *)
Definition set_first (s : ControlPointStorage) (index : list Z) (genFun : lst)
  : ControlPointStorage :=
  store_entry s index (genFun, snd (entry_or_default s index)).

Definition set_second (s : ControlPointStorage) (index : list Z) (ctrlPts : lst)
  : ControlPointStorage :=
  store_entry s index (fst (entry_or_default s index), ctrlPts).

End ControlPointStorage.

(** ** Searching a direction up to its length (sapo/src/AutoGenerated.cpp)

    These functions take square roots and absolute values: they are
    modelled on binary64 doubles. *)

(** [getNormalizationCoefficient(v)]. *)
Definition getNormalizationCoefficient (v : list float) : float :=
  (1 / PrimFloat.sqrt (fold_left (fun res x => res + x * x) v 0))%float.

(** [normalize(v)]. *)
Definition normalize (v : list float) : list float :=
  let coeff := getNormalizationCoefficient v in
  map (fun x => (coeff * x)%float) v.

(** [compare(v1, v2, tol)]: the loop returns false at the first [i] with
    [abs(v1[i] - v2[i]) > tol]. *)
Definition compare (v1 v2 : list float) (tol : float) : bool :=
  if negb (length v1 =? length v2) then false
  else forallb (fun p => negb (tol <? PrimFloat.abs (fst p - snd p))%float)
               (combine v1 v2).

(** [rescale(val, v1, v2)]. *)
Definition rescale (val : float) (v1 v2 : list float) : float :=
  (val * getNormalizationCoefficient v1 / getNormalizationCoefficient v2)%float.

(** The loop of [find(M, v)], at index [i]; the tolerance is the double
    nearest to [0.00001]. *)
Fixpoint find_from (i : nat) (M : list (list float)) (v_norm : list float) : Z :=
  match M with
  | [] => (-1)%Z
  | row :: M' =>
      if compare v_norm (normalize row) 0x1.4f8b588e368f1p-17
      then Z.of_nat i
      else find_from (S i) M' v_norm
  end.

(** [find(M, v)] on vectors of doubles: the index of the first row equal
    to [v] up to its length and the tolerance, or -1. *)
Definition find_direction (M : list (list float)) (v : list float) : Z :=
  find_from 0 M (normalize v).

(** An engine whose unions are the lists of their polytopes. *)
Definition list_env : @Collaborators exactZ line_algebra (Z * Z) (list (Polytope (H := exactZ))) :=
  @Build_Collaborators exactZ line_algebra (Z * Z) (list (Polytope (H := exactZ)))
    (intersect_with line_env) (split line_env) (bundle_is_empty line_env)
    (decompose line_env) (to_polytope line_env) (SPLIT_MAGNITUDE_RATIO line_env)
    (ds_transform line_env)
    (* ds_transform_param *)
    (fun b U mode => ds_transform_param line_env b (flat_map polytope_points U) mode)
    (* su_empty, su_of_bundle, su_of_polytope, su_polytopes *)
    [] (fun b => [to_polytope line_env b]) (fun P => [P]) (fun U => U)
    (* su_add_polytope, su_add, su_intersect *)
    (fun U P => U ++ [P]) (@app _) (fun U _ => U)
    (* su_is_empty, su_simplify *)
    (fun U => match U with [] => true | _ => false end) (fun U => U)
    (* polytope_split: two copies of the polytope *)
    (fun P _ => [P; P])
    (* synthesize_atom *)
    (fun _ U _ => U).

(** ** Proof automation *)

(** Unfolds a linear system over the exact integers into arithmetic. *)
Ltac unfold_exact_system :=
  repeat match goal with
  | |- context [interval_maximize ?P ?c] =>
      let v := eval vm_compute in (interval_maximize P c) in
      change (interval_maximize P c) with v
  end;
  cbv [in_polytope stacked_system forallb combine poly_A poly_b fst snd dot map
       vec_opp app dir_matrix offp offm
       d_leb d_add d_mul d_opp d_zero d_of_Z exactZ];
  rewrite ?andb_true_iff, ?Z.leb_le.
(* ================================================================== *)
(** * Part II: lemmas and theorems                                     *)
(* ================================================================== *)

(** ** The order of binary64 floats *)

Lemma lex_lt_trans (e1 e2 e3 : Z) (m1 m2 m3 : positive) :
  match Z.compare e1 e2 with Lt => Lt | Gt => Gt | Eq => Pos.compare_cont Eq m1 m2 end = Lt ->
  match Z.compare e2 e3 with Lt => Lt | Gt => Gt | Eq => Pos.compare_cont Eq m2 m3 end = Lt ->
  match Z.compare e1 e3 with Lt => Lt | Gt => Gt | Eq => Pos.compare_cont Eq m1 m3 end = Lt.
Proof.
  change (Pos.compare_cont Eq) with Pos.compare.
  destruct (Z.compare_spec e1 e2), (Z.compare_spec e2 e3), (Z.compare_spec e1 e3);
    intros H12 H23; try discriminate; try lia; try reflexivity.
  rewrite Pos.compare_lt_iff in *. eapply Pos.lt_trans; eassumption.
Qed.

Lemma lex_gt_trans (e1 e2 e3 : Z) (m1 m2 m3 : positive) :
  match Z.compare e1 e2 with Lt => Gt | Gt => Lt | Eq => CompOpp (Pos.compare_cont Eq m1 m2) end = Lt ->
  match Z.compare e2 e3 with Lt => Gt | Gt => Lt | Eq => CompOpp (Pos.compare_cont Eq m2 m3) end = Lt ->
  match Z.compare e1 e3 with Lt => Gt | Gt => Lt | Eq => CompOpp (Pos.compare_cont Eq m1 m3) end = Lt.
Proof.
  change (Pos.compare_cont Eq) with Pos.compare.
  destruct (Z.compare_spec e1 e2), (Z.compare_spec e2 e3), (Z.compare_spec e1 e3);
    intros H12 H23; try discriminate; try lia; try reflexivity.
  all: destruct (Pos.compare_spec m1 m2), (Pos.compare_spec m2 m3), (Pos.compare_spec m1 m3);
    try discriminate; try lia; try reflexivity.
Qed.

Lemma SFltb_trans (a b c : spec_float) :
  SFltb a b = true -> SFltb b c = true -> SFltb a c = true.
Proof.
  unfold SFltb.
  destruct a as [sa|sa| |sa ma ea], b as [sb|sb| |sb mb eb], c as [sc|sc| |sc mc ec];
    simpl; try discriminate;
    repeat match goal with s : bool |- _ => destruct s end;
    simpl; try discriminate; try reflexivity; intros H1 H2.
  - pose proof (@lex_gt_trans ea eb ec ma mb mc) as T.
    destruct (match (ea ?= eb)%Z with Lt => Gt | Gt => Lt | Eq => CompOpp (Pos.compare_cont Eq ma mb) end);
      try discriminate.
    destruct (match (eb ?= ec)%Z with Lt => Gt | Gt => Lt | Eq => CompOpp (Pos.compare_cont Eq mb mc) end);
      try discriminate.
    now rewrite T.
  - pose proof (@lex_lt_trans ea eb ec ma mb mc) as T.
    destruct (match (ea ?= eb)%Z with Lt => Lt | Gt => Gt | Eq => Pos.compare_cont Eq ma mb end);
      try discriminate.
    destruct (match (eb ?= ec)%Z with Lt => Lt | Gt => Gt | Eq => Pos.compare_cont Eq mb mc end);
      try discriminate.
    now rewrite T.
Qed.

Lemma SFltb_irrefl (a : spec_float) : SFltb a a = false.
Proof.
  unfold SFltb. destruct a as [s|s| |s m e]; simpl; try reflexivity;
    destruct s; try reflexivity;
    rewrite Z.compare_refl, Pos.compare_cont_refl; reflexivity.
Qed.

(** Among numbers (no NaN) the order is total: what is not below is above
    or equal. *)
Lemma SFltb_false_leb (a b : spec_float) :
  a <> S754_nan -> b <> S754_nan -> SFltb a b = false -> SFleb b a = true.
Proof.
  unfold SFltb, SFleb.
  destruct a as [sa|sa| |sa ma ea], b as [sb|sb| |sb mb eb]; simpl;
    try congruence;
    repeat match goal with s : bool |- _ => destruct s end;
    simpl; try congruence; intros _ _.
  - rewrite (Z.compare_antisym ea eb).
    change (Pos.compare_cont Eq) with Pos.compare.
    rewrite (Pos.compare_antisym ma mb).
    destruct (ea ?= eb)%Z; simpl; try congruence.
    destruct (ma ?= mb)%positive; simpl; congruence.
  - rewrite (Z.compare_antisym ea eb).
    change (Pos.compare_cont Eq) with Pos.compare.
    rewrite (Pos.compare_antisym ma mb).
    destruct (ea ?= eb)%Z; simpl; try congruence.
    destruct (ma ?= mb)%positive; simpl; congruence.
Qed.

Lemma float_ltb_trans (a b c : float) :
  (a <? b)%float = true -> (b <? c)%float = true -> (a <? c)%float = true.
Proof. rewrite !FloatAxioms.ltb_spec. apply SFltb_trans. Qed.

Lemma float_ltb_irrefl (a : float) : (a <? a)%float = false.
Proof. rewrite FloatAxioms.ltb_spec. apply SFltb_irrefl. Qed.

Lemma float_is_nan_spec (a : float) :
  PrimFloat.is_nan a = false -> Prim2SF a <> S754_nan.
Proof.
  unfold PrimFloat.is_nan. rewrite FloatAxioms.eqb_spec. intros H E. rewrite E in H.
  discriminate.
Qed.

Lemma float_ltb_false_leb (a b : float) :
  PrimFloat.is_nan a = false -> PrimFloat.is_nan b = false ->
  (a <? b)%float = false -> (b <=? a)%float = true.
Proof.
  intros Ha Hb. rewrite FloatAxioms.ltb_spec, FloatAxioms.leb_spec.
  apply SFltb_false_leb; now apply float_is_nan_spec.
Qed.

(** ** Running maxima *)

Section RunningMax.
Variable A : Type.
Variable lt : A -> A -> bool.
Hypothesis lt_irrefl : forall a, lt a a = false.
Hypothesis lt_trans : forall a b c, lt a b = true -> lt b c = true -> lt a c = true.

Lemma fold_rmax_in (l : list A) (a : A) : In (fold_left (rmax lt) l a) (a :: l).
Proof.
  revert a. induction l as [|x l IH]; intros a; simpl.
  - now left.
  - destruct (IH (rmax lt a x)) as [E|I].
    + unfold rmax in E at 1. destruct (lt a x); auto.
    + auto.
Qed.

Lemma rmax_keeps (a x v : A) : lt a v = false -> lt x v = false -> lt (rmax lt a x) v = false.
Proof. unfold rmax. now destruct (lt a x). Qed.

Lemma rmax_not_below_acc (a x : A) : lt (rmax lt a x) a = false.
Proof.
  unfold rmax. destruct (lt a x) eqn:E; [|apply lt_irrefl].
  destruct (lt x a) eqn:E'; [|reflexivity].
  rewrite <- (lt_irrefl a). symmetry. eapply lt_trans; eassumption.
Qed.

Lemma rmax_not_below_new (a x : A) : lt (rmax lt a x) x = false.
Proof. unfold rmax. destruct (lt a x) eqn:E; [apply lt_irrefl|exact E]. Qed.

Lemma rmax_mono (a x v : A) : lt a v = false -> lt (rmax lt a x) v = false.
Proof.
  unfold rmax. destruct (lt a x) eqn:E; [|trivial]. intros Hv.
  destruct (lt x v) eqn:E'; [|reflexivity].
  rewrite <- Hv. symmetry. eapply lt_trans; eassumption.
Qed.

Lemma fold_rmax_mono (l : list A) (a v : A) :
  lt a v = false -> lt (fold_left (rmax lt) l a) v = false.
Proof.
  revert a. induction l as [|x l IH]; intros a Hv; simpl; [exact Hv|].
  apply IH. now apply rmax_mono.
Qed.

Lemma fold_rmax_upper (l : list A) (a v : A) :
  In v (a :: l) -> lt (fold_left (rmax lt) l a) v = false.
Proof.
  revert a. induction l as [|x l IH]; intros a [E|I]; simpl.
  - subst. apply lt_irrefl.
  - destruct I.
  - subst. apply fold_rmax_mono. apply rmax_not_below_acc.
  - destruct I as [E|I].
    + subst. apply fold_rmax_mono. apply rmax_not_below_new.
    + apply IH. now right.
Qed.

End RunningMax.

(** ** [find_max_coeffs] *)

Lemma max_coeff_step_fold `{Scalar} (Expression : Type)
    (finder : MaxCoeffFinder Expression) (l : list Expression) (acc : MaxCoeffType) :
  mc_p (fold_left (max_coeff_step finder) l acc)
    = fold_left (rmax d_ltb) (map (coeff_eval_p finder) l) (mc_p acc) /\
  mc_m (fold_left (max_coeff_step finder) l acc)
    = fold_left (rmax d_ltb) (map (coeff_eval_m finder) l) (mc_m acc).
Proof.
  revert acc. induction l as [|c l IH]; intros acc; simpl; [split; reflexivity|].
  destruct (IH (max_coeff_step finder acc c)) as [Hp Hm].
  rewrite Hp, Hm. split; reflexivity.
Qed.

(** A coefficient that evaluates to a zero of either sign yields [+0]. *)
Lemma plain_coeff_eval_m_zero (Expression : Type) (evaluate : Expression -> float)
    (e : Expression) :
  (evaluate e =? 0)%float = true ->
  plain_coeff_eval_m (H := binary64) evaluate e = PrimFloat.zero.
Proof.
  intros E. unfold plain_coeff_eval_m.
  change (@d_eqb binary64 (evaluate e) (@d_of_Z binary64 0)) with (evaluate e =? 0)%float.
  now rewrite E.
Qed.

(** [coeff_eval_m] never returns the negative zero. *)
Lemma plain_coeff_eval_m_not_neg_zero (Expression : Type)
    (evaluate : Expression -> float) (e : Expression) :
  Prim2SF (plain_coeff_eval_m (H := binary64) evaluate e) <> S754_zero true.
Proof.
  unfold plain_coeff_eval_m.
  change (@d_eqb binary64 (evaluate e) (@d_of_Z binary64 0)) with (evaluate e =? 0)%float.
  change (@d_opp binary64) with PrimFloat.opp.
  change (@d_of_Z binary64 0) with 0%float.
  destruct (evaluate e =? 0)%float eqn:E; [discriminate|].
  rewrite FloatAxioms.opp_spec. intros Hz.
  rewrite FloatAxioms.eqb_spec in E.
  destruct (Prim2SF (evaluate e)) as [s|s| |s m x]; simpl in Hz; discriminate.
Qed.

(** C9.  The plain [find_max_coeffs] on a non-empty list of coefficients over
    binary64 doubles: [p] is one of the coefficients' values and none of them
    is greater; [m] is one of the negated values, where a value that is zero
    (of either sign) contributes [+0] and any other value [v] contributes
    [-v], and none of them is greater; [m] is never [-0].  When no value is
    a NaN, every value is [<= p] and every negated value is [<= m]. *)
Theorem find_max_coeffs_plain_maxima :
  forall (Expression : Type) (evaluate : Expression -> float)
         (c : Expression) (cs : list Expression),
    let vals := map evaluate (c :: cs) in
    let negs := map (plain_coeff_eval_m (H := binary64) evaluate) (c :: cs) in
    exists r : MaxCoeffType (H := binary64),
      find_max_coeffs (plain_finder (H := binary64) evaluate) (c :: cs) = Some r /\
      (In (mc_p r) vals /\ forall v, In v vals -> (mc_p r <? v)%float = false) /\
      (In (mc_m r) negs /\ forall v, In v negs -> (mc_m r <? v)%float = false) /\
      (forall e, In e (c :: cs) ->
         plain_coeff_eval_m (H := binary64) evaluate e
         = if (evaluate e =? 0)%float then PrimFloat.zero else (- evaluate e)%float) /\
      Prim2SF (mc_m r) <> S754_zero true /\
      ((forall v, In v vals -> PrimFloat.is_nan v = false) ->
         forall v, In v vals -> (v <=? mc_p r)%float = true) /\
      ((forall v, In v negs -> PrimFloat.is_nan v = false) ->
         forall v, In v negs -> (v <=? mc_m r)%float = true).
Proof.
  intros Expression evaluate c cs vals negs.
  eexists. split; [reflexivity|].
  destruct (max_coeff_step_fold (plain_finder (H := binary64) evaluate) cs
              (mkMaxCoeff (coeff_eval_p (plain_finder (H := binary64) evaluate) c)
                          (coeff_eval_m (plain_finder (H := binary64) evaluate) c))) as [Hp Hm].
  rewrite Hp, Hm. simpl mc_p. simpl mc_m.
  pose proof (@fold_rmax_in float PrimFloat.ltb (map evaluate cs) (evaluate c)) as Pin.
  pose proof (@fold_rmax_upper float PrimFloat.ltb float_ltb_irrefl float_ltb_trans
                (map evaluate cs) (evaluate c)) as Pup.
  pose proof (@fold_rmax_in float PrimFloat.ltb
                (map (plain_coeff_eval_m (H := binary64) evaluate) cs)
                (plain_coeff_eval_m (H := binary64) evaluate c)) as Min.
  pose proof (@fold_rmax_upper float PrimFloat.ltb float_ltb_irrefl float_ltb_trans
                (map (plain_coeff_eval_m (H := binary64) evaluate) cs)
                (plain_coeff_eval_m (H := binary64) evaluate c)) as Mup.
  change (coeff_eval_p (plain_finder (H := binary64) evaluate)) with evaluate.
  change (coeff_eval_m (plain_finder (H := binary64) evaluate))
    with (plain_coeff_eval_m (H := binary64) evaluate).
  change (@d_ltb binary64) with PrimFloat.ltb.
  split; [split; [exact Pin|exact Pup]|].
  split; [split; [exact Min|exact Mup]|].
  split; [intros e _; reflexivity|].
  split.
  - change (In (fold_left (rmax PrimFloat.ltb)
                  (map (plain_coeff_eval_m (H := binary64) evaluate) cs)
                  (plain_coeff_eval_m (H := binary64) evaluate c))
               (map (plain_coeff_eval_m (H := binary64) evaluate) (c :: cs))) in Min.
    apply in_map_iff in Min. destruct Min as [e [E _]].
    exact (eq_ind _ (fun x : float => Prim2SF x <> S754_zero true)
             (plain_coeff_eval_m_not_neg_zero evaluate e) _ E).
  - split; intros Hn v Hv; apply float_ltb_false_leb; auto.
Qed.

(** A run on the doubles [2, -0, -3]: [p = 2], [m = 3]; and on the single
    coefficient [+0] the code returns [m = +0], not [-0]. *)
Example find_max_coeffs_run :
  find_max_coeffs (plain_finder (H := binary64) (fun x : float => x)) [2; -0; -3]%float
    = Some (mkMaxCoeff 2%float 3%float) /\
  option_map (fun r => Prim2SF (mc_m r))
    (find_max_coeffs (plain_finder (H := binary64) (fun x : float => x)) [0%float])
    = Some (S754_zero false).
Proof. split; vm_compute; reflexivity. Qed.

(** ** Loops over vectors *)

Lemma bind_Done_r (A : Type) (c : outcome A) : (x <- c ;; Done x) = c.
Proof. now destruct c. Qed.

Lemma mapM_ext (A B : Type) (f g : A -> outcome B) (l : list A) :
  (forall a, In a l -> f a = g a) -> mapM f l = mapM g l.
Proof.
  induction l as [|a l IH]; intros E; simpl; [reflexivity|].
  rewrite (E a) by now left. rewrite IH; [reflexivity|].
  intros b Hb. apply E. now right.
Qed.

Lemma foldM_ext (A S : Type) (f g : S -> A -> outcome S) (l : list A) (s : S) :
  (forall s a, f s a = g s a) -> foldM f l s = foldM g l s.
Proof.
  intros E. revert s. induction l as [|a l IH]; intros s; simpl; [reflexivity|].
  rewrite E. destruct (g s a); simpl; [apply IH|reflexivity].
Qed.

Lemma index_app_here (A : Type) (pre v : list A) (a : A) :
  index (pre ++ a :: v) (length pre) = Done a.
Proof.
  unfold index. rewrite nth_error_app2 by lia. now rewrite Nat.sub_diag.
Qed.

(** Reading a whole vector by its indices gives the vector back. *)
Lemma mapM_index_map_from (A B : Type) (g : A -> B) (v pre : list A) :
  mapM (fun i => d <- index (pre ++ v) i ;; Done (g d)) (seq (length pre) (length v))
  = Done (map g v).
Proof.
  revert pre. induction v as [|a v IH]; intros pre; simpl; [reflexivity|].
  rewrite index_app_here. simpl.
  specialize (IH (pre ++ [a])).
  rewrite <- app_assoc in IH. simpl in IH.
  rewrite length_app in IH. simpl in IH. rewrite Nat.add_1_r in IH.
  rewrite IH. reflexivity.
Qed.

Lemma mapM_index_map (A B : Type) (g : A -> B) (v : list A) :
  mapM (fun i => d <- index v i ;; Done (g d)) (seq 0 (length v)) = Done (map g v).
Proof. exact (mapM_index_map_from g v []). Qed.

Lemma mapM_index_all (A : Type) (v : list A) :
  mapM (index v) (seq 0 (length v)) = Done v.
Proof.
  rewrite <- (map_id v) at 3. rewrite <- (mapM_index_map (fun a => a) v).
  apply mapM_ext. intros i _. now rewrite bind_Done_r.
Qed.

(** A loop whose turns never leave through [exit] does not either. *)
Lemma mapM_no_exit (A B : Type) (f : A -> outcome B) (l : list A) :
  (forall a, f a <> Fail exit_failure) -> mapM f l <> Fail exit_failure.
Proof.
  intros E. induction l as [|a l IH]; simpl; [discriminate|].
  specialize (E a). destruct (f a) as [b|e]; simpl.
  - destruct (mapM f l); simpl; [discriminate|].
    intros X. apply IH. now inversion X.
  - intros X. apply E. now inversion X.
Qed.

Lemma bind_no_exit (A B : Type) (c : outcome A) (k : A -> outcome B) :
  c <> Fail exit_failure -> (forall a, k a <> Fail exit_failure) ->
  bind c k <> Fail exit_failure.
Proof.
  intros Hc Hk. destruct c as [a|f]; simpl; [apply Hk|].
  intros E. apply Hc. now inversion E.
Qed.

Lemma index_no_exit (A : Type) (v : list A) (i : nat) : index v i <> Fail exit_failure.
Proof. unfold index. destruct (nth_error v i); discriminate. Qed.

Lemma index_int_no_exit (A : Type) (v : list A) (i : Z) : index_int v i <> Fail exit_failure.
Proof. unfold index_int. destruct (i <? 0)%Z; [discriminate|apply index_no_exit]. Qed.

Lemma index_int_in_range (A : Type) (v : list A) (idx : Z) (d : A) :
  (0 <= idx < Z.of_nat (length v))%Z ->
  index_int v idx = Done (nth (Z.to_nat idx) v d).
Proof.
  intros R. unfold index_int, index.
  destruct (idx <? 0)%Z eqn:E; [apply Z.ltb_lt in E; lia|].
  rewrite (nth_error_nth' v d) by lia. reflexivity.
Qed.

(** ** The constructor's checks *)

Section BundleFacts.
Context `{Scalar}.

Lemma Bundle_checks_sizes (D : Matrix) (p m : Vector) (T : list (list Z)) :
  Bundle_checks D p m T = true ->
  length D <> 0 /\ length p = length D /\ length m = length D /\ T <> [] /\
  forall row, In row T ->
    length row = match D with [] => 0 | front :: _ => length front end.
Proof.
  unfold Bundle_checks. rewrite !andb_true_iff, negb_true_iff.
  intros [[[[H0 H1] H2] H3] H4].
  apply Nat.eqb_neq in H0. apply Nat.eqb_eq in H1, H2. apply Nat.ltb_lt in H3.
  repeat split; try lia.
  - destruct T; [simpl in H3; lia|discriminate].
  - intros row Hr. rewrite forallb_forall in H4. apply Nat.eqb_eq. now apply H4.
Qed.

(** ** [operator Polytope] *)

Lemma as_polytope_valid (B : Bundle) :
  Bundle_valid B = true -> as_polytope B = Done (stacked_system B).
Proof.
  intros V. apply Bundle_checks_sizes in V. destruct V as (_ & Hp & Hm & _).
  unfold as_polytope, size.
  rewrite mapM_index_all. simpl.
  rewrite <- Hp at 1. rewrite mapM_index_all. simpl.
  rewrite mapM_index_map. simpl.
  rewrite <- Hm. rewrite mapM_index_all. simpl.
  reflexivity.
Qed.

Lemma forallb_combine_nth (A B : Type) (f : A * B -> bool) (l1 : list A) (l2 : list B) :
  forallb f (combine l1 l2) = true <->
  forall i a b, nth_error l1 i = Some a -> nth_error l2 i = Some b -> f (a, b) = true.
Proof.
  revert l2. induction l1 as [|a1 l1 IH]; intros l2; simpl.
  - split; [|reflexivity]. intros _ [|i] a b E; discriminate.
  - destruct l2 as [|b1 l2]; simpl.
    + split; [|reflexivity]. intros _ [|i] a b _ E; discriminate.
    + rewrite andb_true_iff, IH. split.
      * intros [H1 H2] [|i] a b Ea Eb; simpl in *.
        -- now inversion Ea; inversion Eb; subst.
        -- eauto.
      * intros E. split; [exact (E 0 a1 b1 eq_refl eq_refl)|].
        intros i a b Ea Eb. exact (E (S i) a b Ea Eb).
Qed.

Lemma nth_error_map_Some (A B : Type) (f : A -> B) (l : list A) (i : nat) (y : B) :
  nth_error (map f l) i = Some y -> exists x, nth_error l i = Some x /\ y = f x.
Proof.
  rewrite nth_error_map. destruct (nth_error l i) as [x|]; simpl; [|discriminate].
  intros E. inversion E. eauto.
Qed.

Lemma combine_app_same (A B : Type) (l1 l2 : list A) (m1 m2 : list B) :
  length l1 = length m1 ->
  combine (l1 ++ l2) (m1 ++ m2) = combine l1 m1 ++ combine l2 m2.
Proof.
  revert m1. induction l1 as [|a l1 IH]; intros [|b m1] E; simpl in *;
    try discriminate; [reflexivity|].
  f_equal. apply IH. lia.
Qed.

(** The points of [[D; -D] x <= [offp; offm]] are the points that satisfy
    both half-spaces of every direction. *)
Lemma in_stacked_system (B : Bundle) (x : Vector) :
  length (offp B) = length (dir_matrix B) ->
  length (offm B) = length (dir_matrix B) ->
  in_polytope (stacked_system B) x = true <-> in_bundle B x.
Proof.
  intros Hp Hm. unfold in_polytope, stacked_system, in_bundle. simpl.
  rewrite combine_app_same by now rewrite Hp.
  rewrite forallb_app, andb_true_iff, !forallb_combine_nth. split.
  - intros [H1 H2] i d p m Ed Ep Em. split.
    + exact (H1 i d p Ed Ep).
    + apply (H2 i (vec_opp d) m); [|exact Em].
      now apply map_nth_error.
  - intros E. split.
    + intros i d p Ed Ep.
      destruct (nth_error (offm B) i) as [m|] eqn:Em.
      * exact (proj1 (E i d p m Ed Ep Em)).
      * apply nth_error_None in Em.
        assert (i < length (dir_matrix B)) by (apply nth_error_Some; congruence).
        lia.
    + intros i d' m Ed Em.
      apply nth_error_map_Some in Ed. destruct Ed as [d [Ed' ->]].
      destruct (nth_error (offp B) i) as [p|] eqn:Ep.
      * exact (proj2 (E i d p m Ed' Ep Em)).
      * apply nth_error_None in Ep.
        assert (i < length (dir_matrix B)) by (apply nth_error_Some; congruence).
        lia.
Qed.

(** C2, as the code has it.  For every constructed bundle the conversion
    to a polytope returns exactly the system [[D; -D] x <= [offp; offm]],
    with no row for the assumption half-spaces recorded on the bundle, and
    the points of that polytope are the points that satisfy
    [D[i] . x <= offp[i]] and [-D[i] . x <= offm[i]] for every row [i]. *)
Theorem as_polytope_stacks_directions (B : Bundle) :
  Bundle_valid B = true ->
  as_polytope B = Done (stacked_system B) /\
  forall x, in_polytope (stacked_system B) x = true <-> in_bundle B x.
Proof.
  intros V. split; [now apply as_polytope_valid|].
  apply Bundle_checks_sizes in V. destruct V as (_ & Hp & Hm & _).
  intros x. now apply in_stacked_system.
Qed.

(** ** [getParallelotope] *)

Lemma mapM_Done_map (A B : Type) (g : A -> B) (l : list A) :
  mapM (fun a => Done (g a)) l = Done (map g l).
Proof. induction l as [|a l IH]; simpl; [reflexivity|]. now rewrite IH. Qed.

Lemma mapM_index_bind_from (A B : Type) (k : A -> outcome B) (v pre : list A) :
  mapM (fun i => a <- index (pre ++ v) i ;; k a) (seq (length pre) (length v))
  = mapM k v.
Proof.
  revert pre. induction v as [|a v IH]; intros pre; simpl; [reflexivity|].
  rewrite index_app_here. simpl.
  specialize (IH (pre ++ [a])).
  rewrite <- app_assoc in IH. simpl in IH.
  rewrite length_app in IH. simpl in IH. rewrite Nat.add_1_r in IH.
  now rewrite IH.
Qed.

Lemma getParallelotope_selected (B : Bundle) (i : nat) (row : list Z) :
  Bundle_valid B = true ->
  nth_error (t_matrix B) i = Some row ->
  (forall idx, In idx row -> (0 <= idx < Z.of_nat (size B))%Z) ->
  getParallelotope B i
  = Done (mkParallelotope
            (map (fun idx => nth (Z.to_nat idx) (dir_matrix B) []) row)
            (map (fun idx => nth (Z.to_nat idx) (offm B) d_zero) row)
            (map (fun idx => nth (Z.to_nat idx) (offp B) d_zero) row)).
Proof.
  intros V Hrow Hidx. unfold getParallelotope.
  assert (Hi : i < length (t_matrix B)) by (apply nth_error_Some; congruence).
  destruct (length (t_matrix B) <? i) eqn:G; [apply Nat.ltb_lt in G; lia|].
  unfold index at 1. rewrite Hrow. simpl.
  apply Bundle_checks_sizes in V. destruct V as (_ & Hp & Hm & _ & Hrows).
  assert (Hdim : dim B = length row).
  { unfold dim. symmetry. apply Hrows. eapply nth_error_In; eauto. }
  rewrite Hdim.
  rewrite (mapM_index_bind_from _ row []).
  erewrite mapM_ext.
  2:{ intros idx Hin. specialize (Hidx idx Hin). unfold size in Hidx.
      rewrite (index_int_in_range (dir_matrix B) [] Hidx). simpl.
      rewrite (index_int_in_range (offp B) d_zero) by lia. simpl.
      rewrite (index_int_in_range (offm B) d_zero) by lia. simpl.
      reflexivity. }
  rewrite (mapM_Done_map
             (fun idx => (nth (Z.to_nat idx) (dir_matrix B) [],
                          nth (Z.to_nat idx) (offm B) d_zero,
                          nth (Z.to_nat idx) (offp B) d_zero))).
  simpl. rewrite !map_map. reflexivity.
Qed.

(** C10.  [getParallelotope(i)] leaves through [exit] exactly when [i] is
    strictly greater than the number of template rows; the index equal to
    that number passes the guard (and then reads [t_matrix[i]] outside the
    vector); for a constructed bundle and [i] below the number of rows, it
    returns the parallelotope whose template matrix is made of the
    directions that row [i] selects, with the matching [offm] entries as
    lower bounds and [offp] entries as upper bounds. *)
Theorem getParallelotope_guard (B : Bundle) (i : nat) :
  (getParallelotope B i = Fail exit_failure <-> length (t_matrix B) < i) /\
  (i = length (t_matrix B) -> getParallelotope B i = Fail out_of_range) /\
  (forall row,
      Bundle_valid B = true ->
      nth_error (t_matrix B) i = Some row ->
      (forall idx, In idx row -> (0 <= idx < Z.of_nat (size B))%Z) ->
      getParallelotope B i
      = Done (mkParallelotope
                (map (fun idx => nth (Z.to_nat idx) (dir_matrix B) []) row)
                (map (fun idx => nth (Z.to_nat idx) (offm B) d_zero) row)
                (map (fun idx => nth (Z.to_nat idx) (offp B) d_zero) row))).
Proof.
  split; [|split].
  - unfold getParallelotope.
    destruct (length (t_matrix B) <? i) eqn:G.
    + apply Nat.ltb_lt in G. tauto.
    + apply Nat.ltb_ge in G. split; [|lia]. intros E. exfalso. revert E.
      destruct (index (t_matrix B) i) as [row|f] eqn:Er; simpl.
      * match goal with |- context [mapM ?f ?l] =>
          pose proof (@mapM_no_exit _ _ f l) as N; destruct (mapM f l) as [fs|f0] end;
          simpl; [discriminate|].
        intros E. assert (f0 = exit_failure) by now inversion E. subst f0.
        apply N; [|reflexivity]. intros j.
        apply bind_no_exit; [apply index_no_exit|intros idx].
        apply bind_no_exit; [apply index_int_no_exit|intros d].
        apply bind_no_exit; [apply index_int_no_exit|intros u].
        apply bind_no_exit; [apply index_int_no_exit|intros l].
        discriminate.
      * intros E. assert (f = exit_failure) by now inversion E. subst f.
        exact (index_no_exit _ _ Er).
  - intros ->. unfold getParallelotope. rewrite Nat.ltb_irrefl.
    unfold index. replace (nth_error (t_matrix B) (length (t_matrix B))) with (@None (list Z)).
    + reflexivity.
    + symmetry. apply nth_error_None. lia.
  - intros row. apply getParallelotope_selected.
Qed.

(** ** [get_canonical] *)

Lemma Bundle_checks_offsets (D : Matrix) (p m p' m' : Vector) (T : list (list Z)) :
  Bundle_checks D p m T = true ->
  length p' = length D -> length m' = length D ->
  Bundle_checks D p' m' T = true.
Proof.
  unfold Bundle_checks. rewrite !andb_true_iff.
  intros [[[[H0 H1] H2] H3] H4] Ep Em.
  rewrite Ep, Em, Nat.eqb_refl. auto.
Qed.

(** The bundle [get_canonical] builds: the offsets are the answers of the
    linear-programming call on the polytope of [B]. *)
Lemma get_canonical_valid (maximize : Polytope -> Vector -> double) (B : Bundle) :
  Bundle_valid B = true ->
  get_canonical maximize B
  = Done (mkBundle (dir_matrix B)
            (map (maximize (stacked_system B)) (dir_matrix B))
            (map (fun d => maximize (stacked_system B) (vec_opp d)) (dir_matrix B))
            (t_matrix B) [] []).
Proof.
  intros V. unfold get_canonical. rewrite (as_polytope_valid B V). simpl.
  unfold size. rewrite !mapM_index_map. simpl.
  unfold Bundle_new.
  rewrite (@Bundle_checks_offsets _ (offp B) (offm B)); auto using length_map.
Qed.

Lemma is_maximum_unique (P P' : Polytope) (c : Vector) (v v' : double) :
  ExactOrder H ->
  (forall x, in_polytope P x = true <-> in_polytope P' x = true) ->
  is_maximum P c v -> is_maximum P' c v' -> v = v'.
Proof.
  intros O Same [[x [Hx Ex]] Ub] [[x' [Hx' Ex']] Ub'].
  apply (leb_antisym O).
  - rewrite <- Ex. apply Ub'. now apply Same.
  - rewrite <- Ex'. apply Ub. now apply Same.
Qed.

(** C3.  With an exact order on the scalars and a linear-programming call
    that answers with the maximum on the polytopes of [B] and of its
    canonical form, [get_canonical] returns a bundle with the direction and
    template matrices of [B] whose offsets of row [i] are
    [max (D[i] . x : x in B)] and [max (-D[i] . x : x in B)]; the result
    contains every point of [B]; canonicalising it again returns it
    unchanged. *)
Theorem get_canonical_maxima (maximize : Polytope -> Vector -> double) (B : Bundle) :
  ExactOrder H ->
  Bundle_valid B = true ->
  lp_exact_on maximize B ->
  (forall B', get_canonical maximize B = Done B' -> lp_exact_on maximize B') ->
  exists B',
    get_canonical maximize B = Done B' /\
    dir_matrix B' = dir_matrix B /\
    t_matrix B' = t_matrix B /\
    (forall i d, nth_error (dir_matrix B) i = Some d ->
       exists p m, nth_error (offp B') i = Some p /\
                   nth_error (offm B') i = Some m /\
                   is_bundle_maximum B d p /\
                   is_bundle_maximum B (vec_opp d) m) /\
    (forall x, in_bundle B x -> in_bundle B' x) /\
    get_canonical maximize B' = Done B'.
Proof.
  intros O V LP LP'.
  pose proof (get_canonical_valid maximize B V) as EC.
  specialize (LP' _ EC).
  set (P := stacked_system B) in *.
  set (B' := mkBundle (dir_matrix B) (map (maximize P) (dir_matrix B))
               (map (fun d => maximize P (vec_opp d)) (dir_matrix B))
               (t_matrix B) [] []) in *.
  pose proof (Bundle_checks_sizes _ _ _ _ V) as (_ & Hp & Hm & _).
  assert (V' : Bundle_valid B' = true).
  { unfold Bundle_valid, B'. simpl.
    apply (@Bundle_checks_offsets _ (offp B) (offm B)); auto using length_map. }
  assert (InP : forall x, in_polytope P x = true <-> in_bundle B x)
    by (intros x; now apply in_stacked_system).
  assert (InP' : forall x, in_polytope (stacked_system B') x = true <-> in_bundle B' x)
    by (intros x; apply in_stacked_system; unfold B'; simpl; apply length_map).
  assert (Bmax : forall c v, is_maximum P c v -> is_bundle_maximum B c v).
  { intros c v [[x [Hx Ex]] Ub]. split.
    - exists x. split; [now apply InP|exact Ex].
    - intros y Hy. apply Ub. now apply InP. }
  assert (Sub : forall x, in_bundle B x -> in_bundle B' x).
  { intros x Hx i d p m Ed Ep Em. unfold B' in Ed, Ep, Em. simpl in Ed, Ep, Em.
    apply nth_error_map_Some in Ep. destruct Ep as [d1 [Ed1 ->]].
    apply nth_error_map_Some in Em. destruct Em as [d2 [Ed2 ->]].
    assert (d1 = d) by congruence. assert (d2 = d) by congruence. subst d1 d2.
    destruct (LP d (nth_error_In _ _ Ed)) as [[_ Ub1] [_ Ub2]].
    split; [apply Ub1|apply Ub2]; now apply InP. }
  assert (Sup : forall x, in_bundle B' x -> in_bundle B x).
  { intros x Hx i d p m Ed Ep Em.
    destruct (LP d (nth_error_In _ _ Ed)) as [[[x1 [Hx1 E1]] _] [[x2 [Hx2 E2]] _]].
    specialize (Hx i d (maximize P d) (maximize P (vec_opp d))).
    destruct Hx as [L1 L2]; unfold B'; simpl.
    - exact Ed.
    - now apply map_nth_error.
    - exact (map_nth_error (fun d => maximize P (vec_opp d)) _ _ Ed).
    - apply InP in Hx1, Hx2.
      destruct (Hx1 i d p m Ed Ep Em) as [A1 _].
      destruct (Hx2 i d p m Ed Ep Em) as [_ A2].
      rewrite E1 in A1. rewrite E2 in A2.
      split; eapply (leb_trans O); eauto. }
  assert (Same : forall x, in_polytope P x = true <-> in_polytope (stacked_system B') x = true).
  { intros x. rewrite InP, InP'. split; auto. }
  exists B'. split; [exact EC|]. split; [reflexivity|]. split; [reflexivity|].
  split; [|split; [exact Sub|]].
  - intros i d Ed. exists (maximize P d), (maximize P (vec_opp d)).
    destruct (LP d (nth_error_In _ _ Ed)) as [M1 M2].
    split; [unfold B'; simpl; now apply map_nth_error|].
    split; [exact (map_nth_error (fun d => maximize P (vec_opp d)) _ _ Ed)|].
    split; now apply Bmax.
  - rewrite (get_canonical_valid maximize B' V').
    assert (ED : dir_matrix B' = dir_matrix B) by reflexivity.
    transitivity (Done (mkBundle (dir_matrix B) (map (maximize P) (dir_matrix B))
                          (map (fun d => maximize P (vec_opp d)) (dir_matrix B))
                          (t_matrix B) [] [])); [|reflexivity].
    change (dir_matrix B') with (dir_matrix B).
    change (t_matrix B') with (t_matrix B).
    f_equal. f_equal.
    + apply map_ext_in. intros d Hd.
      destruct (LP d Hd) as [M1 _]. rewrite <- ED in Hd.
      destruct (LP' d Hd) as [M1' _].
      symmetry. exact (is_maximum_unique O Same M1 M1').
    + apply map_ext_in. intros d Hd.
      destruct (LP d Hd) as [_ M2]. rewrite <- ED in Hd.
      destruct (LP' d Hd) as [_ M2'].
      symmetry. exact (is_maximum_unique O Same M2 M2').
Qed.

End BundleFacts.

(** The recorded assumption [x <= 0] is in no row of the polytope the
    conversion returns, and the point [x = 1] of that polytope violates it. *)
Lemma as_polytope_omits_assumptions :
  as_polytope bundle_with_assumption
    <> Done (stacked_system_with_assumptions bundle_with_assumption) /\
  exists P, as_polytope bundle_with_assumption = Done P /\
            in_polytope P [1%float] = true /\
            in_assumptions bundle_with_assumption [1%float] = false.
Proof.
  split.
  - vm_compute. discriminate.
  - eexists. split; [vm_compute; reflexivity|]. split; vm_compute; reflexivity.
Qed.

Lemma as_polytope_stacks_directions_witness :
  Bundle_valid bundle_with_assumption = true /\
  as_polytope bundle_with_assumption = Done (stacked_system bundle_with_assumption).
Proof.
  split; [reflexivity|].
  exact (proj1 (as_polytope_stacks_directions bundle_with_assumption eq_refl)).
Defined.

Lemma getParallelotope_guard_witness :
  getParallelotope bundle_two_directions 0
  = Done (mkParallelotope [[1%float]] [0%float] [1%float]).
Proof.
  refine (proj2 (proj2 (getParallelotope_guard bundle_two_directions 0))
            [0%Z] eq_refl eq_refl _).
  intros idx [<-|[]]. vm_compute. split; [discriminate|reflexivity].
Defined.

(** ** The exact instance *)

Lemma exactZ_order : ExactOrder exactZ.
Proof.
  constructor; simpl; unfold d_zero; simpl; intros.
  - apply Z.leb_refl.
  - apply Z.leb_le in H, H0. apply Z.leb_le. lia.
  - apply Z.leb_le in H, H0. lia.
  - apply Z.leb_gt in H. apply Z.leb_le. lia.
  - destruct (a <=? 0)%Z eqn:E; simpl.
    + apply Z.leb_le in E. apply Z.leb_gt. lia.
    + apply Z.leb_gt in E. apply Z.leb_le. lia.
  - reflexivity.
Qed.

Lemma interval_lp_exact (p0 p1 : Z) :
  (2 <= p0)%Z -> (p1 = 4)%Z ->
  lp_exact_on interval_maximize
    (@mkBundle exactZ [[1%Z]; [2%Z]] [p0; p1] [0%Z; 0%Z] [[0%Z]] [] []).
Proof.
  intros H0 ->. intros d [<-|[<-|[]]]; split; split.
  all: try (intros [|x0 xs]; unfold_exact_system; lia).
  - exists [2%Z]. unfold_exact_system. lia.
  - exists [0%Z]. unfold_exact_system. lia.
  - exists [2%Z]. unfold_exact_system. lia.
  - exists [0%Z]. unfold_exact_system. lia.
Qed.

Lemma get_canonical_maxima_witness :
  exists B',
    get_canonical interval_maximize interval_bundle = Done B' /\
    dir_matrix B' = dir_matrix interval_bundle /\
    t_matrix B' = t_matrix interval_bundle /\
    (forall i d, nth_error (dir_matrix interval_bundle) i = Some d ->
       exists p m, nth_error (offp B') i = Some p /\
                   nth_error (offm B') i = Some m /\
                   is_bundle_maximum interval_bundle d p /\
                   is_bundle_maximum interval_bundle (vec_opp d) m) /\
    (forall x, in_bundle interval_bundle x -> in_bundle B' x) /\
    get_canonical interval_maximize B' = Done B'.
Proof.
  apply (@get_canonical_maxima exactZ interval_maximize interval_bundle exactZ_order eq_refl).
  - apply interval_lp_exact; [lia|reflexivity].
  - intros B' E. vm_compute in E. inversion E; subst B'.
    apply interval_lp_exact; [lia|reflexivity].
Defined.

(** On the sample interval the canonical offsets are [2] and [4] above,
    [0] and [0] below. *)
Example get_canonical_interval :
  get_canonical interval_maximize interval_bundle
  = Done (@mkBundle exactZ [[1%Z]; [2%Z]] [2%Z; 4%Z] [0%Z; 0%Z] [[0%Z]] [] []).
Proof. reflexivity. Qed.

(** ** Loops and assignments *)

Lemma foldM_app (A S : Type) (f : S -> A -> outcome S) (l1 l2 : list A) (s : S) :
  foldM f (l1 ++ l2) s = (s' <- foldM f l1 s ;; foldM f l2 s').
Proof.
  revert s. induction l1 as [|a l1 IH]; intros s; simpl; [reflexivity|].
  destruct (f s a); simpl; [apply IH|reflexivity].
Qed.

Lemma index_Done (A : Type) (v : list A) (i : nat) (a : A) :
  nth_error v i = Some a -> index v i = Done a.
Proof. unfold index. now intros ->. Qed.

Lemma index_Fail (A : Type) (v : list A) (i : nat) :
  length v <= i -> index v i = Fail out_of_range.
Proof. intros L. unfold index. now rewrite (proj2 (nth_error_None v i) L). Qed.

Lemma assign_spec (A : Type) (v : list A) (i : nat) (x : A) :
  i < length v ->
  exists v', assign v i x = Done v' /\ length v' = length v /\
             nth_error v' i = Some x /\
             (forall j, j <> i -> nth_error v' j = nth_error v j).
Proof.
  revert i. induction v as [|a v IH]; intros [|i] L; simpl in *; try lia.
  - exists (x :: v). repeat split; try reflexivity.
    intros [|j] Hj; [congruence|reflexivity].
  - destruct (IH i ltac:(lia)) as (v' & -> & Len & Hi & Ho). simpl.
    exists (a :: v'). split; [reflexivity|]. split; [simpl; lia|].
    split; [exact Hi|]. intros [|j] Hj; simpl; [reflexivity|]. apply Ho. lia.
Qed.

Lemma assign_Fail (A : Type) (v : list A) (i : nat) (x : A) :
  length v <= i -> assign v i x = Fail out_of_range.
Proof.
  revert i. induction v as [|a v IH]; intros [|i] L; simpl in *; try reflexivity; try lia.
  now rewrite IH by lia.
Qed.

Lemma foldM_preserves (A S : Type) (Inv : S -> Prop) (f : S -> A -> outcome S)
    (l : list A) :
  (forall s a s', In a l -> Inv s -> f s a = Done s' -> Inv s') ->
  forall s s', Inv s -> foldM f l s = Done s' -> Inv s'.
Proof.
  induction l as [|a l IH]; intros Step s s' I E; simpl in E.
  - now injection E as <-.
  - destruct (f s a) as [s1|] eqn:E1; simpl in E; [|discriminate].
    apply (IH (fun s a s' Ia => Step s a s' (or_intror Ia)) s1 s'); [|exact E].
    exact (Step s a s1 (or_introl eq_refl) I E1).
Qed.

Lemma assign_other (A : Type) (v v' : list A) (i j : nat) (x : A) :
  assign v i x = Done v' -> j <> i -> nth_error v' j = nth_error v j.
Proof.
  intros E N. destruct (Nat.lt_ge_cases i (length v)) as [L|L].
  - destruct (assign_spec v x L) as (v'' & E' & _ & _ & O).
    rewrite E in E'. injection E' as <-. now apply O.
  - rewrite assign_Fail in E by exact L. discriminate.
Qed.

(** ** [transform] *)

Section TransformFacts.
Context `{Scalar}.
Variable Expression : Type.
Variable bern_coeffs : Parallelotope -> Vector -> list Expression.
Variable max_finder : MaxCoeffFinder Expression.
Variable maximize : Polytope -> Vector -> double.

Lemma Bundle_new_fields (D : Matrix) (p m : Vector) (T : list (list Z)) (B : Bundle) :
  Bundle_new D p m T = Done B ->
  dir_matrix B = D /\ t_matrix B = T /\ offp B = p /\ offm B = m.
Proof.
  unfold Bundle_new. destruct (Bundle_checks D p m T); [|discriminate].
  intros E. inversion E. auto.
Qed.

Lemma get_canonical_fields (B B' : Bundle) :
  get_canonical maximize B = Done B' ->
  dir_matrix B' = dir_matrix B /\ t_matrix B' = t_matrix B.
Proof.
  unfold get_canonical.
  destruct (as_polytope B); simpl; [|discriminate].
  destruct (mapM _ _); simpl; [|discriminate].
  destruct (mapM _ _); simpl; [|discriminate].
  intros E. apply Bundle_new_fields in E. tauto.
Qed.

Lemma minimizeCoeffs_as_specified (mode : transfomation_mode) (B : Bundle)
    coeffs (i : nat) :
  minimizeCoeffs bern_coeffs max_finder (mode_value mode) B coeffs i
  = minimizeCoeffs_spec bern_coeffs max_finder mode B coeffs i.
Proof.
  unfold minimizeCoeffs, minimizeCoeffs_spec.
  destruct (getParallelotope B i) as [P|]; simpl; [|reflexivity].
  destruct (index (t_matrix B) i) as [row|]; simpl; [|reflexivity].
  destruct mode; simpl.
  - apply foldM_ext. reflexivity.
  - apply foldM_ext. intros s j.
    destruct (index row j) as [idx|]; simpl; [|reflexivity].
    now destruct (idx <? 0)%Z.
Qed.

Lemma transform_as_specified (mode : transfomation_mode) (B : Bundle) :
  transform bern_coeffs max_finder maximize mode B
  = transform_spec bern_coeffs max_finder maximize mode B.
Proof.
  unfold transform, transform_int, transform_coeffs, transform_spec.
  rewrite (foldM_ext _ _ _ _ (minimizeCoeffs_as_specified mode B)).
  now destruct mode.
Qed.

Lemma transform_keeps_matrices (mode : transfomation_mode) (B B' : Bundle) :
  transform bern_coeffs max_finder maximize mode B = Done B' ->
  dir_matrix B' = dir_matrix B /\ t_matrix B' = t_matrix B.
Proof.
  unfold transform, transform_int.
  destruct (transform_coeffs _ _ _ _) as [coeffs|]; simpl; [|discriminate].
  destruct (Bundle_new _ _ _ _) as [res|] eqn:En; simpl; [|discriminate].
  apply Bundle_new_fields in En. destruct En as (ED & ET & _).
  destruct (mode_value mode =? 0)%Z.
  - intros E. apply get_canonical_fields in E. rewrite ED, ET in E. exact E.
  - intros E. inversion E. subst. auto.
Qed.

Lemma bound_direction_lengths (B : Bundle) (P : Parallelotope) coeffs coeffs'
    (dir_b : nat) :
  bound_direction bern_coeffs max_finder B P coeffs dir_b = Done coeffs' ->
  length (fst coeffs') = length (fst coeffs) /\
  length (snd coeffs') = length (snd coeffs).
Proof.
  intros E. unfold bound_direction in E.
  destruct (index (dir_matrix B) dir_b); simpl in E; [|discriminate].
  destruct (find_max_coeffs _ _) as [mc|]; [|discriminate].
  destruct (index (fst coeffs) dir_b) as [tp|]; simpl in E; [|discriminate].
  destruct (assign (fst coeffs) dir_b _) as [tp'|] eqn:Ap; simpl in E; [|discriminate].
  destruct (index (snd coeffs) dir_b) as [tm|]; simpl in E; [|discriminate].
  destruct (assign (snd coeffs) dir_b _) as [tm'|] eqn:Am; simpl in E; [|discriminate].
  injection E as <-. simpl. split.
  - destruct (Nat.lt_ge_cases dir_b (length (fst coeffs))) as [L|L].
    + destruct (assign_spec (fst coeffs) (minCoeffType_update tp (mc_p mc)) L)
        as (v & Av & Lv & _).
      rewrite Ap in Av. injection Av as <-. exact Lv.
    + rewrite assign_Fail in Ap by exact L. discriminate.
  - destruct (Nat.lt_ge_cases dir_b (length (snd coeffs))) as [L|L].
    + destruct (assign_spec (snd coeffs) (minCoeffType_update tm (mc_m mc)) L)
        as (v & Av & Lv & _).
      rewrite Am in Av. injection Av as <-. exact Lv.
    + rewrite assign_Fail in Am by exact L. discriminate.
Qed.

(** The coefficient vectors keep the length they start with, the number of
    directions. *)
Lemma transform_coeffs_lengths (B : Bundle) (mode : Z) coeffs :
  transform_coeffs bern_coeffs max_finder mode B = Done coeffs ->
  length (fst coeffs) = size B /\ length (snd coeffs) = size B.
Proof.
  intros E. unfold transform_coeffs in E.
  refine (@foldM_preserves _ _
            (fun c => length (fst c) = size B /\ length (snd c) = size B)
            _ _ _ _ coeffs _ E).
  - intros s i s' _ Ls Es. unfold minimizeCoeffs in Es.
    destruct (getParallelotope B i) as [P|]; simpl in Es; [|discriminate].
    destruct (index (t_matrix B) i) as [row|]; simpl in Es; [|discriminate].
    refine (@foldM_preserves _ _
              (fun c => length (fst c) = size B /\ length (snd c) = size B)
              _ _ _ s s' Ls Es).
    intros c k c' _ [Lp Lm] Ec.
    destruct (mode =? 0)%Z.
    + destruct (index row k) as [idx|]; simpl in Ec; [|discriminate].
      destruct (idx <? 0)%Z; simpl in Ec; [discriminate|].
      apply bound_direction_lengths in Ec. destruct Ec as [-> ->]. now split.
    + simpl in Ec.
      apply bound_direction_lengths in Ec. destruct Ec as [-> ->]. now split.
  - simpl. now rewrite !repeat_length.
Qed.

End TransformFacts.

(** *** The coefficients the two modes leave *)

Lemma foldM_seq_invariant (S : Type) (Inv : nat -> S -> Prop)
    (f : S -> nat -> outcome S) (n : nat) :
  (forall k s s', k < n -> Inv k s -> f s k = Done s' -> Inv (Datatypes.S k) s') ->
  forall s s', Inv 0 s -> foldM f (seq 0 n) s = Done s' -> Inv n s'.
Proof.
  induction n as [|n IH]; intros Step s s' I E.
  - simpl in E. now injection E as <-.
  - rewrite seq_S, foldM_app in E. simpl in E.
    destruct (foldM f (seq 0 n) s) as [s1|] eqn:E1; simpl in E; [|discriminate].
    destruct (f s1 n) as [s2|] eqn:E2; simpl in E; [|discriminate].
    injection E as <-.
    apply (Step n s1 s2); [lia| |exact E2].
    apply (IH (fun k s s' L => Step k s s' (Nat.lt_lt_succ_r _ _ L)) s s1 I E1).
Qed.

Section TransformBounds.
Context `{Scalar}.
Hypothesis ltb_irrefl : forall a : double, d_ltb a a = false.
Hypothesis ltb_trans : forall a b c : double,
    d_ltb a b = true -> d_ltb b c = true -> d_ltb a c = true.
Variable Expression : Type.
Variable bern_coeffs : Parallelotope -> Vector -> list Expression.
Variable max_finder : MaxCoeffFinder Expression.

Local Abbreviation bounded := (bounded_via bern_coeffs max_finder).
Local Abbreviation bound_of := (template_bound bern_coeffs max_finder).

(** Every direction [j] has its two coefficients, bounded via the templates
    [templates j]. *)
Local Abbreviation coeffs_bounded B templates :=
  (fun coeffs : list double * list double =>
     length (fst coeffs) = size B /\ length (snd coeffs) = size B /\
     forall j p m,
       nth_error (fst coeffs) j = Some p -> nth_error (snd coeffs) j = Some m ->
       bounded B (templates j) j p m).

Lemma update_not_above (p x : double) :
  d_gtb (minCoeffType_update p x) x = false.
Proof.
  unfold minCoeffType_update, d_gtb.
  destruct (d_ltb x p) eqn:E; [apply ltb_irrefl|exact E].
Qed.

Lemma update_stays_below (p x y : double) :
  d_gtb p y = false -> d_gtb (minCoeffType_update p x) y = false.
Proof.
  unfold minCoeffType_update, d_gtb. intros L.
  destruct (d_ltb x p) eqn:E; [|exact L].
  destruct (d_ltb y x) eqn:E'; [|reflexivity].
  now rewrite (ltb_trans _ _ _ E' E) in L.
Qed.

Lemma update_cases (p x : double) :
  minCoeffType_update p x = p \/ minCoeffType_update p x = x.
Proof. unfold minCoeffType_update. destruct (d_gtb p x); auto. Qed.

Lemma bounded_via_ext (B : Bundle) (S S' : nat -> Prop) (j : nat) (p m : double) :
  (forall i, S i <-> S' i) -> bounded B S j p m -> bounded B S' j p m.
Proof.
  intros Eq (Lo & Hp & Hm). split; [|split].
  - intros i Si. apply Lo, Eq, Si.
  - destruct Hp as [->|(i & mc & Si & T & ->)]; [now left|].
    right. exists i, mc. split; [apply Eq, Si|split; [exact T|reflexivity]].
  - destruct Hm as [->|(i & mc & Si & T & ->)]; [now left|].
    right. exists i, mc. split; [apply Eq, Si|split; [exact T|reflexivity]].
Qed.

Lemma bounded_via_update (B : Bundle) (S : nat -> Prop) (i j : nat)
    (p m : double) (mc : MaxCoeffType) :
  bound_of B i j mc -> bounded B S j p m ->
  bounded B (fun i' => S i' \/ i' = i) j
          (minCoeffType_update p (mc_p mc)) (minCoeffType_update m (mc_m mc)).
Proof.
  intros T (Lo & Hp & Hm). split; [|split].
  - intros i' [Si| ->].
    + destruct (Lo i' Si) as (mc' & T' & Lp & Lm).
      exists mc'. split; [exact T'|]. split; now apply update_stays_below.
    + exists mc. split; [exact T|]. split; apply update_not_above.
  - destruct (update_cases p (mc_p mc)) as [-> | ->].
    + destruct Hp as [->|(i' & mc' & Si & T' & ->)]; [now left|].
      right. exists i', mc'. auto.
    + right. exists i, mc. auto.
  - destruct (update_cases m (mc_m mc)) as [-> | ->].
    + destruct Hm as [->|(i' & mc' & Si & T' & ->)]; [now left|].
      right. exists i', mc'. auto.
    + right. exists i, mc. auto.
Qed.

Lemma coeffs_bounded_ext (B : Bundle) (S S' : nat -> nat -> Prop) coeffs :
  (forall j i, j < size B -> (S j i <-> S' j i)) ->
  coeffs_bounded B S coeffs -> coeffs_bounded B S' coeffs.
Proof.
  intros Eq (Lp & Lm & I). split; [exact Lp|]. split; [exact Lm|].
  intros j p m Ep Em. apply (@bounded_via_ext B (S j)).
  - intros i. apply Eq. rewrite <- Lp. apply nth_error_Some. congruence.
  - now apply I.
Qed.

(** One call of the loop body for the direction [dir_b], over the
    parallelotope of template [i]. *)
Lemma bound_direction_step (B : Bundle) (P : Parallelotope) (i dir_b : nat)
    (S : nat -> nat -> Prop) coeffs coeffs' :
  getParallelotope B i = Done P ->
  bound_direction bern_coeffs max_finder B P coeffs dir_b = Done coeffs' ->
  coeffs_bounded B S coeffs ->
  coeffs_bounded B (fun j i' => S j i' \/ (j = dir_b /\ i' = i)) coeffs'.
Proof.
  intros EP E (Lp & Lm & I). unfold bound_direction in E.
  destruct (index (dir_matrix B) dir_b) as [d|] eqn:Ed; simpl in E; [|discriminate].
  destruct (find_max_coeffs _ _) as [mc|] eqn:Emc; [|discriminate].
  destruct (index (fst coeffs) dir_b) as [tp|] eqn:Etp; simpl in E; [|discriminate].
  destruct (assign (fst coeffs) dir_b _) as [tp'|] eqn:Ap; simpl in E; [|discriminate].
  destruct (index (snd coeffs) dir_b) as [tm|] eqn:Etm; simpl in E; [|discriminate].
  destruct (assign (snd coeffs) dir_b _) as [tm'|] eqn:Am; simpl in E; [|discriminate].
  injection E as <-. simpl.
  unfold index in Ed, Etp, Etm.
  destruct (nth_error (dir_matrix B) dir_b) as [d0|] eqn:Nd; [|discriminate].
  injection Ed as ->.
  destruct (nth_error (fst coeffs) dir_b) as [tp0|] eqn:Np; [|discriminate].
  injection Etp as ->.
  destruct (nth_error (snd coeffs) dir_b) as [tm0|] eqn:Nm; [|discriminate].
  injection Etm as ->.
  assert (dir_b < length (fst coeffs)) as Bp by (apply nth_error_Some; congruence).
  assert (dir_b < length (snd coeffs)) as Bm by (apply nth_error_Some; congruence).
  destruct (assign_spec (fst coeffs) (minCoeffType_update tp (mc_p mc)) Bp)
    as (vp & Avp & Lvp & Hvp & Ovp).
  destruct (assign_spec (snd coeffs) (minCoeffType_update tm (mc_m mc)) Bm)
    as (vm & Avm & Lvm & Hvm & Ovm).
  rewrite Ap in Avp. injection Avp as <-.
  rewrite Am in Avm. injection Avm as <-.
  split; [congruence|]. split; [congruence|].
  intros j p m Ep Em. destruct (Nat.eq_dec j dir_b) as [->|N].
  - rewrite Hvp in Ep. injection Ep as <-.
    rewrite Hvm in Em. injection Em as <-.
    apply (@bounded_via_ext B (fun i' => S dir_b i' \/ i' = i)).
    + intros i'. tauto.
    + apply bounded_via_update.
      * exists P, d. auto.
      * now apply I.
  - rewrite (Ovp j N) in Ep. rewrite (Ovm j N) in Em.
    apply (@bounded_via_ext B (S j)).
    + intros i'. tauto.
    + now apply I.
Qed.

(** The turn of template [i] in the mode that walks over the directions of
    the template ([mode == 0]). *)
Lemma minimizeCoeffs_own_template (B : Bundle) (i : nat)
    (S : nat -> nat -> Prop) coeffs coeffs' :
  minimizeCoeffs bern_coeffs max_finder 0 B coeffs i = Done coeffs' ->
  coeffs_bounded B S coeffs ->
  coeffs_bounded B (fun j i' => S j i' \/ (i' = i /\ contains_direction B j i))
                 coeffs'.
Proof.
  intros E I. unfold minimizeCoeffs in E.
  destruct (getParallelotope B i) as [P|] eqn:EP; simpl in E; [|discriminate].
  destruct (index (t_matrix B) i) as [row|] eqn:Er; simpl in E; [|discriminate].
  unfold index in Er.
  destruct (nth_error (t_matrix B) i) as [row0|] eqn:Nr; [|discriminate].
  injection Er as ->.
  pose (Inv := fun (k : nat) (c : list double * list double) =>
    coeffs_bounded B
      (fun j i' => S j i' \/
         (i' = i /\ exists k', k' < k /\ nth_error row k' = Some (Z.of_nat j))) c).
  assert (Inv (length row) coeffs') as F.
  { refine (@foldM_seq_invariant _ Inv _ (length row) _ coeffs coeffs' _ E).
    - intros k s s' Lk Is Es.
      destruct (index row k) as [idx|] eqn:Ek; simpl in Es; [|discriminate].
      unfold index in Ek.
      destruct (nth_error row k) as [idx0|] eqn:Nk; [|discriminate].
      injection Ek as ->.
      destruct (Z.ltb_spec idx 0) as [|Pos]; simpl in Es; [discriminate|].
      unfold Inv in Is |- *.
      apply (@bound_direction_step B P i _ _ s s' EP Es) in Is.
      revert Is. apply coeffs_bounded_ext. intros j i' _. split.
      + intros [[Sj|(-> & k' & Lk' & Ek')]|(-> & ->)].
        * now left.
        * right. split; [reflexivity|]. exists k'. split; [lia|exact Ek'].
        * right. split; [reflexivity|]. exists k. split; [lia|].
          now rewrite Z2Nat.id.
      + intros [Sj|(-> & k' & Lk' & Ek')]; [now left; left|].
        destruct (Nat.eq_dec k' k) as [->|N].
        * right. split; [|reflexivity]. rewrite Nk in Ek'. injection Ek' as ->.
          now rewrite Nat2Z.id.
        * left. right. split; [reflexivity|]. exists k'. split; [lia|exact Ek'].
    - revert I. apply coeffs_bounded_ext. intros j i' _. split; [now left|].
      intros [Sj|(_ & k' & Lk' & _)]; [exact Sj|lia]. }
  revert F. apply coeffs_bounded_ext. intros j i' _. split.
  - intros [Sj|(-> & k' & Lk' & Ek')]; [now left|].
    right. split; [reflexivity|]. exists row. split; [exact Nr|].
    eapply nth_error_In; eauto.
  - intros [Sj|(-> & row' & Nr' & Ir)]; [now left|].
    right. split; [reflexivity|]. rewrite Nr in Nr'. injection Nr' as <-.
    destruct (In_nth_error _ _ Ir) as (k' & Ek').
    exists k'. split; [|exact Ek']. apply nth_error_Some. congruence.
Qed.

(** The turn of template [i] in the mode that walks over every row of the
    direction matrix ([mode != 0]). *)
Lemma minimizeCoeffs_every_row (B : Bundle) (mode : Z) (i : nat)
    (S : nat -> nat -> Prop) coeffs coeffs' :
  (mode =? 0)%Z = false ->
  minimizeCoeffs bern_coeffs max_finder mode B coeffs i = Done coeffs' ->
  coeffs_bounded B S coeffs ->
  coeffs_bounded B (fun j i' => S j i' \/ i' = i) coeffs'.
Proof.
  intros M E I. unfold minimizeCoeffs in E. rewrite M in E.
  destruct (getParallelotope B i) as [P|] eqn:EP; simpl in E; [|discriminate].
  destruct (index (t_matrix B) i) as [row|] eqn:Er; simpl in E; [|discriminate].
  pose (Inv := fun (k : nat) (c : list double * list double) =>
    coeffs_bounded B (fun j i' => S j i' \/ (i' = i /\ j < k)) c).
  assert (Inv (length (dir_matrix B)) coeffs') as F.
  { refine (@foldM_seq_invariant _ Inv _ _ _ coeffs coeffs' _ E).
    - intros k s s' Lk Is Es. simpl in Es.
      unfold Inv in Is |- *.
      apply (@bound_direction_step B P i _ _ s s' EP Es) in Is.
      revert Is. apply coeffs_bounded_ext. intros j i' _. split.
      + intros [[Sj|(-> & Lj)]|(-> & ->)];
          [now left|right; split; [reflexivity|lia]..].
      + intros [Sj|(-> & Lj)]; [now left; left|].
        destruct (Nat.eq_dec j k) as [->|N]; [now right|].
        left. right. split; [reflexivity|lia].
    - revert I. apply coeffs_bounded_ext. intros j i' _. split; [now left|].
      intros [Sj|(_ & Lj)]; [exact Sj|lia]. }
  revert F. apply coeffs_bounded_ext. intros j i' Lj. unfold size in Lj. tauto.
Qed.

Lemma initial_coeffs_bounded (B : Bundle) :
  coeffs_bounded B (fun _ i => i < 0)
    (repeat minCoeffType_init (size B), repeat minCoeffType_init (size B)).
Proof.
  simpl. rewrite !repeat_length. split; [reflexivity|]. split; [reflexivity|].
  intros j p m Ep Em.
  assert (j < size B) as Lj.
  { rewrite <- (repeat_length minCoeffType_init (size B)).
    apply nth_error_Some. congruence. }
  rewrite nth_error_repeat in Ep by exact Lj.
  rewrite nth_error_repeat in Em by exact Lj.
  injection Ep as <-. injection Em as <-.
  split; [intros i Li; lia|]. split; now left.
Qed.

Lemma coeffs_bounded_entries (B : Bundle) (S : nat -> nat -> Prop) coeffs (j : nat) :
  coeffs_bounded B S coeffs -> j < size B ->
  exists p m, nth_error (fst coeffs) j = Some p /\
              nth_error (snd coeffs) j = Some m /\ bounded B (S j) j p m.
Proof.
  intros (Lp & Lm & I) Lj.
  destruct (nth_error (fst coeffs) j) as [p|] eqn:Ep;
    [|apply nth_error_None in Ep; lia].
  destruct (nth_error (snd coeffs) j) as [m|] eqn:Em;
    [|apply nth_error_None in Em; lia].
  exists p, m. auto.
Qed.

(** Mode 1: every row of the direction matrix is bounded via every
    template. *)
Lemma transform_coeffs_every_template (B : Bundle) coeffs (j : nat) :
  transform_coeffs bern_coeffs max_finder 1 B = Done coeffs ->
  j < size B ->
  exists p m, nth_error (fst coeffs) j = Some p /\
              nth_error (snd coeffs) j = Some m /\
              bounded B (fun i => i < num_of_templates B) j p m.
Proof.
  intros E Lj. unfold transform_coeffs in E.
  pose (Inv := fun (n : nat) (c : list double * list double) =>
    coeffs_bounded B (fun _ i => i < n) c).
  assert (Inv (num_of_templates B) coeffs) as F.
  { refine (@foldM_seq_invariant _ Inv _ _ _ _ coeffs (initial_coeffs_bounded B) E).
    intros n s s' Ln Is Es.
    unfold Inv in Is |- *.
    apply (@minimizeCoeffs_every_row B 1 n _ s s' eq_refl Es) in Is.
    revert Is. apply coeffs_bounded_ext. intros j' i' _. lia. }
  exact (@coeffs_bounded_entries B _ coeffs j F Lj).
Qed.

(** Mode 0: every direction is bounded via the templates that contain it,
    and via no other. *)
Lemma transform_coeffs_own_templates (B : Bundle) coeffs (j : nat) :
  transform_coeffs bern_coeffs max_finder 0 B = Done coeffs ->
  j < size B ->
  exists p m, nth_error (fst coeffs) j = Some p /\
              nth_error (snd coeffs) j = Some m /\
              bounded B (contains_direction B j) j p m.
Proof.
  intros E Lj. unfold transform_coeffs in E.
  pose (Inv := fun (n : nat) (c : list double * list double) =>
    coeffs_bounded B (fun j i => i < n /\ contains_direction B j i) c).
  assert (Inv (num_of_templates B) coeffs) as F.
  { refine (@foldM_seq_invariant _ Inv _ _ _ _ coeffs _ E).
    - intros n s s' Ln Is Es.
      unfold Inv in Is |- *.
      apply (@minimizeCoeffs_own_template B n _ s s' Es) in Is.
      revert Is. apply coeffs_bounded_ext. intros j' i' _. split.
      + intros [[L C]|[-> C]]; (split; [lia|exact C]).
      + intros [L C]. destruct (Nat.eq_dec i' n) as [->|N]; [now right|].
        left. split; [lia|exact C].
    - generalize (initial_coeffs_bounded B).
      apply coeffs_bounded_ext. intros j' i' _. lia. }
  destruct (@coeffs_bounded_entries B _ coeffs j F Lj) as (p & m & Ep & Em & Bd).
  exists p, m. split; [exact Ep|]. split; [exact Em|].
  revert Bd. apply bounded_via_ext. intros i. split; [tauto|].
  intros C. split; [|exact C]. destruct C as (row & Nr & _).
  apply nth_error_Some. unfold num_of_templates. congruence.
Qed.

End TransformBounds.

Section TransformModes.
Variable Expression : Type.
Variable bern_coeffs :
  Parallelotope (H := binary64) -> list float -> list Expression.
Variable max_finder : MaxCoeffFinder (H := binary64) Expression.
Variable maximize : Polytope (H := binary64) -> list float -> float.

Lemma Bundle_new_coeffs (B : Bundle (H := binary64)) (p m : list float) :
  Bundle_valid B = true -> length p = size B -> length m = size B ->
  Bundle_new (dir_matrix B) p m (t_matrix B)
  = Done (mkBundle (dir_matrix B) p m (t_matrix B) [] []).
Proof.
  unfold Bundle_valid, Bundle_new, size. intros V Lp Lm.
  assert (Bundle_checks (dir_matrix B) p m (t_matrix B) = true) as C.
  { unfold Bundle_checks in V |- *.
    rewrite !andb_true_iff in V. destruct V as ((((V1 & _) & _) & V4) & V5).
    rewrite !andb_true_iff. repeat split; try assumption.
    - apply Nat.eqb_eq. symmetry. exact Lp.
    - apply Nat.eqb_eq. symmetry. exact Lm. }
  now rewrite C.
Qed.

(** C1.  On doubles, with the integers Bundle.cpp documents for the modes
    (1 for AFO, 0 for OFO).  [transform] does in each mode what the
    specification says of it.  In mode AFO the bundle returned for a
    constructed bundle holds the coefficients of the loops as they are, not
    canonicalised, and the coefficients of every row of the direction matrix
    are bounded via every template: they are not above the bound of any
    template, and each is the bound of some template or still [DBL_MAX].  In
    mode OFO the bundle built from the coefficients is handed to
    [get_canonical], and the coefficients of a direction are bounded via the
    templates that contain it, and via no other.  In both modes a returned
    bundle has the direction matrix and the template matrix of the input. *)
Theorem transform_modes (B : Bundle (H := binary64)) :
  (forall mode,
      transform bern_coeffs max_finder maximize mode B
      = transform_spec bern_coeffs max_finder maximize mode B) /\
  (forall coeffs,
      Bundle_valid B = true ->
      transform_coeffs bern_coeffs max_finder (mode_value AFO) B = Done coeffs ->
      transform bern_coeffs max_finder maximize AFO B
      = Done (mkBundle (dir_matrix B) (fst coeffs) (snd coeffs) (t_matrix B) [] [])) /\
  (forall coeffs,
      Bundle_valid B = true ->
      transform_coeffs bern_coeffs max_finder (mode_value OFO) B = Done coeffs ->
      transform bern_coeffs max_finder maximize OFO B
      = get_canonical maximize
          (mkBundle (dir_matrix B) (fst coeffs) (snd coeffs) (t_matrix B) [] [])) /\
  (forall coeffs j,
      transform_coeffs bern_coeffs max_finder (mode_value AFO) B = Done coeffs ->
      j < size B ->
      exists p m,
        nth_error (fst coeffs) j = Some p /\ nth_error (snd coeffs) j = Some m /\
        bounded_via bern_coeffs max_finder B
                    (fun i => i < num_of_templates B) j p m) /\
  (forall coeffs j,
      transform_coeffs bern_coeffs max_finder (mode_value OFO) B = Done coeffs ->
      j < size B ->
      exists p m,
        nth_error (fst coeffs) j = Some p /\ nth_error (snd coeffs) j = Some m /\
        bounded_via bern_coeffs max_finder B (contains_direction B j) j p m) /\
  (forall mode B',
      transform bern_coeffs max_finder maximize mode B = Done B' ->
      dir_matrix B' = dir_matrix B /\ t_matrix B' = t_matrix B).
Proof.
  split; [|split; [|split; [|split; [|split]]]].
  - intros mode. apply transform_as_specified.
  - intros coeffs V E. unfold transform, transform_int. rewrite E. cbn [bind].
    destruct (transform_coeffs_lengths _ _ _ _ E) as [Lp Lm].
    rewrite (Bundle_new_coeffs B _ _ V Lp Lm). reflexivity.
  - intros coeffs V E. unfold transform, transform_int. rewrite E. cbn [bind].
    destruct (transform_coeffs_lengths _ _ _ _ E) as [Lp Lm].
    rewrite (Bundle_new_coeffs B _ _ V Lp Lm). reflexivity.
  - intros coeffs j E Lj.
    exact (@transform_coeffs_every_template binary64 float_ltb_irrefl
             float_ltb_trans Expression bern_coeffs max_finder B coeffs j E Lj).
  - intros coeffs j E Lj.
    exact (@transform_coeffs_own_templates binary64 float_ltb_irrefl
             float_ltb_trans Expression bern_coeffs max_finder B coeffs j E Lj).
  - intros mode B'. apply transform_keeps_matrices.
Qed.

End TransformModes.

(** The two modes on the bundle with directions [x] and [2x] and the single
    template [(0)], for the identity dynamics.  In mode AFO both directions
    are bounded and the bundle is returned as it is; in mode OFO only
    direction 0, the one of the template, is bounded, direction 1 keeps the
    largest double, and the result is handed to [get_canonical]. *)
Example transform_modes_run (maximize : Polytope -> list float -> float) :
  transform identity_bern (plain_finder (H := binary64) (fun c : float => c))
      maximize AFO bundle_two_directions
    = Done (mkBundle [[1%float]; [2%float]] [1%float; 2%float] [0%float; 0%float]
                     [[0%Z]] [] []) /\
  transform_coeffs identity_bern (plain_finder (H := binary64) (fun c : float => c))
      (mode_value OFO) bundle_two_directions
    = Done ([1%float; d_max], [0%float; d_max]) /\
  transform identity_bern (plain_finder (H := binary64) (fun c : float => c))
      maximize OFO bundle_two_directions
    = get_canonical maximize
        (mkBundle [[1%float]; [2%float]] [1%float; d_max] [0%float; d_max]
                  [[0%Z]] [] []).
Proof. repeat split. Qed.

(** On that bundle: the bundle mode AFO returns, and the coefficients mode
    OFO leaves for direction 1, which the template does not contain. *)
Lemma transform_modes_witness :
  transform identity_bern (plain_finder (H := binary64) (fun c : float => c))
      (fun _ _ => 0%float) AFO bundle_two_directions
    = Done (mkBundle [[1%float]; [2%float]] [1%float; 2%float] [0%float; 0%float]
                     [[0%Z]] [] []) /\
  exists p m,
    nth_error [1%float; @d_max binary64] 1 = Some p /\
    nth_error [0%float; @d_max binary64] 1 = Some m /\
    bounded_via identity_bern (plain_finder (H := binary64) (fun c : float => c))
                bundle_two_directions
                (contains_direction bundle_two_directions 1) 1 p m.
Proof.
  pose proof (transform_modes identity_bern
                (plain_finder (H := binary64) (fun c : float => c))
                (fun _ _ => 0%float) bundle_two_directions)
    as (_ & A & _ & _ & O & _).
  split.
  - exact (A ([1%float; 2%float], [0%float; 0%float]) eq_refl eq_refl).
  - exact (O ([1%float; @d_max binary64], [0%float; @d_max binary64]) 1
             eq_refl (le_n 2)).
Defined.

(** ** Synthesis *)

Section SynthesisFacts.
Context `{SymbolicAlgebra}.
Variables bundle SetsUnion : Type.
Variable env : Collaborators bundle SetsUnion.
Variable sapo : Sapo.

Local Abbreviation synth := (synthesize env sapo).

Lemma synthesize_with_assumptions (formula : STL) init pSet :
  poly_A (assumptions sapo) <> [] ->
  synth formula init pSet = Fail assumptions_not_supported.
Proof.
  intros NE. destruct (poly_A (assumptions sapo)) eqn:E; [contradiction|].
  destruct formula; simpl; rewrite E; reflexivity.
Qed.

(** A failure that the two temporal overloads do not raise themselves comes
    from the synthesis of a subformula. *)
Lemma synthesize_until_failure (X : failure) fuel sl sr a b init pSet time :
  X <> out_of_fuel ->
  (forall i p, sl i p <> Fail X) -> (forall i p, sr i p <> Fail X) ->
  synthesize_until env sapo fuel sl sr a b init pSet time <> Fail X.
Proof.
  intros NX Hl Hr. revert init pSet time.
  induction fuel as [|fuel IH]; intros init pSet time; simpl;
    destruct (b <? a)%Z; try discriminate;
    destruct (time <? a)%Z.
  - specialize (Hl init pSet). destruct (sl init pSet) as [P1|f]; simpl.
    + destruct (su_is_empty env P1); [discriminate|].
      unfold transition_and_synthesis. congruence.
    + congruence.
  - destruct (time <? b)%Z; [|apply Hr].
    specialize (Hl init pSet). destruct (sl init pSet) as [P1|f]; simpl; [|congruence].
    destruct (su_is_empty env P1); [apply Hr|].
    unfold transition_and_synthesis. simpl.
    specialize (Hr init pSet). destruct (sr init pSet); simpl; congruence.
  - specialize (Hl init pSet). destruct (sl init pSet) as [P1|f]; simpl.
    + destruct (su_is_empty env P1); [discriminate|].
      unfold transition_and_synthesis. apply IH.
    + congruence.
  - destruct (time <? b)%Z; [|apply Hr].
    specialize (Hl init pSet). destruct (sl init pSet) as [P1|f]; simpl; [|congruence].
    destruct (su_is_empty env P1); [apply Hr|].
    unfold transition_and_synthesis.
    match goal with |- context [synthesize_until ?e ?s ?f ?l ?r ?a ?b ?i ?p ?t] =>
      specialize (IH i p t); destruct (synthesize_until e s f l r a b i p t) end;
      simpl; [|congruence].
    specialize (Hr init pSet). destruct (sr init pSet); simpl; congruence.
Qed.

Lemma synthesize_always_failure (X : failure) fuel ss a b init pSet time :
  X <> out_of_fuel ->
  (forall i p, ss i p <> Fail X) ->
  synthesize_always env sapo fuel ss a b init pSet time <> Fail X.
Proof.
  intros NX Hs. revert init pSet time.
  induction fuel as [|fuel IH]; intros init pSet time; simpl;
    destruct (b <? a)%Z; try discriminate;
    destruct (time <? a)%Z; unfold transition_and_synthesis;
    try congruence; try apply IH.
  - destruct (time <? b)%Z; [|apply Hs].
    specialize (Hs init pSet). destruct (ss init pSet) as [P|f]; simpl; [|congruence].
    destruct (su_is_empty env P); congruence.
  - destruct (time <? b)%Z; [|apply Hs].
    specialize (Hs init pSet). destruct (ss init pSet) as [P|f]; simpl; [|congruence].
    destruct (su_is_empty env P); [discriminate|apply IH].
Qed.

Lemma synthesize_without_assumptions (formula : STL) init pSet :
  poly_A (assumptions sapo) = [] ->
  synth formula init pSet <> Fail assumptions_not_supported.
Proof.
  intros E. revert init pSet.
  induction formula as [e|l IHl r IHr|l IHl r IHr|l IHl a b r IHr|a b f IHf|a b f IHf|f IHf];
    intros init pSet; simpl; rewrite E; simpl; try discriminate.
  - specialize (IHl init pSet). destruct (synth l init pSet); simpl; [|congruence].
    specialize (IHr init pSet). destruct (synth r init pSet); simpl; congruence.
  - specialize (IHl init pSet). destruct (synth l init pSet); simpl; [|congruence].
    specialize (IHr init pSet). destruct (synth r init pSet); simpl; congruence.
  - apply synthesize_until_failure; auto. discriminate.
  - apply synthesize_always_failure; auto. discriminate.
  - apply synthesize_until_failure; auto; discriminate.
Qed.

(** With enough fuel the temporal overloads return whenever the synthesis
    of the subformulas does. *)
Lemma synthesize_until_returns fuel sl sr a b init pSet time :
  (forall i p, exists R, sl i p = Done R) ->
  (forall i p, exists R, sr i p = Done R) ->
  (b - time <= Z.of_nat fuel)%Z ->
  exists R, synthesize_until env sapo fuel sl sr a b init pSet time = Done R.
Proof.
  intros Hl Hr. revert init pSet time.
  induction fuel as [|fuel IH]; intros init pSet time Hf; simpl;
    destruct (b <? a)%Z eqn:Eba; eauto;
    destruct (time <? a)%Z eqn:Eta; apply Z.ltb_ge in Eba.
  - apply Z.ltb_lt in Eta. lia.
  - destruct (time <? b)%Z eqn:Etb; [apply Z.ltb_lt in Etb; lia|apply Hr].
  - destruct (Hl init pSet) as [P1 ->]. simpl.
    destruct (su_is_empty env P1); eauto.
    unfold transition_and_synthesis. apply IH. lia.
  - destruct (time <? b)%Z eqn:Etb; [|apply Hr].
    destruct (Hl init pSet) as [P1 ->]. simpl.
    destruct (su_is_empty env P1); [apply Hr|].
    unfold transition_and_synthesis.
    match goal with |- context [synthesize_until ?e ?s ?f ?l ?r ?a ?b ?i ?p ?t] =>
      destruct (IH i p t) as [R ->]; [lia|] end.
    simpl. destruct (Hr init pSet) as [R2 ->]. simpl. eauto.
Qed.

Lemma synthesize_always_returns fuel ss a b init pSet time :
  (forall i p, exists R, ss i p = Done R) ->
  (b - time <= Z.of_nat fuel)%Z ->
  exists R, synthesize_always env sapo fuel ss a b init pSet time = Done R.
Proof.
  intros Hs. revert init pSet time.
  induction fuel as [|fuel IH]; intros init pSet time Hf; simpl;
    destruct (b <? a)%Z eqn:Eba; eauto;
    destruct (time <? a)%Z eqn:Eta; apply Z.ltb_ge in Eba;
    unfold transition_and_synthesis.
  - apply Z.ltb_lt in Eta. lia.
  - destruct (time <? b)%Z eqn:Etb; [apply Z.ltb_lt in Etb; lia|apply Hs].
  - apply IH. lia.
  - destruct (time <? b)%Z eqn:Etb; [|apply Hs].
    destruct (Hs init pSet) as [P ->]. simpl.
    destruct (su_is_empty env P); eauto. apply IH. lia.
Qed.

Lemma synthesize_returns (formula : STL) init pSet :
  poly_A (assumptions sapo) = [] -> negation_free formula = true ->
  exists R, synth formula init pSet = Done R.
Proof.
  intros E. revert init pSet.
  induction formula as [e|l IHl r IHr|l IHl r IHr|l IHl a b r IHr|a b f IHf|a b f IHf|f IHf];
    intros init pSet NF; simpl in NF; simpl; rewrite E; simpl;
    try (apply andb_true_iff in NF; destruct NF as [NFl NFr]);
    try discriminate.
  - eauto.
  - destruct (IHl init pSet NFl) as [R1 ->]. destruct (IHr init pSet NFr) as [R2 ->].
    simpl. eauto.
  - destruct (IHl init pSet NFl) as [R1 ->]. destruct (IHr init pSet NFr) as [R2 ->].
    simpl. eauto.
  - apply synthesize_until_returns; auto. lia.
  - apply synthesize_always_returns; auto. lia.
  - apply synthesize_until_returns; auto; [eauto|lia].
Qed.

Lemma mapM_failure (A B : Type) (X : failure) (f : A -> outcome B) (l : list A) :
  (forall a, f a <> Fail X) -> mapM f l <> Fail X.
Proof.
  intros E. induction l as [|a l IH]; simpl; [discriminate|].
  specialize (E a). destruct (f a) as [b|e]; simpl; [|congruence].
  destruct (mapM f l); simpl; congruence.
Qed.

Lemma mapM_returns (A B : Type) (f : A -> outcome B) (l : list A) :
  (forall a, exists b, f a = Done b) -> exists bs, mapM f l = Done bs.
Proof.
  intros E. induction l as [|a l [bs IH]]; simpl; eauto.
  destruct (E a) as [b ->]. rewrite IH. simpl. eauto.
Qed.

Lemma refine_while_empty_failure (X : failure) n init formula pl res :
  (forall i p, synth formula i p <> Fail X) ->
  refine_while_empty env sapo n init formula pl res <> Fail X.
Proof.
  intros Hs. revert pl res. induction n as [|n IH]; intros pl res; simpl;
    destruct (every_set_is_empty env res); try discriminate.
  unfold synthesize_list.
  match goal with |- context [mapM ?f ?l] =>
    pose proof (@mapM_failure _ _ X f l (fun p => Hs init p)) as M;
    destruct (mapM f l) end; simpl; [apply IH|congruence].
Qed.

Lemma refine_while_empty_returns n init formula pl res :
  (forall i p, exists R, synth formula i p = Done R) ->
  exists R, refine_while_empty env sapo n init formula pl res = Done R.
Proof.
  intros Hs. revert pl res. induction n as [|n IH]; intros pl res; simpl;
    destruct (every_set_is_empty env res); eauto.
  unfold synthesize_list.
  match goal with |- context [mapM ?f ?l] =>
    destruct (@mapM_returns _ _ f l (fun p => Hs init p)) as [bs ->] end.
  simpl. apply IH.
Qed.

(** C7.  Both entry points of the synthesis raise the error
    "Assumptions not supported in synthesis yet." exactly when the engine
    holds at least one assumption, whatever the formula, the sets and the
    operations on them are (nothing is refined before the test); with no
    assumption they return a result for every formula without negation. *)
Theorem synthesize_rejects_assumptions :
  (forall formula init pSet,
      synth formula init pSet = Fail assumptions_not_supported
      <-> poly_A (assumptions sapo) <> []) /\
  (forall formula init pSet max_splits pre_splits,
      synthesize_with_splits env sapo init pSet formula max_splits pre_splits
        = Fail assumptions_not_supported
      <-> poly_A (assumptions sapo) <> []) /\
  (poly_A (assumptions sapo) = [] ->
   forall formula init pSet, negation_free formula = true ->
     exists R, synth formula init pSet = Done R) /\
  (poly_A (assumptions sapo) = [] ->
   forall formula init pSet max_splits pre_splits, negation_free formula = true ->
     exists R, synthesize_with_splits env sapo init pSet formula max_splits pre_splits
               = Done R).
Proof.
  split; [|split; [|split]].
  - intros formula init pSet. split.
    + intros E NE. revert E. now apply synthesize_without_assumptions.
    + apply synthesize_with_assumptions.
  - intros formula init pSet ms ps. unfold synthesize_with_splits. split.
    + intros E NE. rewrite NE in E. simpl in E. revert E.
      unfold synthesize_list.
      match goal with |- context [mapM ?f ?l] =>
        pose proof (@mapM_failure _ _ assumptions_not_supported f l
                      (fun p => synthesize_without_assumptions formula init p NE)) as M;
        destruct (mapM f l) end; simpl; [|congruence].
      match goal with |- context [refine_while_empty ?e ?s ?n ?i ?f ?pl ?r] =>
        pose proof (@refine_while_empty_failure assumptions_not_supported n i f pl r
                      (fun i p => synthesize_without_assumptions formula i p NE)) as M2;
        destruct (refine_while_empty e s n i f pl r) end; simpl; congruence.
    + intros NE. destruct (poly_A (assumptions sapo)); [contradiction|reflexivity].
  - intros E formula init pSet NF. now apply synthesize_returns.
  - intros E formula init pSet ms ps NF. unfold synthesize_with_splits.
    rewrite E. simpl. unfold synthesize_list.
    match goal with |- context [mapM ?f ?l] =>
      destruct (@mapM_returns _ _ f l
                  (fun p => synthesize_returns formula init p E NF)) as [bs ->] end.
    simpl.
    match goal with |- context [refine_while_empty ?e ?s ?n ?i ?f ?pl ?r] =>
      destruct (@refine_while_empty_returns n i f pl r
                  (fun i p => synthesize_returns formula i p E NF)) as [R ->] end.
    simpl. eauto.
Qed.

(** C8.  The synthesis of [Eventually a b f] is the synthesis of the Until
    formula whose left side is the atom of the constant [-1], on the same
    initial set and parameter set; and that atom, [-1 <= 0], holds in every
    state. *)
Theorem synthesize_eventually_as_until (a b : Z) (f : STL) init pSet :
  synth (Eventually a b f) init pSet
    = synthesize_eventually_spec env sapo a b f init pSet /\
  (ExactOrder _ -> SymbolicLaws _ ->
   forall sigma, atom_holds (expr_of_int (-1)) sigma = true).
Proof.
  split.
  - unfold synthesize_eventually_spec. simpl.
    destruct (0 <? length (poly_A (assumptions sapo))); reflexivity.
  - intros O L sigma. unfold atom_holds. rewrite (value_of_int L).
    apply (minus_one_nonpos O).
Qed.

(** *** The synthesised set refines the given one *)

Section Refinement.
Variable Param : Type.
Variable mem : Param -> SetsUnion -> Prop.
Hypothesis laws : SetLaws env mem.

Local Abbreviation subset := (subset mem).

Lemma synthesize_until_subset fuel sl sr a b :
  (forall i p R, sl i p = Done R -> subset R p) ->
  (forall i p R, sr i p = Done R -> subset R p) ->
  forall init pSet time R,
    synthesize_until env sapo fuel sl sr a b init pSet time = Done R -> subset R pSet.
Proof.
  intros Hl Hr.
  induction fuel as [|fuel IH]; intros init pSet time R; simpl;
    (destruct (b <? a)%Z;
     [intros E; inversion E; intros theta M; now apply (mem_empty laws) in M|]);
    destruct (time <? a)%Z.
  - destruct (sl init pSet) as [P1|] eqn:E1; simpl; [|discriminate].
    destruct (su_is_empty env P1); [|discriminate].
    intros E. inversion E; subst. eauto.
  - destruct (time <? b)%Z; [|apply Hr].
    destruct (sl init pSet) as [P1|] eqn:E1; simpl; [|discriminate].
    destruct (su_is_empty env P1); [apply Hr|discriminate].
  - destruct (sl init pSet) as [P1|] eqn:E1; simpl; [|discriminate].
    destruct (su_is_empty env P1).
    + intros E. inversion E; subst. eauto.
    + unfold transition_and_synthesis. intros E theta M.
      apply (Hl _ _ _ E1). exact (IH _ _ _ _ E theta M).
  - destruct (time <? b)%Z; [|apply Hr].
    destruct (sl init pSet) as [P1|] eqn:E1; simpl; [|discriminate].
    destruct (su_is_empty env P1); [apply Hr|].
    unfold transition_and_synthesis.
    match goal with |- context [synthesize_until ?e ?s ?f ?l ?r ?a ?b ?i ?p ?t] =>
      destruct (synthesize_until e s f l r a b i p t) as [R1|] eqn:E2 end;
      simpl; [|discriminate].
    destruct (sr init pSet) as [R2|] eqn:E3; simpl; [|discriminate].
    intros E theta M. inversion E; subst.
    apply (mem_add laws) in M. destruct M as [M|M].
    + apply (Hl _ _ _ E1). exact (IH _ _ _ _ E2 theta M).
    + exact (Hr _ _ _ E3 theta M).
Qed.

Lemma synthesize_always_subset fuel ss a b :
  (forall i p R, ss i p = Done R -> subset R p) ->
  forall init pSet time R,
    synthesize_always env sapo fuel ss a b init pSet time = Done R -> subset R pSet.
Proof.
  intros Hs.
  induction fuel as [|fuel IH]; intros init pSet time R; simpl;
    (destruct (b <? a)%Z;
     [intros E; inversion E; intros theta M; now apply (mem_empty laws) in M|]);
    destruct (time <? a)%Z; unfold transition_and_synthesis; try discriminate.
  - destruct (time <? b)%Z; [|apply Hs].
    destruct (ss init pSet) as [P|] eqn:E1; simpl; [|discriminate].
    destruct (su_is_empty env P); [|discriminate].
    intros E. inversion E; subst. eauto.
  - apply IH.
  - destruct (time <? b)%Z; [|apply Hs].
    destruct (ss init pSet) as [P|] eqn:E1; simpl; [|discriminate].
    destruct (su_is_empty env P).
    + intros E. inversion E; subst. eauto.
    + intros E theta M. apply (Hs _ _ _ E1). exact (IH _ _ _ _ E theta M).
Qed.

Lemma synthesize_subset (formula : STL) :
  forall init pSet R, synth formula init pSet = Done R -> subset R pSet.
Proof.
  induction formula as [e|l IHl r IHr|l IHl r IHr|l IHl a b r IHr|a b f IHf|a b f IHf|f IHf];
    intros init pSet R; simpl;
    destruct (0 <? length (poly_A (assumptions sapo))) eqn:EA; try discriminate.
  - intros E. inversion E. intros theta. apply (mem_atom_subset laws).
  - destruct (synth l init pSet) as [R1|] eqn:E1; simpl; [|discriminate].
    destruct (synth r init pSet) as [R2|] eqn:E2; simpl; [|discriminate].
    intros E theta M. inversion E; subst.
    apply (mem_intersect laws) in M. exact (IHl _ _ _ E1 theta (proj1 M)).
  - destruct (synth l init pSet) as [R1|] eqn:E1; simpl; [|discriminate].
    destruct (synth r init pSet) as [R2|] eqn:E2; simpl; [|discriminate].
    intros E theta M. inversion E; subst.
    apply (mem_add laws) in M.
    destruct M as [M|M]; [exact (IHl _ _ _ E1 theta M)|exact (IHr _ _ _ E2 theta M)].
  - apply synthesize_until_subset; auto.
  - apply synthesize_always_subset; auto.
  - apply synthesize_until_subset; auto.
    intros i p R0 E. inversion E. intros theta. apply (mem_atom_subset laws).
Qed.

Lemma synthesize_propositional_monotone (formula : STL) :
  propositional formula = true ->
  forall init U U' R R',
    subset U U' ->
    synth formula init U = Done R -> synth formula init U' = Done R' ->
    subset R R'.
Proof.
  induction formula as [e|l IHl r IHr|l IHl r IHr|l IHl a b r IHr|a b f IHf|a b f IHf|f IHf];
    intros Pr init U U' R R' S; simpl in Pr; try discriminate; simpl;
    destruct (0 <? length (poly_A (assumptions sapo))) eqn:EA; try discriminate;
    try (apply andb_true_iff in Pr; destruct Pr as [Pl Prr]).
  - intros E E'. inversion E; inversion E'; subst.
    exact (mem_atom_monotone laws init e U U' S).
  - destruct (synth l init U) as [R1|] eqn:E1; simpl; [|discriminate].
    destruct (synth r init U) as [R2|] eqn:E2; simpl; [|discriminate].
    destruct (synth l init U') as [R1'|] eqn:E1'; simpl; [|discriminate].
    destruct (synth r init U') as [R2'|] eqn:E2'; simpl; [|discriminate].
    intros E E' theta M. inversion E; inversion E'; subst.
    apply (mem_intersect laws) in M. apply (mem_intersect laws). split.
    + exact (IHl Pl _ _ _ _ _ S E1 E1' theta (proj1 M)).
    + exact (IHr Prr _ _ _ _ _ S E2 E2' theta (proj2 M)).
  - destruct (synth l init U) as [R1|] eqn:E1; simpl; [|discriminate].
    destruct (synth r init U) as [R2|] eqn:E2; simpl; [|discriminate].
    destruct (synth l init U') as [R1'|] eqn:E1'; simpl; [|discriminate].
    destruct (synth r init U') as [R2'|] eqn:E2'; simpl; [|discriminate].
    intros E E' theta M. inversion E; inversion E'; subst.
    apply (mem_add laws) in M. apply (mem_add laws). destruct M as [M|M].
    + left. exact (IHl Pl _ _ _ _ _ S E1 E1' theta M).
    + right. exact (IHr Prr _ _ _ _ _ S E2 E2' theta M).
Qed.

End Refinement.

(** C4, as the code has it.  When the set operations and the synthesis of
    atoms act on the points of a parameter set as section 4.J.3 says, every
    set that [synthesize] returns is a subset of the given parameter set,
    and with no assumption it does return one for every formula without
    negation; for a formula built from atoms, conjunctions and disjunctions
    the result is monotone in the parameter set. *)
Theorem synthesize_refines (Param : Type) (mem : Param -> SetsUnion -> Prop) :
  SetLaws env mem ->
  (forall formula init pSet R,
      synth formula init pSet = Done R ->
      forall theta, mem theta R -> mem theta pSet) /\
  (poly_A (assumptions sapo) = [] ->
   forall formula init pSet, negation_free formula = true ->
     exists R, synth formula init pSet = Done R /\
               forall theta, mem theta R -> mem theta pSet) /\
  (forall formula init P P' R R',
      propositional formula = true ->
      (forall theta, mem theta P -> mem theta P') ->
      synth formula init P = Done R -> synth formula init P' = Done R' ->
      forall theta, mem theta R -> mem theta R').
Proof.
  intros laws. split; [|split].
  - intros formula init pSet R E. exact (synthesize_subset laws formula _ _ E).
  - intros EA formula init pSet NF.
    destruct (synthesize_returns formula init pSet EA NF) as [R E].
    exists R. split; [exact E|]. exact (synthesize_subset laws formula _ _ E).
  - intros formula init P P' R R' Pr S E E'.
    exact (synthesize_propositional_monotone laws formula Pr init S E E').
Qed.

End SynthesisFacts.

(** ** Reachability *)

Section ReachFacts.
Context `{SymbolicAlgebra}.
Variables bundle SetsUnion : Type.
Variable env : Collaborators bundle SetsUnion.
Variable sapo : Sapo.

Local Abbreviation nonempty := (fun b : bundle => negb (bundle_is_empty env b)).
Local Abbreviation pieces :=
  (fun b : bundle => split env b (max_bundle_magnitude sapo) (SPLIT_MAGNITUDE_RATIO env)).

(** One step of [reach] over the current bundles: the transformed bundles
    that are empty leave no trace, the others are split into the next
    bundles and added to the union, in order. *)
Lemma compute_next_fold (cbundles : list bundle)
    (captured : list bundle * SetsUnion) :
  fold_left (compute_next_bundles_and_add_to_last env sapo) cbundles captured
  = (fst captured ++ flat_map pieces
                       (filter nonempty (map (next_bundle env sapo) cbundles)),
     fold_left (su_add_polytope env)
       (map (to_polytope env)
            (filter nonempty (map (next_bundle env sapo) cbundles)))
       (snd captured)).
Proof.
  revert captured.
  induction cbundles as [|b cbundles IH]; intros [nbundles last_step].
  - simpl. now rewrite app_nil_r.
  - cbn [fold_left]. rewrite IH. unfold compute_next_bundles_and_add_to_last.
    cbn [map filter].
    destruct (bundle_is_empty env (next_bundle env sapo b)); simpl.
    + reflexivity.
    + now rewrite <- app_assoc.
Qed.

(** Once the last union of the flowpipe is empty, more turns change
    nothing. *)
Lemma reach_loop_stable (n m : nat) :
  forall cbundles last_step flowpipe,
    last flowpipe (su_empty env) = last_step ->
    su_size env (last (reach_loop env sapo n cbundles last_step flowpipe)
                      (su_empty env)) = 0 ->
    reach_loop env sapo (n + m) cbundles last_step flowpipe
    = reach_loop env sapo n cbundles last_step flowpipe.
Proof.
  induction n as [|n IH]; intros cbundles last_step flowpipe Inv E; simpl in *.
  - rewrite Inv in E. destruct m; simpl; [reflexivity|].
    now rewrite E.
  - destruct (su_size env last_step =? 0); [reflexivity|].
    apply IH; [apply last_last|exact E].
Qed.

(** One step of [reach] is the step of the specification. *)
Lemma compute_next_step (cbundles : list bundle) :
  fold_left (compute_next_bundles_and_add_to_last env sapo) cbundles
            ([], su_empty env)
  = (step_bundles env sapo cbundles, step_union env sapo cbundles).
Proof. now rewrite compute_next_fold. Qed.

(** The union [n] steps after the loop was entered with the bundles
    [cbundles] and the union [last_step]. *)
Local Abbreviation union_from cbundles last_step n :=
  (match n with
   | O => last_step
   | S n' => step_union env sapo (Nat.iter n' (step_bundles env sapo) cbundles)
   end).

Lemma union_from_shift (cbundles : list bundle) (last_step : SetsUnion) (m : nat) :
  union_from (step_bundles env sapo cbundles) (step_union env sapo cbundles) m
  = union_from cbundles last_step (S m).
Proof.
  destruct m as [|m]; [reflexivity|]. now rewrite Nat.iter_succ_r.
Qed.

(** The loop makes [j] steps, where [j] is the number of turns or the
    first step after which the union is empty, and appends the union of
    each of them. *)
Lemma reach_loop_steps (n : nat) :
  forall cbundles last_step flowpipe,
  exists j,
    j <= n /\
    (forall m, m < j -> su_size env (union_from cbundles last_step m) <> 0) /\
    (j = n \/ su_size env (union_from cbundles last_step j) = 0) /\
    reach_loop env sapo n cbundles last_step flowpipe
    = flowpipe ++ map (fun m => union_from cbundles last_step (S m)) (seq 0 j).
Proof.
  induction n as [|n IH]; intros cbundles last_step flowpipe.
  - exists 0. simpl. rewrite app_nil_r.
    split; [lia|]. split; [intros m L; lia|]. split; [now left|reflexivity].
  - cbn [reach_loop]. destruct (su_size env last_step =? 0) eqn:T.
    + exists 0. split; [lia|]. split; [intros m L; lia|].
      split; [right; now apply Nat.eqb_eq|]. simpl. now rewrite app_nil_r.
    + rewrite compute_next_step. cbn [fst snd].
      destruct (IH (step_bundles env sapo cbundles) (step_union env sapo cbundles)
                   (flowpipe ++ [step_union env sapo cbundles]))
        as (j & Lj & NE & Stop & E).
      exists (S j). split; [lia|]. split; [|split].
      * intros [|m] Lm; [now apply Nat.eqb_neq|].
        rewrite <- (union_from_shift cbundles last_step m). apply NE. lia.
      * destruct Stop as [->|Z]; [now left|right].
        now rewrite <- (union_from_shift cbundles last_step j).
      * rewrite E, <- app_assoc. f_equal.
        rewrite <- cons_seq, <- seq_shift. cbn [app map]. rewrite map_map. f_equal.
        apply map_ext. intros m.
        apply (union_from_shift cbundles last_step (S m)).
Qed.

(** C6.  One step of [reach] over the current bundles is the step of the
    specification: a transformed bundle that is empty is added neither to
    the next bundles nor to the union of the step, every other one is
    split into the next bundles and its polytope added to the union.
    [reach] makes such steps until the horizon [k], or until the union
    reached is empty: for some [j <= k] the flowpipe returned holds the
    unions reached after [0 .. j] steps, none of the first [j] unions is
    empty, and [j = k] or the union after [j] steps is empty.  So if the
    union reached after [j] steps holds no polytope, [reach] with any longer
    horizon returns the flowpipe built in those [j] steps. *)
Theorem reach_drops_empty_and_stops :
  (forall cbundles,
      fold_left (compute_next_bundles_and_add_to_last env sapo) cbundles
                ([], su_empty env)
      = (step_bundles env sapo cbundles, step_union env sapo cbundles)) /\
  (forall init_set k,
      exists j,
        j <= k /\
        (forall n, n < j ->
           su_size env (reached_after env sapo init_set n) <> 0) /\
        (j = k \/ su_size env (reached_after env sapo init_set j) = 0) /\
        reach env sapo init_set k
        = map (reached_after env sapo init_set) (seq 0 (S j))) /\
  (forall init_set j k,
      j <= k ->
      su_size env (last (reach env sapo init_set j) (su_empty env)) = 0 ->
      reach env sapo init_set k = reach env sapo init_set j).
Proof.
  split; [|split].
  - apply compute_next_step.
  - intros init_set k. unfold reach.
    destruct (reach_loop_steps k
                (split env (intersect_with env init_set (assumptions sapo))
                       (max_bundle_magnitude sapo) (d_of_Z 1))
                (su_simplify env
                   (su_of_bundle env (intersect_with env init_set (assumptions sapo))))
                [su_simplify env
                   (su_of_bundle env (intersect_with env init_set (assumptions sapo)))])
      as (j & Lj & NE & Stop & E).
    exists j. split; [exact Lj|]. split; [|split].
    + intros [|n] Ln; apply (NE _ Ln).
    + destruct Stop as [->|Z]; [now left|right]. destruct j; exact Z.
    + rewrite E. rewrite <- cons_seq, <- seq_shift. cbn [app map].
      now rewrite map_map.
  - intros init_set j k Hjk E. unfold reach in *.
    replace k with (j + (k - j)) by lia.
    apply reach_loop_stable; [reflexivity|exact E].
Qed.

End ReachFacts.

(** ** The sample engine *)

Lemma line_symbolic_laws : SymbolicLaws line_algebra.
Proof. constructor; intros; simpl; unfold d_zero; simpl; lia. Qed.

Lemma line_set_laws : SetLaws line_env (@In Z).
Proof.
  constructor; simpl.
  - intros theta [].
  - intros theta U V. apply in_app_iff.
  - intros theta U V. rewrite filter_In, existsb_exists. split.
    + intros [HU [x [HV E]]]. apply Z.eqb_eq in E. subst. auto.
    + intros [HU HV]. split; [exact HU|]. exists theta. split; [exact HV|apply Z.eqb_refl].
  - intros init e U theta.
    destruct (forallb _ _); [trivial|intros []].
  - intros init e U U' S theta.
    destruct (forallb _ _); [apply S|intros []].
Qed.

(** The parameter sets [{1}] and [{1, 2}], the initial set [{1}] and the
    formula "[x <= 1] at time 1" for the dynamics [x' = theta * x]: from
    [{1}] the synthesis keeps [1]; from [{1, 2}] the initial set is
    transformed under both parameters into [[1, 2]], on which the atom
    fails, and nothing is kept. *)
Lemma synthesize_not_monotone :
  (forall theta : Z, In theta [1%Z] -> In theta [1%Z; 2%Z]) /\
  synthesize line_env line_sapo at_most_one_next (1, 1)%Z [1%Z] = Done [1%Z] /\
  synthesize line_env line_sapo at_most_one_next (1, 1)%Z [1%Z; 2%Z] = Done [] /\
  ~ (forall theta : Z, In theta [1%Z] -> In theta []).
Proof.
  split; [|split; [|split]].
  - intros theta [<-|[]]. now left.
  - reflexivity.
  - reflexivity.
  - intros M. exact (M 1%Z (or_introl eq_refl)).
Qed.

Lemma synthesize_refines_witness :
  exists R, synthesize line_env line_sapo at_most_one_next (1, 1)%Z [1%Z; 2%Z] = Done R /\
            forall theta, In theta R -> In theta [1%Z; 2%Z].
Proof.
  exact (proj1 (proj2 (synthesize_refines line_sapo line_set_laws))
           eq_refl at_most_one_next (1, 1)%Z [1%Z; 2%Z] eq_refl).
Defined.

Lemma synthesize_rejects_assumptions_witness :
  synthesize line_env line_sapo_assuming at_most_one_next (1, 1)%Z [1%Z]
    = Fail assumptions_not_supported /\
  exists R, synthesize line_env line_sapo at_most_one_next (1, 1)%Z [1%Z] = Done R.
Proof.
  split.
  - apply (proj1 (synthesize_rejects_assumptions line_env line_sapo_assuming)).
    discriminate.
  - exact (proj1 (proj2 (proj2 (synthesize_rejects_assumptions line_env line_sapo)))
             eq_refl at_most_one_next (1, 1)%Z [1%Z] eq_refl).
Defined.

Lemma synthesize_eventually_as_until_witness :
  @atom_holds exactZ line_algebra (expr_of_int (-1)) stays_at_zero = true.
Proof.
  exact (proj2 (synthesize_eventually_as_until line_env line_sapo 0 0
                  (@Atom exactZ line_algebra (0, 0)%Z) (1, 1)%Z [])
           exactZ_order line_symbolic_laws stays_at_zero).
Defined.

(** From [[0, 1]] with [x' = x + 1] under the assumption [x <= 2]: the
    third step leaves nothing, and the flowpipe for ten steps is the one
    for three. *)
Lemma reach_drops_empty_and_stops_witness :
  reach line_env line_sapo_assuming (0, 1)%Z 10
  = reach line_env line_sapo_assuming (0, 1)%Z 3.
Proof.
  apply (proj2 (proj2 (reach_drops_empty_and_stops line_env line_sapo_assuming))).
  - repeat constructor.
  - reflexivity.
Defined.

(** The same run, union by union: the step from [[2]] drops the only
    transformed bundle, which the assumption leaves empty, and the loop
    stops after three of the ten steps. *)
Example reach_line_run :
  reach line_env line_sapo_assuming (0, 1)%Z 10
  = [[0; 1]; [1; 2]; [2]; []]%Z /\
  map (reached_after line_env line_sapo_assuming (0, 1)%Z) (seq 0 4)
  = [[0; 1]; [1; 2]; [2]; []]%Z /\
  kept_images line_env line_sapo_assuming
    (bundles_after line_env line_sapo_assuming (0, 1)%Z 2) = [].
Proof. repeat split. Qed.

(** ** Positive normal form *)

Section PNFFacts.
Context `{SymbolicAlgebra}.

Lemma PNF_under_negation_free (formula : STL) :
  forall negated, negation_free (PNF_under negated formula) = true.
Proof.
  induction formula as [e|l IHl r IHr|l IHl r IHr|l IHl a b r IHr|a b f IHf|a b f IHf|f IHf];
    intros [|]; simpl; rewrite ?IHl, ?IHr, ?IHf; reflexivity.
Qed.

Section Unfolding.
Variable Q : trajectory -> Prop.
Hypothesis Q_advance : forall sigma, Q sigma -> Q (advance sigma).

Lemma until_holds_ext (L L' R R' : trajectory -> bool) :
  (forall sigma, Q sigma -> L sigma = L' sigma) ->
  (forall sigma, Q sigma -> R sigma = R' sigma) ->
  forall fuel a b time sigma, Q sigma ->
    until_holds fuel L R a b time sigma = until_holds fuel L' R' a b time sigma.
Proof.
  intros HL HR fuel a b.
  induction fuel as [|fuel IH]; intros time sigma Hq; simpl;
    rewrite (HL sigma Hq), (HR sigma Hq); [reflexivity|].
  rewrite (IH (time + 1)%Z (advance sigma) (Q_advance Hq)). reflexivity.
Qed.

Lemma always_holds_ext (F F' : trajectory -> bool) :
  (forall sigma, Q sigma -> F sigma = F' sigma) ->
  forall fuel a b time sigma, Q sigma ->
    always_holds fuel F a b time sigma = always_holds fuel F' a b time sigma.
Proof.
  intros HF fuel a b.
  induction fuel as [|fuel IH]; intros time sigma Hq; simpl;
    rewrite (HF sigma Hq); [reflexivity|].
  rewrite (IH (time + 1)%Z (advance sigma) (Q_advance Hq)). reflexivity.
Qed.

End Unfolding.

(** On a non-empty interval, Always is the dual of the Until whose left
    side is true. *)
Lemma always_until_dual (F : trajectory -> bool) (a b : Z) :
  (a <= b)%Z ->
  forall fuel time sigma, (b - time <= Z.of_nat fuel)%Z ->
    always_holds fuel F a b time sigma
    = negb (until_holds fuel (fun _ => true) (fun s => negb (F s)) a b time sigma).
Proof.
  intros Hab. induction fuel as [|fuel IH]; intros time sigma Hf; simpl;
    (destruct (b <? a)%Z eqn:Eba; [apply Z.ltb_lt in Eba; lia|]);
    destruct (time <? a)%Z eqn:Eta; destruct (time <? b)%Z eqn:Etb;
    try (apply Z.ltb_lt in Eta; lia);
    try (apply Z.ltb_lt in Etb; lia);
    rewrite ?IH by lia;
    repeat match goal with
    | |- context [until_holds ?n ?l ?r ?x ?y ?t ?s] =>
        destruct (until_holds n l r x y t s)
    end;
    destruct (F sigma); reflexivity.
Qed.

(** On a non-empty interval that has begun, the negation of an Until is
    the rule of section 4.H. *)
Lemma until_negation (L R : trajectory -> bool) (a b : Z) :
  (a <= b)%Z ->
  forall fuel time sigma, (a <= time)%Z -> (b - time <= Z.of_nat fuel)%Z ->
    negb (until_holds fuel L R a b time sigma)
    = until_holds fuel (fun s => negb (R s)) (fun s => negb (L s) && negb (R s))
                  a b time sigma
      || always_holds fuel (fun s => negb (R s)) a b time sigma.
Proof.
  intros Hab. induction fuel as [|fuel IH]; intros time sigma Ht Hf; simpl;
    (destruct (b <? a)%Z eqn:Eba; [apply Z.ltb_lt in Eba; lia|]);
    (destruct (time <? a)%Z eqn:Eta; [apply Z.ltb_lt in Eta; lia|]);
    destruct (time <? b)%Z eqn:Etb;
    try (apply Z.ltb_lt in Etb; lia);
    try (destruct (L sigma), (R sigma); reflexivity).
  rewrite <- (negb_involutive (until_holds fuel L R a b (time + 1) (advance sigma))).
  rewrite IH by lia.
  destruct (L sigma), (R sigma),
    (until_holds fuel (fun s => negb (R s)) (fun s => negb (L s) && negb (R s))
                 a b (time + 1) (advance sigma)),
    (always_holds fuel (fun s => negb (R s)) a b (time + 1) (advance sigma));
    reflexivity.
Qed.

Variable order : ExactOrder _.
Variable laws : SymbolicLaws _.

Lemma true_atom_holds (sigma : trajectory) :
  atom_holds (expr_of_int (-1)) sigma = true.
Proof.
  unfold atom_holds. rewrite (value_of_int laws). apply (minus_one_nonpos order).
Qed.

Lemma never_zero_advance (formula : STL) (sigma : trajectory) :
  never_zero formula sigma -> never_zero formula (advance sigma).
Proof. intros N e t He. apply (N e (S t) He). Qed.

Lemma never_zero_sub (f g : STL) (sigma : trajectory) :
  (forall e, In e (atoms g) -> In e (atoms f)) ->
  never_zero f sigma -> never_zero g sigma.
Proof. intros S N e t He. apply N. now apply S. Qed.

(** Under the two provisos the rewrite keeps the truth value of a formula
    that stands under an even number of negations and flips it under an
    odd number. *)
Lemma PNF_under_exact (formula : STL) :
  forall negated sigma,
    PNF_exact_under negated formula = true ->
    never_zero formula sigma ->
    holds (PNF_under negated formula) sigma
    = if negated then negb (holds formula sigma) else holds formula sigma.
Proof.
  induction formula as [e|l IHl r IHr|l IHl r IHr|l IHl a b r IHr|a b f IHf|a b f IHf|f IHf];
    intros negated sigma Ex Nz; simpl in Ex.
  - (* Atom *)
    destruct negated; simpl; [|reflexivity].
    unfold atom_holds. rewrite (value_neg laws).
    apply (opp_nonpos order). apply Nz. now left.
  - (* Conjunction *)
    apply andb_true_iff in Ex. destruct Ex as [El Er].
    assert (Nl : never_zero l sigma)
      by (apply (never_zero_sub (f := Conjunction l r)); [|exact Nz];
          intros e He; simpl; apply in_app_iff; auto).
    assert (Nr : never_zero r sigma)
      by (apply (never_zero_sub (f := Conjunction l r)); [|exact Nz];
          intros e He; simpl; apply in_app_iff; auto).
    destruct negated; simpl; rewrite (IHl _ _ El Nl), (IHr _ _ Er Nr);
      [now rewrite negb_andb|reflexivity].
  - (* Disjunction *)
    apply andb_true_iff in Ex. destruct Ex as [El Er].
    assert (Nl : never_zero l sigma)
      by (apply (never_zero_sub (f := Disjunction l r)); [|exact Nz];
          intros e He; simpl; apply in_app_iff; auto).
    assert (Nr : never_zero r sigma)
      by (apply (never_zero_sub (f := Disjunction l r)); [|exact Nz];
          intros e He; simpl; apply in_app_iff; auto).
    destruct negated; simpl; rewrite (IHl _ _ El Nl), (IHr _ _ Er Nr);
      [now rewrite negb_orb|reflexivity].
  - (* Until *)
    apply andb_true_iff in Ex. destruct Ex as [Ex Er].
    apply andb_true_iff in Ex. destruct Ex as [Eab El].
    set (Q := fun s : trajectory => never_zero l s /\ never_zero r s).
    assert (Qadv : forall s, Q s -> Q (advance s))
      by (intros s [A B]; split; now apply never_zero_advance).
    assert (Qs : Q sigma).
    { split; (apply (never_zero_sub (f := Until l a b r)); [|exact Nz]);
        intros e He; simpl; apply in_app_iff; auto. }
    destruct negated; simpl.
    + apply andb_true_iff in Eab. destruct Eab as [Eab Ea0].
      apply Z.leb_le in Eab, Ea0.
      rewrite (until_negation (holds l) (holds r) Eab) by lia.
      f_equal.
      * apply (until_holds_ext Q Qadv); [| |exact Qs].
        -- intros s [A B]. exact (IHr true s Er B).
        -- intros s [A B]. simpl. now rewrite (IHl true s El A), (IHr true s Er B).
      * apply (always_holds_ext Q Qadv); [|exact Qs].
        intros s [A B]. exact (IHr true s Er B).
    + apply (until_holds_ext Q Qadv); [| |exact Qs].
      * intros s [A B]. exact (IHl false s El A).
      * intros s [A B]. exact (IHr false s Er B).
  - (* Always *)
    apply andb_true_iff in Ex. destruct Ex as [Eab Ef].
    assert (Qadv : forall s, never_zero f s -> never_zero f (advance s))
      by (intros s; apply never_zero_advance).
    assert (Qs : never_zero f sigma) by exact Nz.
    destruct negated; simpl.
    + apply Z.leb_le in Eab.
      rewrite (always_until_dual (holds f) Eab) by lia.
      rewrite negb_involutive.
      apply (until_holds_ext (never_zero f) Qadv); [| |exact Qs].
      * intros s _. apply true_atom_holds.
      * intros s A. exact (IHf true s Ef A).
    + apply (always_holds_ext (never_zero f) Qadv); [|exact Qs].
      intros s A. exact (IHf false s Ef A).
  - (* Eventually *)
    apply andb_true_iff in Ex. destruct Ex as [Eab Ef].
    assert (Qadv : forall s, never_zero f s -> never_zero f (advance s))
      by (intros s; apply never_zero_advance).
    assert (Qs : never_zero f sigma) by exact Nz.
    destruct negated; simpl.
    + apply Z.leb_le in Eab.
      rewrite (@always_holds_ext (never_zero f) Qadv
                 (holds (PNF_under true f)) (fun s => negb (holds f s))
                 (fun s A => IHf true s Ef A) (Z.to_nat b) a b 0%Z sigma Qs).
      rewrite (always_until_dual (fun s => negb (holds f s)) Eab) by lia. f_equal.
      apply (until_holds_ext (never_zero f) Qadv); [| |exact Qs].
      * intros s _. symmetry. apply true_atom_holds.
      * intros s _. apply negb_involutive.
    + apply (until_holds_ext (never_zero f) Qadv); [| |exact Qs].
      * reflexivity.
      * intros s A. exact (IHf false s Ef A).
  - (* Negation *)
    assert (Nf : never_zero f sigma) by exact Nz.
    simpl. rewrite (IHf _ _ Ex Nf).
    destruct negated; simpl; [now rewrite negb_involutive|reflexivity].
Qed.

End PNFFacts.

(** C5, as the rewrite of section 4.H has it.  For every formula, negated
    Until included, the positive normal form holds no [Negation] node.  It
    has the truth value of the formula on every trajectory along which no
    atom of the formula takes the value 0, when every temporal operator
    under an odd number of negations has a non-empty interval and every
    Until under an odd number of negations starts at [a <= 0]. *)
Theorem get_PNF_negation_free_and_exact `{SymbolicAlgebra} (formula : STL) :
  negation_free (get_PNF formula) = true /\
  (ExactOrder _ -> SymbolicLaws _ ->
   PNF_exact_under false formula = true ->
   forall sigma, never_zero formula sigma ->
     holds (get_PNF formula) sigma = holds formula sigma).
Proof.
  split.
  - apply PNF_under_negation_free.
  - intros O L Ex sigma Nz. exact (@PNF_under_exact _ _ O L formula false sigma Ex Nz).
Qed.

(** The rewrite is not an equivalence: an atom that is exactly 0 satisfies
    both [x <= 0] and the rewritten negation [-x <= 0]; the rule for a
    negated Until over [[1, 1]] forgets that the left side must hold before
    the interval; on an empty interval both Always and its rewritten
    negation are false. *)
Lemma get_PNF_not_equivalent :
  holds (get_PNF not_nonpositive) stays_at_zero <> holds not_nonpositive stays_at_zero /\
  (never_zero not_until_late stays_at_zero /\
   holds (get_PNF not_until_late) stays_at_zero <> holds not_until_late stays_at_zero) /\
  (never_zero not_always_empty stays_at_zero /\
   holds (get_PNF not_always_empty) stays_at_zero
     <> holds not_always_empty stays_at_zero).
Proof.
  split; [vm_compute; discriminate|].
  split; (split; [|vm_compute; discriminate]).
  - intros e t [<-|[<-|[]]]; vm_compute; discriminate.
  - intros e t [<-|[]]; vm_compute; discriminate.
Qed.

Lemma get_PNF_negation_free_and_exact_witness :
  holds (get_PNF not_until_now) even_steps = holds not_until_now even_steps.
Proof.
  apply (proj2 (get_PNF_negation_free_and_exact not_until_now)
           exactZ_order line_symbolic_laws eq_refl).
  intros e t [<-|[<-|[]]];
    cbv [expr_value line_algebra even_steps fst snd d_zero d_of_Z exactZ]; lia.
Defined.
(** ** Loops over vectors *)

Lemma foldM_seq_first (S : Type) (f : S -> nat -> outcome S) (n : nat) (s : S) :
  0 < n -> foldM f (seq 0 n) s = (s' <- f s 0 ;; foldM f (seq 1 (n - 1)) s').
Proof. destruct n; [lia|]. intros _. simpl. now rewrite Nat.sub_0_r. Qed.

Lemma foldM_concat (A S : Type) (f : S -> A -> outcome S) (ll : list (list A)) (s : S) :
  foldM (fun s l => foldM f l s) ll s = foldM f (concat ll) s.
Proof.
  revert s. induction ll as [|l ll IH]; intros s; simpl; [reflexivity|].
  rewrite foldM_app. destruct (foldM f l s); simpl; [apply IH|reflexivity].
Qed.

Lemma nth_error_ext (A : Type) (l l' : list A) :
  (forall i, nth_error l i = nth_error l' i) -> l = l'.
Proof.
  revert l'. induction l as [|a l IH]; intros [|a' l'] E.
  - reflexivity.
  - specialize (E 0). discriminate.
  - specialize (E 0). discriminate.
  - pose proof (E 0) as E0. simpl in E0. injection E0 as ->.
    f_equal. apply IH. intros i. exact (E (S i)).
Qed.

Lemma nth_error_map_seq (A : Type) (g : nat -> A) (n i : nat) :
  nth_error (map g (seq 0 n)) i = if i <? n then Some (g i) else None.
Proof.
  destruct (Nat.ltb_spec i n) as [L|L].
  - rewrite nth_error_map, nth_error_seq.
    destruct (Nat.ltb_spec i n); [reflexivity|lia].
  - apply nth_error_None. now rewrite length_map, length_seq.
Qed.

Lemma assign_map_seq (g : nat -> Z) (n k : nat) (x : Z) :
  k < n ->
  assign (map g (seq 0 n)) k x
  = Done (map (fun i => if i =? k then x else g i) (seq 0 n)).
Proof.
  intros L.
  destruct (@assign_spec _ (map g (seq 0 n)) k x) as (v' & -> & Len & Hk & Ho).
  { now rewrite length_map, length_seq. }
  f_equal. apply nth_error_ext. intros i.
  rewrite nth_error_map_seq.
  rewrite length_map, length_seq in Len.
  destruct (Nat.eq_dec i k) as [->|N].
  - rewrite Hk. destruct (Nat.ltb_spec k n); [|lia]. now rewrite Nat.eqb_refl.
  - rewrite (Ho i N), nth_error_map_seq.
    destruct (i <? n); [|reflexivity]. now rewrite (proj2 (Nat.eqb_neq i k) N).
Qed.

Lemma map_seq_ext (A : Type) (g g' : nat -> A) (n : nat) :
  (forall i, i < n -> g i = g' i) -> map g (seq 0 n) = map g' (seq 0 n).
Proof. intros E. apply map_ext_in. intros i Hi. apply in_seq in Hi. apply E. lia. Qed.

(** ** Trimming the unused directions *)

Section TrimFacts.
Context `{Scalar}.
Variable T : list (list Z).

Local Abbreviation in_range n :=
  (fun e => (0 <=? e)%Z && (e <? Z.of_nat n)%Z).
Local Abbreviation mark := (fun new_pos dir => assign_int new_pos dir 1%Z).

Lemma mark_entries (n : nat) (es : list Z) (g : nat -> Z) :
  forallb (in_range n) es = true ->
  foldM mark es (map g (seq 0 n))
  = Done (map (fun i => if existsb (Z.eqb (Z.of_nat i)) es then 1%Z else g i)
              (seq 0 n)).
Proof.
  revert g. induction es as [|e es IH]; intros g R; simpl.
  - reflexivity.
  - simpl in R. apply andb_true_iff in R as [Re R].
    apply andb_true_iff in Re as [R0 Rn].
    apply Z.leb_le in R0. apply Z.ltb_lt in Rn.
    unfold assign_int. destruct (Z.ltb_spec e 0); [lia|].
    rewrite assign_map_seq by lia. simpl. rewrite IH by exact R.
    f_equal. apply map_seq_ext. intros i _.
    destruct (Z.eqb_spec (Z.of_nat i) e) as [E|E];
      destruct (Nat.eqb_spec i (Z.to_nat e)) as [E'|E']; try lia; simpl;
      destruct (existsb (Z.eqb (Z.of_nat i)) es); reflexivity.
Qed.

Lemma mark_entries_Fail (es : list Z) (new_pos : list Z) :
  forallb (in_range (length new_pos)) es = false ->
  foldM mark es new_pos = Fail out_of_range.
Proof.
  revert new_pos. induction es as [|e es IH]; intros new_pos R; simpl in *.
  - discriminate.
  - unfold assign_int.
    destruct (Z.ltb_spec e 0) as [L|L]; [reflexivity|].
    destruct (Nat.lt_ge_cases (Z.to_nat e) (length new_pos)) as [L'|L'].
    + destruct (assign_spec new_pos 1%Z L') as (v' & -> & Len & _). simpl.
      apply IH. rewrite Len.
      destruct (Z.leb_spec 0 e); [|lia].
      destruct (Z.ltb_spec e (Z.of_nat (length new_pos))); [|lia].
      exact R.
    + now rewrite assign_Fail.
Qed.

Lemma mark_used_spec (n : nat) :
  mark_used T (repeat 0%Z n)
  = if entries_in_range T n
    then Done (map (fun i => if used_by T i then 1%Z else 0%Z) (seq 0 n))
    else Fail out_of_range.
Proof.
  unfold mark_used, entries_in_range, used_by.
  rewrite (foldM_concat mark).
  destruct (forallb (in_range n) (concat T)) eqn:R.
  - replace (repeat 0%Z n) with (map (fun _ : nat => 0%Z) (seq 0 n)).
    + now apply mark_entries.
    + clear. generalize 0 at 1. induction n; intros s; simpl; [reflexivity|].
      now rewrite IHn.
  - apply mark_entries_Fail. now rewrite repeat_length.
Qed.

Lemma used_before_S (k : nat) :
  used_before T (S k) = used_before T k + (if used_by T k then 1 else 0).
Proof.
  unfold used_before. rewrite seq_S, filter_app, length_app. simpl.
  now destruct (used_by T k).
Qed.

Lemma used_before_le (j k : nat) : j <= k -> used_before T j <= used_before T k.
Proof.
  induction 1 as [|k _ IH]; [lia|]. rewrite used_before_S. lia.
Qed.

Lemma used_before_bound (k : nat) : used_before T k <= k.
Proof.
  induction k as [|k IH]; [reflexivity|]. rewrite used_before_S.
  destruct (used_by T k); lia.
Qed.

Lemma used_before_lt (j k : nat) :
  j < k -> used_by T j = true -> used_before T j < used_before T k.
Proof.
  intros L U. pose proof (@used_before_le (S j) k L) as M.
  rewrite used_before_S, U in M. lia.
Qed.

Local Abbreviation marks := (fun i => if used_by T i then 1%Z else 0%Z).
Local Abbreviation sums := (fun i => Z.of_nat (used_before T (S i))).

Lemma partial_sums_from (n m : nat) :
  m <= n - 1 ->
  foldM (fun new_pos i =>
           a <- index new_pos i ;;
           b <- index new_pos (i - 1) ;;
           assign new_pos i (a + b)%Z)
        (seq 1 m) (map marks (seq 0 n))
  = Done (map (fun i => if i <=? m then sums i else marks i) (seq 0 n)).
Proof.
  induction m as [|m IH]; intros L.
  - simpl. f_equal. apply map_seq_ext. intros i _.
    destruct (Nat.leb_spec i 0) as [L0|L0]; [|reflexivity].
    replace i with 0 by lia. rewrite used_before_S. simpl.
    now destruct (used_by T 0).
  - rewrite seq_S, foldM_app, IH by lia. simpl.
    rewrite (@index_Done _ _ (S m) (marks (S m))).
    2:{ rewrite nth_error_map_seq.
        destruct (Nat.ltb_spec (S m) n); [|lia].
        destruct (Nat.leb_spec (S m) m); [lia|reflexivity]. }
    simpl. rewrite Nat.sub_0_r.
    rewrite (@index_Done _ _ m (sums m)).
    2:{ rewrite nth_error_map_seq.
        destruct (Nat.ltb_spec m n); [|lia].
        destruct (Nat.leb_spec m m); [reflexivity|lia]. }
    simpl. rewrite assign_map_seq by lia. simpl. f_equal.
    apply map_seq_ext. intros i _.
    destruct (Nat.eqb_spec i (S m)) as [->|N].
    + destruct (Nat.leb_spec (S m) (S m)); [|lia].
      rewrite (used_before_S (S m)). destruct (used_by T (S m)); lia.
    + destruct (Nat.leb_spec i m), (Nat.leb_spec i (S m)); try lia; reflexivity.
Qed.

Lemma partial_sums_spec (n : nat) :
  partial_sums n (map marks (seq 0 n)) = Done (map sums (seq 0 n)).
Proof.
  unfold partial_sums. rewrite partial_sums_from by lia. f_equal.
  apply map_seq_ext. intros i L.
  destruct (Nat.leb_spec i (n - 1)); [reflexivity|lia].
Qed.


Lemma is_used_direction_spec (n k : nat) :
  k < n -> (N.of_nat n <= 4294967295)%N ->
  is_used_direction (map sums (seq 0 n)) k
  = if (k =? 0) && negb (used_by T 0) then Fail out_of_range
    else Done (used_by T k).
Proof.
  intros L Small. unfold is_used_direction.
  rewrite (@index_Done _ _ k (sums k)).
  2:{ rewrite nth_error_map_seq. now destruct (Nat.ltb_spec k n); [|lia]. }
  destruct k as [|k]; simpl.
  - rewrite (used_before_S 0). unfold used_before. simpl.
    destruct (used_by T 0); simpl; [reflexivity|].
    unfold index_N, unsigned_pred. simpl.
    rewrite length_map, length_seq.
    now destruct (N.leb_spec (N.of_nat n) 4294967295); [|lia].
  - unfold index_N, unsigned_pred. simpl. rewrite Nat.sub_0_r.
    rewrite length_map, length_seq.
    destruct (N.leb_spec (N.of_nat n) (N.of_nat k)); [lia|].
    rewrite Nnat.Nat2N.id.
    rewrite (@index_Done _ _ k (sums k)).
    2:{ rewrite nth_error_map_seq. now destruct (Nat.ltb_spec k n); [|lia]. }
    simpl. f_equal. rewrite (used_before_S (S k)).
    destruct (used_by T (S k)); simpl.
    + destruct (Z.eqb_spec (Z.of_nat (used_before T (S k) + 1))
                           (Z.of_nat (used_before T (S k)))); [lia|reflexivity].
    + rewrite Nat.add_0_r. now rewrite Z.eqb_refl.
Qed.

Local Abbreviation compacted orig k cur :=
  (length cur = length orig /\
   (forall j, j < k -> used_by T j = true ->
              nth_error cur (used_before T j) = nth_error orig j) /\
   (forall i, k <= i -> nth_error cur i = nth_error orig i)).

Lemma compacted_move (A : Type) (orig cur : list A) (k : nat) :
  k < length orig -> used_by T k = true -> compacted orig k cur ->
  exists cur',
    (x <- index cur k ;; assign_int cur (sums k - 1) x) = Done cur' /\
    compacted orig (S k) cur'.
Proof.
  intros L U (Len & Moved & Kept).
  destruct (nth_error orig k) as [x|] eqn:E.
  2:{ apply nth_error_None in E. lia. }
  rewrite (@index_Done _ _ k x) by now rewrite Kept.
  simpl. unfold assign_int.
  replace (sums k - 1)%Z with (Z.of_nat (used_before T k))
    by (rewrite used_before_S, U; lia).
  destruct (Z.ltb_spec (Z.of_nat (used_before T k)) 0); [lia|].
  rewrite Nat2Z.id.
  pose proof (used_before_bound k) as B.
  destruct (@assign_spec _ cur (used_before T k) x ltac:(lia))
    as (cur' & -> & Len' & Here & Others).
  exists cur'. split; [reflexivity|]. split; [lia|]. split.
  - intros j Lj Uj. destruct (Nat.eq_dec j k) as [->|N].
    + now rewrite Here.
    + rewrite Others; [apply Moved; [lia|exact Uj]|].
      pose proof (@used_before_lt j k ltac:(lia) Uj). lia.
  - intros i Li. rewrite Others by lia. apply Kept. lia.
Qed.

Lemma compacted_skip (A : Type) (orig cur : list A) (k : nat) :
  used_by T k = false -> compacted orig k cur -> compacted orig (S k) cur.
Proof.
  intros U (Len & Moved & Kept). split; [exact Len|]. split.
  - intros j Lj Uj. apply Moved; [|exact Uj].
    destruct (Nat.eq_dec j k) as [->|N]; [congruence|lia].
  - intros i Li. apply Kept. lia.
Qed.

Lemma move_all (D : Matrix) (LB UB : Vector) (n : nat) :
  length D = n -> length LB = n -> length UB = n ->
  (N.of_nat n <= 4294967295)%N -> used_by T 0 = true ->
  forall k, k <= n ->
    exists Dk Lk Uk,
      foldM (move_direction (map sums (seq 0 n))) (seq 0 k) (D, LB, UB)
      = Done (Dk, Lk, Uk) /\
      compacted D k Dk /\ compacted LB k Lk /\ compacted UB k Uk.
Proof.
  intros LD LL LU Small U0. induction k as [|k IH]; intros Lk.
  - exists D, LB, UB. split; [reflexivity|].
    repeat split; try reflexivity; intros; lia.
  - destruct (IH ltac:(lia)) as (Dk & Lk' & Uk & E & CD & CL & CU).
    clear IH. rewrite seq_S, foldM_app, E. simpl.
    rewrite is_used_direction_spec by lia.
    replace ((k =? 0) && negb (used_by T 0)) with false
      by (rewrite U0; now rewrite andb_false_r).
    simpl. destruct (used_by T k) eqn:Uk'.
    + rewrite (@index_Done _ _ k (sums k)).
      2:{ rewrite nth_error_map_seq. now destruct (Nat.ltb_spec k n); [|lia]. }
      simpl.
      destruct (@compacted_move _ D Dk k ltac:(lia) Uk' CD) as (D' & ED & CD').
      destruct (@compacted_move _ LB Lk' k ltac:(lia) Uk' CL) as (L' & EL & CL').
      destruct (@compacted_move _ UB Uk k ltac:(lia) Uk' CU) as (U' & EU & CU').
      destruct (index Dk k) as [d|]; cbn [bind] in ED |- *; [|discriminate].
      rewrite ED. cbn [bind].
      destruct (index Lk' k) as [l|]; cbn [bind] in EL |- *; [|discriminate].
      rewrite EL. cbn [bind].
      destruct (index Uk k) as [u|]; cbn [bind] in EU |- *; [|discriminate].
      rewrite EU. cbn [bind].
      exists D', L', U'. split; [reflexivity|]. now repeat split.
    + exists Dk, Lk', Uk. split; [reflexivity|].
      split; [|split]; now apply compacted_skip.
Qed.

Lemma resize_compacted (A : Type) (orig cur : list A) (fill : A) :
  compacted orig (length orig) cur ->
  let res := resize cur (used_before T (length orig)) fill in
  length res = used_before T (length orig) /\
  (forall j, j < length orig -> used_by T j = true ->
             nth_error res (used_before T j) = nth_error orig j).
Proof.
  intros (Len & Moved & _) res. subst res. unfold resize.
  pose proof (used_before_bound (length orig)) as B.
  replace (used_before T (length orig) - length cur) with 0 by lia.
  simpl. rewrite app_nil_r. split.
  - rewrite length_firstn. lia.
  - intros j Lj Uj. rewrite nth_error_firstn.
    pose proof (@used_before_lt j (length orig) Lj Uj) as Lt.
    destruct (Nat.ltb_spec (used_before T j) (used_before T (length orig))); [|lia].
    now apply Moved.
Qed.

Lemma mapM_Done_in (A B : Type) (f : A -> outcome B) (g : A -> B) (l : list A) :
  (forall a, In a l -> f a = Done (g a)) -> mapM f l = Done (map g l).
Proof.
  intros E. rewrite (@mapM_ext _ _ f (fun a => Done (g a)) l E).
  apply mapM_Done_map.
Qed.

Lemma in_range_used (n : nat) (e : Z) :
  entries_in_range T n = true -> In e (concat T) ->
  (0 <= e < Z.of_nat n)%Z /\ used_by T (Z.to_nat e) = true.
Proof.
  intros R I. unfold entries_in_range in R.
  rewrite forallb_forall in R. specialize (R e I).
  apply andb_true_iff in R as [R0 Rn].
  apply Z.leb_le in R0. apply Z.ltb_lt in Rn. split; [lia|].
  unfold used_by. apply existsb_exists. exists e. split; [exact I|].
  apply Z.eqb_eq. lia.
Qed.

Lemma remap_spec (n : nat) :
  entries_in_range T n = true ->
  mapM (mapM (fun dir => p <- index_int (map sums (seq 0 n)) dir ;; Done (p - 1)%Z)) T
  = Done (map (map (fun e => Z.of_nat (used_before T (Z.to_nat e)))) T).
Proof.
  intros R. apply mapM_Done_in. intros row Hrow.
  apply mapM_Done_in. intros e He.
  assert (In e (concat T)) as I by (apply in_concat; eauto).
  destruct (@in_range_used _ _ R I) as [Re Ue].
  unfold index_int. destruct (Z.ltb_spec e 0); [lia|].
  rewrite (@index_Done _ _ (Z.to_nat e) (sums (Z.to_nat e))).
  2:{ rewrite nth_error_map_seq.
      now destruct (Nat.ltb_spec (Z.to_nat e) n); [|lia]. }
  simpl. f_equal. rewrite used_before_S, Ue. lia.
Qed.

(** The result of [trim_unused_directions] on an input it accepts. *)
Lemma trim_result (D : Matrix) (LB UB : Vector) :
  length LB = length D -> length UB = length D ->
  (N.of_nat (length D) <= 4294967295)%N ->
  entries_in_range T (length D) = true -> used_by T 0 = true ->
  exists D' LB' UB',
    trim_unused_directions D LB UB T
    = Done (D', LB', UB',
            map (map (fun e => Z.of_nat (used_before T (Z.to_nat e)))) T) /\
    (length D' = used_before T (length D) /\
     forall j, j < length D -> used_by T j = true ->
               nth_error D' (used_before T j) = nth_error D j) /\
    (length LB' = used_before T (length D) /\
     forall j, j < length D -> used_by T j = true ->
               nth_error LB' (used_before T j) = nth_error LB j) /\
    (length UB' = used_before T (length D) /\
     forall j, j < length D -> used_by T j = true ->
               nth_error UB' (used_before T j) = nth_error UB j).
Proof.
  intros LL LU Small R U0.
  assert (0 < length D) as Pos.
  { unfold used_by in U0. apply existsb_exists in U0 as (e & I & E).
    apply Z.eqb_eq in E. destruct (@in_range_used _ _ R I) as [Re _]. lia. }
  unfold trim_unused_directions.
  rewrite mark_used_spec, R. simpl.
  rewrite partial_sums_spec. simpl.
  unfold index_N, size_pred. rewrite length_map, length_seq.
  destruct (Nat.eqb_spec (length D) 0); [lia|].
  destruct (N.leb_spec (N.of_nat (length D)) (N.of_nat (length D - 1))); [lia|].
  rewrite Nnat.Nat2N.id.
  rewrite (@index_Done _ _ (length D - 1) (sums (length D - 1))).
  2:{ rewrite nth_error_map_seq.
      now destruct (Nat.ltb_spec (length D - 1) (length D)); [|lia]. }
  simpl.
  replace (S (length D - 1)) with (length D) by lia.
  pose proof (used_before_bound (length D)) as B.
  rewrite Z.mod_small by lia. rewrite Nat2Z.id.
  destruct (@move_all D LB UB (length D) eq_refl LL LU Small U0 (length D) (le_n _))
    as (Dn & Ln & Un & -> & CD & CL & CU).
  simpl. rewrite remap_spec by exact R. simpl.
  do 3 eexists. split; [reflexivity|].
  pose proof (@resize_compacted _ D Dn [] CD) as RD.
  rewrite <- LL in CL.
  pose proof (@resize_compacted _ LB Ln d_zero CL) as RL. rewrite LL in RL.
  rewrite <- LU in CU.
  pose proof (@resize_compacted _ UB Un d_zero CU) as RU. rewrite LU in RU.
  split; [exact RD|]. split; [exact RL|exact RU].
Qed.

(** What happens on the other inputs. *)
Lemma trim_undefined (D : Matrix) (LB UB : Vector) :
  (N.of_nat (length D) <= 4294967295)%N ->
  entries_in_range T (length D) && used_by T 0 = false ->
  trim_unused_directions D LB UB T = Fail out_of_range.
Proof.
  intros Small No. unfold trim_unused_directions.
  rewrite mark_used_spec.
  destruct (entries_in_range T (length D)) eqn:R; [|reflexivity].
  simpl in No. simpl. rewrite partial_sums_spec. simpl.
  unfold index_N, size_pred. rewrite length_map, length_seq.
  destruct (Nat.eqb_spec (length D) 0) as [E|E].
  - rewrite E. reflexivity.
  - destruct (N.leb_spec (N.of_nat (length D)) (N.of_nat (length D - 1))); [lia|].
    rewrite Nnat.Nat2N.id.
    rewrite (@index_Done _ _ (length D - 1) (sums (length D - 1))).
    2:{ rewrite nth_error_map_seq.
        now destruct (Nat.ltb_spec (length D - 1) (length D)); [|lia]. }
    simpl. rewrite foldM_seq_first by lia.
    unfold move_direction at 1.
    rewrite is_used_direction_spec by lia. rewrite No. reflexivity.
Qed.

Lemma used_before_onto (n k : nat) :
  k < used_before T n ->
  exists j, j < n /\ used_by T j = true /\ used_before T j = k.
Proof.
  induction n as [|n IH]; intros L.
  - unfold used_before in L. simpl in L. lia.
  - rewrite used_before_S in L. destruct (used_by T n) eqn:U.
    + destruct (Nat.eq_dec k (used_before T n)) as [->|N].
      * exists n. auto.
      * destruct (IH ltac:(lia)) as (j & Lj & Uj & Ej). exists j. auto.
    + destruct (IH ltac:(lia)) as (j & Lj & Uj & Ej). exists j. auto.
Qed.

Lemma used_before_all (n : nat) :
  (forall j, j < n -> used_by T j = true) -> used_before T n = n.
Proof.
  induction n as [|n IH]; intros All; [reflexivity|].
  rewrite used_before_S, IH, All by auto. lia.
Qed.

End TrimFacts.

(** X1.  [trim_unused_directions] returns exactly when every template entry is
    the index of a direction and direction 0 occurs in some template.  On
    every other input it accesses a vector outside its bounds: an entry
    that is no index is used as one in the first loop, and when no template
    uses direction 0 the test of the third loop reads [new_pos[i - 1]] at
    [i = 0]. *)
Theorem trim_unused_directions_defined `{Scalar}
    (D : Matrix) (LB UB : Vector) (T : list (list Z)) :
  length LB = length D -> length UB = length D ->
  (N.of_nat (length D) <= 4294967295)%N ->
  if entries_in_range T (length D) && used_by T 0
  then exists r, trim_unused_directions D LB UB T = Done r
  else trim_unused_directions D LB UB T = Fail out_of_range.
Proof.
  intros LL LU Small.
  destruct (entries_in_range T (length D) && used_by T 0) eqn:E.
  - apply andb_true_iff in E as [R U0].
    destruct (@trim_result _ T D LB UB LL LU Small R U0) as (D' & LB' & UB' & -> & _).
    eauto.
  - now apply trim_undefined.
Qed.

Lemma trim_unused_directions_defined_witness :
  @trim_unused_directions exactZ three_directions [0; 0; 0]%Z [1; 1; 2]%Z [[1; 2]]%Z
  = Fail out_of_range.
Proof.
  exact (@trim_unused_directions_defined exactZ three_directions
           [0; 0; 0]%Z [1; 1; 2]%Z [[1; 2]]%Z eq_refl eq_refl
           ltac:(vm_compute; discriminate)).
Defined.

(** X2.  After the trim every template entry refers to the direction, the
    lower bound and the upper bound it referred to before: entry [e]
    becomes the number of used directions below [e], and the vectors hold
    at that position what they held at [e]. *)
Theorem trim_unused_directions_keeps_references `{Scalar}
    (D : Matrix) (LB UB : Vector) (T : list (list Z)) :
  length LB = length D -> length UB = length D ->
  (N.of_nat (length D) <= 4294967295)%N ->
  entries_in_range T (length D) = true -> used_by T 0 = true ->
  exists D' LB' UB' T',
    trim_unused_directions D LB UB T = Done (D', LB', UB', T') /\
    T' = map (map (fun e => Z.of_nat (used_before T (Z.to_nat e)))) T /\
    forall row e, In row T -> In e row ->
      let e' := Z.of_nat (used_before T (Z.to_nat e)) in
      index_int D' e' = index_int D e /\
      index_int LB' e' = index_int LB e /\
      index_int UB' e' = index_int UB e.
Proof.
  intros LL LU Small R U0.
  destruct (@trim_result _ T D LB UB LL LU Small R U0)
    as (D' & LB' & UB' & E & (_ & HD) & (_ & HL) & (_ & HU)).
  exists D', LB', UB'. eexists. split; [exact E|]. split; [reflexivity|].
  intros row e Hrow He e'. subst e'.
  assert (In e (concat T)) as I by (apply in_concat; eauto).
  destruct (@in_range_used T _ _ R I) as [Re Ue].
  unfold index_int, index.
  destruct (Z.ltb_spec (Z.of_nat (used_before T (Z.to_nat e))) 0); [lia|].
  destruct (Z.ltb_spec e 0); [lia|].
  rewrite Nat2Z.id.
  rewrite HD, HL, HU by (auto; lia). auto.
Qed.

Lemma trim_unused_directions_keeps_references_witness :
  exists D' LB' UB' T',
    @trim_unused_directions exactZ three_directions [0; 0; 0]%Z [1; 1; 2]%Z [[0; 2]]%Z
    = Done (D', LB', UB', T') /\
    T' = [[0; 1]]%Z /\
    @index_int (list Z) D' 1 = Done [1; 1]%Z /\
    @index_int Z LB' 1 = Done 0%Z /\
    @index_int Z UB' 1 = Done 2%Z.
Proof.
  destruct (@trim_unused_directions_keeps_references exactZ three_directions
              [0; 0; 0]%Z [1; 1; 2]%Z [[0; 2]]%Z eq_refl eq_refl
              ltac:(vm_compute; discriminate) eq_refl eq_refl)
    as (D' & LB' & UB' & T' & E & ET & Ref).
  exists D', LB', UB', T'. split; [exact E|]. split; [exact ET|].
  exact (Ref [0; 2]%Z 2%Z (or_introl eq_refl) (or_intror (or_introl eq_refl))).
Defined.

(** X3.  The trim leaves no unused direction: the three vectors come back with
    one element for each used direction, and every position of theirs
    occurs in the re-mapped templates, whose entries are all in range. *)
Theorem trim_unused_directions_all_used `{Scalar}
    (D : Matrix) (LB UB : Vector) (T : list (list Z)) :
  length LB = length D -> length UB = length D ->
  (N.of_nat (length D) <= 4294967295)%N ->
  entries_in_range T (length D) = true -> used_by T 0 = true ->
  exists D' LB' UB' T',
    trim_unused_directions D LB UB T = Done (D', LB', UB', T') /\
    length D' = used_before T (length D) /\
    length LB' = length D' /\ length UB' = length D' /\
    entries_in_range T' (length D') = true /\
    forall k, k < length D' -> used_by T' k = true.
Proof.
  intros LL LU Small R U0.
  destruct (@trim_result _ T D LB UB LL LU Small R U0)
    as (D' & LB' & UB' & E & (LD & _) & (LL' & _) & (LU' & _)).
  exists D', LB', UB'. eexists. split; [exact E|].
  split; [exact LD|]. split; [lia|]. split; [lia|].
  unfold entries_in_range, used_by.
  assert (concat (map (map (fun e => Z.of_nat (used_before T (Z.to_nat e)))) T)
          = map (fun e => Z.of_nat (used_before T (Z.to_nat e))) (concat T)) as C.
  { symmetry. apply concat_map. }
  rewrite C. split.
  - apply forallb_forall. intros x Hx. apply in_map_iff in Hx as (e & <- & I).
    destruct (@in_range_used T _ _ R I) as [Re Ue]. rewrite LD.
    pose proof (@used_before_lt T (Z.to_nat e) (length D) ltac:(lia) Ue).
    apply andb_true_iff. split; [apply Z.leb_le|apply Z.ltb_lt]; lia.
  - intros k Lk. rewrite LD in Lk.
    destruct (@used_before_onto T _ _ Lk) as (j & Lj & Uj & <-).
    unfold used_by in Uj. apply existsb_exists in Uj as (e & I & Ee).
    apply Z.eqb_eq in Ee. apply existsb_exists.
    exists (Z.of_nat (used_before T (Z.to_nat e))). split.
    + apply in_map_iff. eauto.
    + apply Z.eqb_eq. rewrite <- Ee, Nat2Z.id. reflexivity.
Qed.

Lemma trim_unused_directions_all_used_witness :
  exists D' LB' UB' T',
    @trim_unused_directions exactZ three_directions [0; 0; 0]%Z [1; 1; 2]%Z [[0; 2]]%Z
    = Done (D', LB', UB', T') /\
    length D' = 2 /\ length LB' = length D' /\ length UB' = length D' /\
    entries_in_range T' (length D') = true /\
    forall k, k < length D' -> used_by T' k = true.
Proof.
  exact (@trim_unused_directions_all_used exactZ three_directions
           [0; 0; 0]%Z [1; 1; 2]%Z [[0; 2]]%Z eq_refl eq_refl
           ltac:(vm_compute; discriminate) eq_refl eq_refl).
Defined.

(** X4.  When every direction occurs in some template there is nothing to
    trim: the four vectors come back as they were. *)
Theorem trim_unused_directions_nothing_unused `{Scalar}
    (D : Matrix) (LB UB : Vector) (T : list (list Z)) :
  length LB = length D -> length UB = length D ->
  (N.of_nat (length D) <= 4294967295)%N ->
  0 < length D ->
  entries_in_range T (length D) = true ->
  (forall j, j < length D -> used_by T j = true) ->
  trim_unused_directions D LB UB T = Done (D, LB, UB, T).
Proof.
  intros LL LU Small Pos R All.
  destruct (@trim_result _ T D LB UB LL LU Small R (All 0 Pos))
    as (D' & LB' & UB' & -> & (LD & HD) & (LL' & HL) & (LU' & HU)).
  rewrite (@used_before_all T (length D) All) in *.
  assert (forall (A : Type) (v v' : list A),
             length v = length D -> length v' = length D ->
             (forall j, j < length D -> used_by T j = true ->
                        nth_error v' (used_before T j) = nth_error v j) ->
             v' = v) as Same.
  { intros A v v' Lv Lv' Hv. apply nth_error_ext. intros i.
    destruct (Nat.lt_ge_cases i (length D)) as [Li|Li].
    - rewrite <- (Hv i Li (All i Li)).
      rewrite (@used_before_all T i); [reflexivity|].
      intros j Lj. apply All. lia.
    - rewrite (proj2 (nth_error_None v' i)) by lia.
      now rewrite (proj2 (nth_error_None v i)) by lia. }
  rewrite (Same _ D D' eq_refl LD HD).
  rewrite (Same _ LB LB' LL LL' HL).
  rewrite (Same _ UB UB' LU LU' HU).
  do 2 f_equal.
  rewrite <- (map_id T) at 2. apply map_ext_in. intros row Hrow.
  rewrite <- (map_id row) at 2. apply map_ext_in. intros e He.
  assert (In e (concat T)) as I by (apply in_concat; eauto).
  destruct (@in_range_used T _ _ R I) as [Re Ue].
  rewrite (@used_before_all T (Z.to_nat e)); [lia|].
  intros j Lj. apply All. lia.
Qed.

Lemma trim_unused_directions_nothing_unused_witness :
  @trim_unused_directions exactZ three_directions [0; 0; 0]%Z [1; 1; 2]%Z
     [[0; 1]; [1; 2]]%Z
  = Done (three_directions, [0; 0; 0]%Z, [1; 1; 2]%Z, [[0; 1]; [1; 2]]%Z).
Proof.
  apply (@trim_unused_directions_nothing_unused exactZ); try reflexivity.
  - vm_compute; discriminate.
  - simpl; lia.
  - intros [|[|[|j]]] L; try reflexivity. simpl in L. lia.
Defined.

(** ** Directions on the same line *)

Lemma proportional_from_exact (a b : Z) (v1 v2 : list Z) :
  length v1 = length v2 ->
  (@proportional_from exactZ a b v1 v2 = true
   <-> Forall2 (fun x y => (y * a = x * b)%Z) v1 v2).
Proof.
  revert v2. induction v1 as [|x v1 IH]; intros [|y v2] L; simpl in *;
    try discriminate.
  - split; [constructor|reflexivity].
  - destruct (Z.eqb_spec (y * a) (x * b)) as [E|E]; simpl.
    + rewrite IH by lia. split; [now constructor|now inversion 1].
    + split; [discriminate|]. inversion 1; subst. contradiction.
Qed.

Lemma skip_null_prefix_exact (v1 v2 : list Z) :
  length v1 = length v2 ->
  (@skip_null_prefix exactZ v1 v2 = true
   <-> exists p q : Z, p <> 0%Z /\ Forall2 (fun x y => (p * y = q * x)%Z) v1 v2).
Proof.
  revert v2. induction v1 as [|a v1 IH]; intros [|b v2] L; try discriminate.
  - simpl. split; [|reflexivity]. intros _. exists 1%Z, 0%Z. split; [lia|constructor].
  - cbn [skip_null_prefix].
    change (@d_eqb exactZ a d_zero) with (a =? 0)%Z.
    change (@d_eqb exactZ b d_zero) with (b =? 0)%Z.
    simpl in L.
    destruct (Z.eqb_spec a 0) as [->|Na].
    + destruct (Z.eqb_spec b 0) as [->|Nb]; simpl.
      * rewrite IH by lia. split; intros (p & q & Np & F); exists p, q; split; auto.
        -- constructor; [lia|exact F].
        -- now inversion F.
      * split; [discriminate|]. intros (p & q & Np & F). inversion F as [|? ? ? ? E0 F']; subst.
        rewrite Z.mul_0_r in E0. apply Z.mul_eq_0 in E0. tauto.
    + rewrite proportional_from_exact by (simpl; lia). split.
      * intros F. exists a, b. split; [exact Na|].
        eapply Forall2_impl; [|exact F]. simpl. intros; lia.
      * intros (p & q & Np & F).
        assert (p * b = q * a)%Z as Head by now inversion F.
        eapply Forall2_impl; [|exact F]. simpl. intros x y E.
        apply Z.mul_reg_l with p; [exact Np|].
        replace (p * (y * a))%Z with ((p * y) * a)%Z by ring. rewrite E.
        replace (p * (x * b))%Z with (x * (p * b))%Z by ring. rewrite Head.
        ring.
Qed.

(** X5.  On vectors of the same size over exact numbers, [on_the_same_line(v1,
    v2)] is true exactly when [v2] is a multiple of [v1], that is
    [p * v2 = q * v1] for some [p <> 0] and [q]; on vectors of different
    sizes it throws [domain_error]. *)
Theorem on_the_same_line_iff (v1 v2 : list Z) :
  if length v1 =? length v2
  then exists b, @on_the_same_line exactZ v1 v2 = Returned b /\
         (b = true <->
          exists p q : Z, p <> 0%Z /\ Forall2 (fun x y => (p * y = q * x)%Z) v1 v2)
  else @on_the_same_line exactZ v1 v2
       = domain_error "The two vectors must belong to the same space".
Proof.
  unfold on_the_same_line. change (@double exactZ) with Z.
  destruct (Nat.eqb_spec (length v1) (length v2)) as [L|L]; simpl; [|reflexivity].
  destruct (Nat.eqb_spec (length v1) 0) as [Z0|Z0].
  - exists true. split; [reflexivity|]. split; [|reflexivity]. intros _.
    destruct v1; [|discriminate]. destruct v2; [|discriminate].
    exists 1%Z, 0%Z. split; [lia|constructor].
  - eexists. split; [reflexivity|]. now apply skip_null_prefix_exact.
Qed.



Lemma find_on_the_same_line_from_spec `{Scalar} (M : Matrix) (v : Vector) (i : nat) :
  Forall (fun row => length row = length v) M ->
  exists r, find_on_the_same_line_from i M v = Returned (i + r) /\ r <= length M /\
    (forall j row, j < r -> nth_error M j = Some row ->
                   on_the_same_line row v = Returned false) /\
    (forall row, nth_error M r = Some row -> on_the_same_line row v = Returned true).
Proof.
  intros F. revert i. induction F as [|row M L F IH]; intros i; simpl.
  - exists 0. rewrite Nat.add_0_r. split; [reflexivity|]. split; [lia|].
    split; [intros; lia|discriminate].
  - destruct (on_the_same_line row v) as [[|]|what] eqn:E.
    + exists 0. rewrite Nat.add_0_r. split; [reflexivity|]. split; [lia|].
      split; [intros; lia|]. simpl. now intros ? [= <-].
    + destruct (IH (S i)) as (r & -> & Lr & Before & At).
      exists (S r). split; [f_equal; lia|]. split; [lia|]. split.
      * intros [|j] row' Lj Ej; simpl in Ej.
        -- now injection Ej as <-.
        -- apply (Before j); [lia|exact Ej].
      * exact At.
    + unfold on_the_same_line in E. rewrite L, Nat.eqb_refl in E. simpl in E.
      destruct (length v =? 0); discriminate.
Qed.

(** X7.  When every row of [M] has the size of [v], [find_on_the_same_line(M,
    v)] returns the index of the first row that [on_the_same_line] accepts,
    and [M.size()], which is no index of [M], when it accepts none. *)
Theorem find_on_the_same_line_first `{Scalar} (M : Matrix) (v : Vector) :
  Forall (fun row => length row = length v) M ->
  exists r, find_on_the_same_line M v = Returned r /\ r <= length M /\
    (forall j row, j < r -> nth_error M j = Some row ->
                   on_the_same_line row v = Returned false) /\
    (forall row, nth_error M r = Some row -> on_the_same_line row v = Returned true).
Proof.
  intros F. exact (@find_on_the_same_line_from_spec _ M v 0 F).
Qed.

Lemma find_on_the_same_line_first_witness :
  @find_on_the_same_line exactZ [[1; 0]; [2; 4]; [1; 2]]%Z [3; 6]%Z = Returned 1.
Proof.
  destruct (@find_on_the_same_line_first exactZ [[1; 0]; [2; 4]; [1; 2]]%Z [3; 6]%Z)
    as (r & E & _).
  - repeat constructor.
  - rewrite E. vm_compute in E. exact (eq_sym E).
Defined.

(** ** Permutations of rows *)

Lemma sort_insert_perm (x : Z) (l : list Z) : Permutation (sort_insert x l) (x :: l).
Proof.
  induction l as [|y l IH]; simpl; [reflexivity|].
  destruct (x <=? y)%Z; [reflexivity|].
  rewrite IH. apply perm_swap.
Qed.

Lemma std_sort_perm (l : list Z) : Permutation (std_sort l) l.
Proof.
  induction l as [|x l IH]; simpl; [reflexivity|].
  rewrite sort_insert_perm. now constructor.
Qed.

Lemma sort_insert_comm (x y : Z) (l : list Z) :
  sort_insert x (sort_insert y l) = sort_insert y (sort_insert x l).
Proof.
  induction l as [|z l IH]; simpl.
  - destruct (Z.leb_spec x y), (Z.leb_spec y x); try reflexivity; try lia.
    replace y with x by lia. reflexivity.
  - destruct (Z.leb_spec y z), (Z.leb_spec x z); simpl;
      destruct (Z.leb_spec x y), (Z.leb_spec y x); simpl;
      try destruct (Z.leb_spec x z); try destruct (Z.leb_spec y z);
      try lia; try reflexivity; try (now rewrite IH).
    replace y with x by lia. reflexivity.
Qed.

Lemma std_sort_of_perm (l l' : list Z) : Permutation l l' -> std_sort l = std_sort l'.
Proof.
  induction 1; simpl; try congruence. apply sort_insert_comm.
Qed.

Lemma sort_insert_sorted (x : Z) (l : list Z) :
  Sorted Z.le l -> Sorted Z.le (sort_insert x l).
Proof.
  induction 1 as [|y l S IH Hd]; simpl; [repeat constructor|].
  destruct (Z.leb_spec x y).
  - repeat constructor; assumption.
  - constructor; [exact IH|].
    destruct l as [|z l]; simpl; [constructor; lia|].
    inversion Hd; subst. destruct (Z.leb_spec x z); constructor; lia.
Qed.

Lemma std_sort_sorted (l : list Z) : Sorted Z.le (std_sort l).
Proof.
  induction l as [|x l IH]; simpl; [constructor|]. now apply sort_insert_sorted.
Qed.

Lemma std_sort_fixed (l : list Z) : std_sort l = l <-> Sorted Z.le l.
Proof.
  split.
  - intros <-. apply std_sort_sorted.
  - induction 1 as [|x l S IH Hd]; simpl; [reflexivity|].
    rewrite IH. destruct Hd as [|y l Hd]; simpl; [reflexivity|].
    destruct (Z.leb_spec x y); [reflexivity|lia].
Qed.

Lemma sort_insert_length (x : Z) (l : list Z) : length (sort_insert x l) = S (length l).
Proof.
  induction l as [|y l IH]; simpl; [reflexivity|].
  destruct (x <=? y)%Z; simpl; [reflexivity|]. now rewrite IH.
Qed.

Lemma std_sort_length (l : list Z) : length (std_sort l) = length l.
Proof.
  induction l as [|x l IH]; simpl; [reflexivity|].
  now rewrite sort_insert_length, IH.
Qed.

Lemma same_elements_eq (v1 v2 : list Z) :
  length v1 = length v2 -> (same_elements v1 v2 = true <-> v1 = v2).
Proof.
  revert v2. induction v1 as [|a v1 IH]; intros [|b v2] L; simpl in *;
    try discriminate; [tauto|].
  destruct (Z.eqb_spec a b) as [->|N]; simpl.
  - rewrite IH by lia. split; [now intros ->|now intros [= ->]].
  - split; [discriminate|]. intros [= E _]. contradiction.
Qed.

Lemma isPermutationOfSorted_sort (v1 v2 : list Z) :
  isPermutationOfSorted v1 v2 = true <-> std_sort v1 = v2.
Proof.
  unfold isPermutationOfSorted.
  destruct (Nat.eqb_spec (length v1) (length v2)) as [L|L]; simpl.
  - apply same_elements_eq. now rewrite std_sort_length.
  - split; [discriminate|]. intros <-. now rewrite std_sort_length in L.
Qed.

Lemma isPermutation_Permutation (v1 v2 : list Z) :
  isPermutation v1 v2 = true <-> Permutation v1 v2.
Proof.
  unfold isPermutation.
  destruct (Nat.eqb_spec (length v1) (length v2)) as [L|L]; simpl.
  - rewrite isPermutationOfSorted_sort. split.
    + intros E. rewrite <- (std_sort_perm v1), E. apply std_sort_perm.
    + apply std_sort_of_perm.
  - split; [discriminate|]. intros P. now apply Permutation_length in P.
Qed.

Lemma in_combine_seq (A : Type) (l : list A) (s j : nat) (a : A) :
  In (j, a) (combine (seq s (length l)) l) <-> s <= j /\ nth_error l (j - s) = Some a.
Proof.
  revert s. induction l as [|x l IH]; intros s; simpl.
  - split; [contradiction|]. intros [_ E]. destruct (j - s); discriminate.
  - rewrite IH. split.
    + intros [[= <- <-]|[L E]].
      * split; [lia|]. now rewrite Nat.sub_diag.
      * split; [lia|]. replace (j - s) with (S (j - S s)) by lia. exact E.
    + intros [L E]. destruct (Nat.eq_dec s j) as [->|N].
      * left. rewrite Nat.sub_diag in E. now injection E as ->.
      * right. split; [lia|].
        replace (j - s) with (S (j - S s)) in E by lia. exact E.
Qed.

(** X8.  [isPermutation(v1, v2)] is true exactly when [v1] is a rearrangement of
    [v2]. *)
Theorem isPermutation_iff (v1 v2 : list Z) :
  isPermutation v1 v2 = true <-> Permutation v1 v2.
Proof. apply isPermutation_Permutation. Qed.

(** X9.  [isPermutationOfSorted(v1, v2)] is true exactly when [v2] is in
    ascending order and [v1] is a rearrangement of it: on a second argument
    that is not sorted it answers false, whatever [v1] is. *)
Theorem isPermutationOfSorted_iff (v1 v2 : list Z) :
  isPermutationOfSorted v1 v2 = true <-> Sorted Z.le v2 /\ Permutation v1 v2.
Proof.
  rewrite isPermutationOfSorted_sort. split.
  - intros <-. split; [apply std_sort_sorted|]. symmetry. apply std_sort_perm.
  - intros [S P]. apply std_sort_fixed in S. rewrite <- S.
    now apply std_sort_of_perm.
Qed.

(** X10.  [is_permutation_of_other_rows(M, i)] reads [M[i]], outside the matrix
    when [i] is not below its number of rows; otherwise it is true exactly
    when some row at another index is a rearrangement of row [i]. *)
Theorem is_permutation_of_other_rows_iff (M : list (list Z)) (i : nat) :
  match nth_error M i with
  | None => is_permutation_of_other_rows M i = Fail out_of_range
  | Some M_i =>
      exists b, is_permutation_of_other_rows M i = Done b /\
        (b = true <->
         exists j row, j <> i /\ nth_error M j = Some row /\ Permutation row M_i)
  end.
Proof.
  unfold is_permutation_of_other_rows, index.
  destruct (nth_error M i) as [M_i|]; simpl; [|reflexivity].
  eexists. split; [reflexivity|].
  rewrite existsb_exists. split.
  - intros ([j row] & I & E). simpl in E.
    apply andb_true_iff in E as [N P].
    apply in_combine_seq in I as [_ I]. rewrite Nat.sub_0_r in I.
    exists j, row. split; [now apply negb_true_iff, Nat.eqb_neq in N|].
    split; [exact I|].
    apply isPermutationOfSorted_sort in P.
    rewrite <- (std_sort_perm row), P. apply std_sort_perm.
  - intros (j & row & N & E & P).
    exists (j, row). split.
    + apply in_combine_seq. split; [lia|]. now rewrite Nat.sub_0_r.
    + simpl. apply andb_true_iff. split.
      * now apply negb_true_iff, Nat.eqb_neq.
      * apply isPermutationOfSorted_sort. now apply std_sort_of_perm.
Qed.

(** [isIn(v, vlist)] is true exactly when [vlist] holds a rearrangement of
    [v]. *)
Lemma isIn_rows_iff (v : list Z) (vlist : list (list Z)) :
  isIn_rows v vlist = true <-> exists row, In row vlist /\ Permutation v row.
Proof.
  unfold isIn_rows. rewrite existsb_exists.
  split; intros (row & I & P); exists row; split; try exact I;
    now apply isPermutation_Permutation.
Qed.

(** ** Accumulated distances *)

Section DistanceFacts.
Variable dists : list Z.
Hypothesis dists_nonneg : forall d, In d dists -> (0 <= d)%Z.

Local Abbreviation in_dists row :=
  (forall idx, In idx row -> (0 <= idx < Z.of_nat (length dists))%Z).

Lemma maxOffsetDist_dirs_from (row : list Z) (acc : Z) :
  in_dists row -> (0 <= acc)%Z ->
  exists w,
    foldM (fun dist idx => d <- @index_int Z dists idx ;; Done (dist * d)%Z) row acc
    = Done w /\ (0 <= w)%Z.
Proof.
  revert acc. induction row as [|idx row IH]; intros acc R A; simpl; [eauto|].
  rewrite (@index_int_in_range _ dists idx 0%Z) by (apply R; now left). simpl.
  apply IH.
  - intros i I. apply R. now right.
  - assert (0 <= nth (Z.to_nat idx) dists 0)%Z.
    { apply dists_nonneg, nth_In. specialize (R idx (or_introl eq_refl)). lia. }
    nia.
Qed.

Lemma maxOffsetDist_dirs_total (row : list Z) :
  in_dists row ->
  exists w, @maxOffsetDist_dirs exactZ row dists = Done w /\ (0 <= w)%Z.
Proof. intros R. apply (@maxOffsetDist_dirs_from row 1%Z R). lia. Qed.

Lemma maxOffsetDist_fold (T : list (list Z)) (acc : Z) :
  (forall row, In row T -> in_dists row) ->
  exists v,
    foldM (fun maxdist row =>
             d <- @maxOffsetDist_dirs exactZ row dists ;;
             Done (rmax Z.ltb maxdist d)) T acc = Done v /\
    (acc <= v)%Z /\
    (v = acc \/ exists row, In row T /\ @maxOffsetDist_dirs exactZ row dists = Done v) /\
    (forall row w, In row T -> @maxOffsetDist_dirs exactZ row dists = Done w ->
                   (w <= v)%Z).
Proof.
  revert acc. induction T as [|row T IH]; intros acc R; cbn [foldM].
  - exists acc. split; [reflexivity|]. split; [lia|]. split; [now left|].
    intros row w [].
  - destruct (@maxOffsetDist_dirs_total row (R row (or_introl eq_refl)))
      as (w & Ew & _).
    rewrite Ew. cbn [bind].
    destruct (IH (rmax Z.ltb acc w) (fun r I => R r (or_intror I)))
      as (v & -> & Lv & Src & Ub).
    exists v. split; [reflexivity|].
    assert (acc <= rmax Z.ltb acc w /\ w <= rmax Z.ltb acc w)%Z as [La Lw].
    { unfold rmax. destruct (Z.ltb_spec acc w); lia. }
    split; [lia|]. split.
    + destruct Src as [->|(r & I & E)].
      * unfold rmax. destruct (Z.ltb_spec acc w); [right|now left].
        exists row. split; [now left|exact Ew].
      * right. exists r. split; [now right|exact E].
    + intros r w' [<-|I] E.
      * rewrite Ew in E. injection E as <-. lia.
      * now apply (Ub r).
Qed.

(** X11.  Over exact numbers, for distances that are not negative and templates
    whose entries are indexes of distances, [maxOffsetDist(T, dists)] is
    the largest of the products that [maxOffsetDist(dirsIdx, dists)] gives
    for the rows of [T]; for a matrix without rows it is [-DBL_MAX]. *)
Theorem maxOffsetDist_is_maximum (T : list (list Z)) :
  (forall row, In row T -> in_dists row) ->
  match T with
  | [] => @maxOffsetDist exactZ T dists = Done (- @d_max exactZ)%Z
  | _ :: _ =>
      exists v,
        @maxOffsetDist exactZ T dists = Done v /\
        (exists row, In row T /\ @maxOffsetDist_dirs exactZ row dists = Done v) /\
        (forall row w, In row T -> @maxOffsetDist_dirs exactZ row dists = Done w ->
                       (w <= v)%Z)
  end.
Proof.
  intros R. destruct T as [|row0 T]; [reflexivity|].
  destruct (@maxOffsetDist_fold (row0 :: T) (- @d_max exactZ)%Z R)
    as (v & E & Lv & Src & Ub).
  exists v. split; [exact E|]. split; [|exact Ub].
  destruct Src as [->|Src]; [|exact Src]. exfalso.
  destruct (@maxOffsetDist_dirs_total row0 (R row0 (or_introl eq_refl)))
    as (w & Ew & Pw).
  specialize (Ub row0 w (or_introl eq_refl) Ew).
  assert (- @d_max exactZ < 0)%Z by (simpl; lia). lia.
Qed.

End DistanceFacts.

Lemma maxOffsetDist_is_maximum_witness :
  exists v,
    @maxOffsetDist exactZ [[0; 1]; [1; 2]]%Z [2; 3; 5]%Z = Done v /\
    (exists row, In row [[0; 1]; [1; 2]]%Z /\
                 @maxOffsetDist_dirs exactZ row [2; 3; 5]%Z = Done v) /\
    (forall row w, In row [[0; 1]; [1; 2]]%Z ->
                   @maxOffsetDist_dirs exactZ row [2; 3; 5]%Z = Done w -> (w <= v)%Z).
Proof.
  refine (@maxOffsetDist_is_maximum [2; 3; 5]%Z _ [[0; 1]; [1; 2]]%Z _).
  - simpl. intros d [<-|[<-|[<-|[]]]]; lia.
  - simpl. intros row [<-|[<-|[]]] idx [<-|[<-|[]]]; lia.
Defined.

(** ** The shape of a flowpipe *)

Lemma last_cons (A : Type) (a : A) (l : list A) (d : A) : last (a :: l) d = last l a.
Proof.
  revert a d. induction l as [|b l IH]; intros a d; [reflexivity|].
  change (last (a :: b :: l) d) with (last (b :: l) d).
  now rewrite !IH.
Qed.

Section FlowpipeFacts.
Context `{SymbolicAlgebra}.
Variables bundle SetsUnion : Type.
Variable env : Collaborators bundle SetsUnion.
Variable sapo : Sapo.

Lemma reach_loop_shape (n : nat) :
  forall cbundles last_step flowpipe,
    exists rest,
      reach_loop env sapo n cbundles last_step flowpipe = flowpipe ++ rest /\
      length rest <= n /\
      (forall i u, S i < length (last_step :: rest) ->
                   nth_error (last_step :: rest) i = Some u -> su_size env u <> 0) /\
      (length rest < n -> su_size env (last rest last_step) = 0).
Proof.
  induction n as [|n IH]; intros cbundles last_step flowpipe; simpl.
  - exists []. rewrite app_nil_r. split; [reflexivity|]. split; [simpl; lia|].
    split; [simpl; intros; lia|simpl; lia].
  - destruct (su_size env last_step =? 0) eqn:E.
    + exists []. rewrite app_nil_r. split; [reflexivity|]. split; [simpl; lia|].
      split; [simpl; intros; lia|]. intros _. simpl. now apply Nat.eqb_eq.
    + set (after := fold_left (compute_next_bundles_and_add_to_last env sapo)
                              cbundles ([], su_empty env)).
      destruct (IH (fst after) (snd after) (flowpipe ++ [snd after]))
        as (rest & -> & Len & Mid & End).
      exists (snd after :: rest). rewrite <- app_assoc. split; [reflexivity|].
      split; [simpl; lia|]. split.
      * intros [|i] u Li Ei; simpl in *.
        -- injection Ei as <-. now apply Nat.eqb_neq.
        -- apply (Mid i u); [lia|exact Ei].
      * intros L. simpl in L. rewrite last_cons. apply End. lia.
Qed.

(** X12.  The flowpipe of [reach(init_set, k)] starts with the initial set cut
    by the assumptions and simplified, and has at most [k] further unions;
    every union but the last holds a polytope, and there are fewer than
    [k] further unions only when the last one holds none. *)
Theorem reach_flowpipe_shape (init_set : bundle) (k : nat) :
  let first := su_simplify env (su_of_bundle env
                 (intersect_with env init_set (assumptions sapo))) in
  exists rest,
    reach env sapo init_set k = first :: rest /\
    length rest <= k /\
    (forall i u, S i < length (first :: rest) ->
                 nth_error (first :: rest) i = Some u -> su_size env u <> 0) /\
    (length rest < k -> su_size env (last rest first) = 0).
Proof.
  intros first. unfold reach.
  destruct (reach_loop_shape k
              (split env (intersect_with env init_set (assumptions sapo))
                     (max_bundle_magnitude sapo) (d_of_Z 1))
              first [first]) as (rest & E & P).
  exists rest. split; [exact E|exact P].
Qed.

(** *** Reachability under a set of parameters *)

Variable ds_transform_polytope : bundle -> Polytope -> transfomation_mode -> bundle.
Variable polytope_is_empty : Polytope -> bool.

Local Abbreviation reach_under :=
  (reach_param env sapo ds_transform_polytope polytope_is_empty).

(** X13.  With a parameter set of no polytope, and a horizon and an initial set
    that let the loop run, the flowpipe is the initial set followed by one
    empty union: no bundle is transformed at all. *)
Theorem reach_param_no_parameters (init_set : bundle) (pSet : SetsUnion) (k : nat) :
  su_polytopes env pSet = [] ->
  su_polytopes env (su_empty env) = [] ->
  let first := su_simplify env (su_of_bundle env
                 (intersect_with env init_set (assumptions sapo))) in
  reach_under init_set pSet k
  = if (k =? 0) || (su_size env first =? 0) then [first]
    else [first; su_empty env].
Proof.
  intros None Empty first. unfold reach_param. rewrite None. simpl.
  fold first. destruct k as [|k]; simpl; [reflexivity|].
  destruct (su_size env first =? 0); [reflexivity|].
  unfold reach_param_step. simpl.
  destruct k as [|k]; simpl; [reflexivity|].
  unfold su_size at 1. now rewrite Empty.
Qed.

Lemma add_next_param_plain (P : Polytope) (cbundles : list bundle)
    (captured : list bundle * SetsUnion) :
  (forall b, bundle_is_empty env b = polytope_is_empty (to_polytope env b)) ->
  fold_left (add_next_param env sapo ds_transform_polytope polytope_is_empty P)
            cbundles captured
  = fold_left (compute_next_bundles_and_add_to_last
                 (under_parameters env ds_transform_polytope P) sapo)
              cbundles captured.
Proof.
  intros Agree. revert captured.
  induction cbundles as [|b cbundles IH]; intros captured; simpl; [reflexivity|].
  rewrite IH. f_equal.
  unfold add_next_param, compute_next_bundles_and_add_to_last. simpl.
  rewrite Agree. reflexivity.
Qed.

Lemma reach_param_loop_plain (P : Polytope) (n : nat) :
  (forall b, bundle_is_empty env b = polytope_is_empty (to_polytope env b)) ->
  forall cbundles last_step flowpipe,
    reach_param_loop env sapo ds_transform_polytope polytope_is_empty n
                     [P] [cbundles] last_step flowpipe
    = reach_loop (under_parameters env ds_transform_polytope P) sapo n
                 cbundles last_step flowpipe.
Proof.
  intros Agree. induction n as [|n IH]; intros cbundles last_step flowpipe;
    simpl; [reflexivity|].
  change (su_size (under_parameters env ds_transform_polytope P) last_step)
    with (su_size env last_step).
  destruct (su_size env last_step =? 0); [reflexivity|].
  unfold reach_param_step. simpl.
  rewrite add_next_param_plain by exact Agree.
  apply IH.
Qed.

(** X14.  With a parameter set of exactly one polytope [P], and an emptiness
    test on bundles that agrees with the one on their polytopes,
    [reach(init_set, pSet, k)] computes the flowpipe that [reach(init_set,
    k)] computes for the dynamical system taken under the parameters of
    [P]. *)
Theorem reach_param_single_polytope (init_set : bundle) (pSet : SetsUnion)
    (P : Polytope) (k : nat) :
  su_polytopes env pSet = [P] ->
  (forall b, bundle_is_empty env b = polytope_is_empty (to_polytope env b)) ->
  reach_under init_set pSet k
  = reach (under_parameters env ds_transform_polytope P) sapo init_set k.
Proof.
  intros One Agree. unfold reach_param, reach. rewrite One. simpl.
  now apply reach_param_loop_plain.
Qed.

End FlowpipeFacts.

(** ** More on bundles *)

(** X15.  The canonical form denotes the set of points of the bundle, and none
    of its offsets is larger than the offset it replaces: with an exact
    order on the scalars and a linear-programming call that answers with
    the maximum on the polytope of [B]. *)
Theorem get_canonical_same_set `{Scalar}
    (maximize : Polytope -> Vector -> double) (B : Bundle) :
  ExactOrder _ ->
  Bundle_valid B = true ->
  lp_exact_on maximize B ->
  exists B',
    get_canonical maximize B = Done B' /\
    (forall x, in_bundle B' x <-> in_bundle B x) /\
    (forall i p p', nth_error (offp B) i = Some p ->
                    nth_error (offp B') i = Some p' -> d_leb p' p = true) /\
    (forall i m m', nth_error (offm B) i = Some m ->
                    nth_error (offm B') i = Some m' -> d_leb m' m = true).
Proof.
  intros O V LP.
  pose proof (get_canonical_valid maximize B V) as EC.
  set (P := stacked_system B) in *.
  pose proof (Bundle_checks_sizes _ _ _ _ V) as (_ & Hp & Hm & _).
  assert (InP : forall x, in_polytope P x = true <-> in_bundle B x)
    by (intros x; now apply in_stacked_system).
  assert (Tight : forall i d p m,
             nth_error (dir_matrix B) i = Some d ->
             nth_error (offp B) i = Some p -> nth_error (offm B) i = Some m ->
             d_leb (maximize P d) p = true /\
             d_leb (maximize P (vec_opp d)) m = true).
  { intros i d p m Ed Ep Em.
    destruct (LP d (nth_error_In _ _ Ed)) as [[[x1 [Hx1 E1]] _] [[x2 [Hx2 E2]] _]].
    apply InP in Hx1, Hx2.
    destruct (Hx1 i d p m Ed Ep Em) as [A1 _].
    destruct (Hx2 i d p m Ed Ep Em) as [_ A2].
    rewrite E1 in A1. rewrite E2 in A2. auto. }
  assert (Other : forall (A : Type) (v : list A) i,
             length v = length (dir_matrix B) -> i < length (dir_matrix B) ->
             exists a, nth_error v i = Some a).
  { intros A v i Lv Li. destruct (nth_error v i) eqn:E; [eauto|].
    apply nth_error_None in E. lia. }
  eexists. split; [exact EC|]. split; [|split].
  - intros x. split.
    + intros Hx i d p m Ed Ep Em.
      destruct (Tight i d p m Ed Ep Em) as [T1 T2].
      destruct (Hx i d (maximize P d) (maximize P (vec_opp d))) as [L1 L2]; simpl.
      * exact Ed.
      * now apply map_nth_error.
      * exact (map_nth_error (fun d => maximize P (vec_opp d)) _ _ Ed).
      * split; eapply (leb_trans O); eauto.
    + intros Hx i d p m Ed Ep Em. simpl in Ed, Ep, Em.
      apply nth_error_map_Some in Ep. destruct Ep as [d1 [Ed1 ->]].
      apply nth_error_map_Some in Em. destruct Em as [d2 [Ed2 ->]].
      assert (d1 = d) by congruence. assert (d2 = d) by congruence. subst d1 d2.
      destruct (LP d (nth_error_In _ _ Ed)) as [[_ Ub1] [_ Ub2]].
      split; [apply Ub1|apply Ub2]; now apply InP.
  - intros i p p' Ep Ep'. simpl in Ep'.
    apply nth_error_map_Some in Ep'. destruct Ep' as [d [Ed ->]].
    assert (i < length (dir_matrix B)) as Li by (apply nth_error_Some; congruence).
    destruct (Other _ (offm B) i Hm Li) as [m Em].
    exact (proj1 (Tight i d p m Ed Ep Em)).
  - intros i m m' Em Em'. simpl in Em'.
    apply nth_error_map_Some in Em'. destruct Em' as [d [Ed ->]].
    assert (i < length (dir_matrix B)) as Li by (apply nth_error_Some; congruence).
    destruct (Other _ (offp B) i Hp Li) as [p Ep].
    exact (proj2 (Tight i d p m Ed Ep Em)).
Qed.

Lemma get_canonical_same_set_witness :
  exists B',
    get_canonical interval_maximize interval_bundle = Done B' /\
    (forall x, in_bundle B' x <-> in_bundle interval_bundle x) /\
    (forall i p p', nth_error (offp interval_bundle) i = Some p ->
                    nth_error (offp B') i = Some p' -> @d_leb exactZ p' p = true) /\
    (forall i m m', nth_error (offm interval_bundle) i = Some m ->
                    nth_error (offm B') i = Some m' -> @d_leb exactZ m' m = true).
Proof.
  apply (@get_canonical_same_set exactZ interval_maximize interval_bundle
           exactZ_order eq_refl).
  apply interval_lp_exact; [lia|reflexivity].
Defined.

Lemma mapM_Fail_exists (A B : Type) (X : failure) (f : A -> outcome B) (l : list A) :
  (forall a, In a l -> (exists b, f a = Done b) \/ f a = Fail X) ->
  Exists (fun a => f a = Fail X) l -> mapM f l = Fail X.
Proof.
  intros Each Ex. induction Ex as [a l Ea|a l Ex IH]; simpl.
  - now rewrite Ea.
  - destruct (Each a (or_introl eq_refl)) as [[b ->]| ->]; simpl; [|reflexivity].
    rewrite IH; [reflexivity|]. intros a' I. apply Each. now right.
Qed.

Lemma index_int_out_of_range (A : Type) (v : list A) (idx : Z) :
  (idx < 0 \/ Z.of_nat (length v) <= idx)%Z -> index_int v idx = Fail out_of_range.
Proof.
  intros R. unfold index_int. destruct (Z.ltb_spec idx 0); [reflexivity|].
  apply index_Fail. lia.
Qed.

(** X16.  The constructor of [Bundle] checks the shape of the template matrix
    but not its entries: on a constructed bundle, [getParallelotope] of a
    row that holds an entry which is no index of a direction reads outside
    the direction matrix. *)
Theorem getParallelotope_stray_entry `{Scalar} (B : Bundle) (i : nat) (row : list Z) :
  Bundle_valid B = true ->
  nth_error (t_matrix B) i = Some row ->
  Exists (fun idx => (idx < 0 \/ Z.of_nat (size B) <= idx)%Z) row ->
  getParallelotope B i = Fail out_of_range.
Proof.
  intros V Hrow Stray. unfold getParallelotope.
  assert (Hi : i < length (t_matrix B)) by (apply nth_error_Some; congruence).
  destruct (length (t_matrix B) <? i) eqn:G; [apply Nat.ltb_lt in G; lia|].
  unfold index at 1. rewrite Hrow. simpl.
  apply Bundle_checks_sizes in V. destruct V as (_ & Hp & Hm & _ & Hrows).
  assert (Hdim : dim B = length row).
  { unfold dim. symmetry. apply Hrows. eapply nth_error_In; eauto. }
  rewrite Hdim. rewrite (mapM_index_bind_from _ row []).
  rewrite (@mapM_Fail_exists _ _ out_of_range); [reflexivity| |].
  - intros idx _. unfold size in *.
    destruct (Z_lt_ge_dec idx 0) as [L|L];
      [right; now rewrite index_int_out_of_range by lia|].
    destruct (Z_lt_ge_dec idx (Z.of_nat (length (dir_matrix B)))) as [L'|L'];
      [|right; now rewrite index_int_out_of_range by lia].
    left.
    rewrite (@index_int_in_range _ (dir_matrix B) idx []) by lia. simpl.
    rewrite (@index_int_in_range _ (offp B) idx d_zero) by lia. simpl.
    rewrite (@index_int_in_range _ (offm B) idx d_zero) by lia. simpl.
    eauto.
  - eapply Exists_impl; [|exact Stray]. intros idx R. unfold size in R.
    now rewrite index_int_out_of_range.
Qed.

Lemma getParallelotope_stray_entry_witness :
  Bundle_valid bundle_with_stray_entry = true /\
  getParallelotope bundle_with_stray_entry 0 = Fail out_of_range.
Proof.
  split; [reflexivity|].
  apply (@getParallelotope_stray_entry binary64 bundle_with_stray_entry 0 [5%Z]);
    try reflexivity.
  left. right. simpl. lia.
Defined.

(** ** More on [transform] *)

Section UnusedDirection.
Context `{Scalar}.
Variable Expression : Type.
Variable bern_coeffs : Parallelotope -> Vector -> list Expression.
Variable max_finder : MaxCoeffFinder Expression.

Local Abbreviation untouched j :=
  (fun coeffs : list double * list double =>
     nth_error (fst coeffs) j = Some d_max /\ nth_error (snd coeffs) j = Some d_max).

Lemma bound_direction_other (B : Bundle) (P : Parallelotope) coeffs coeffs'
    (dir_b j : nat) :
  dir_b <> j ->
  bound_direction bern_coeffs max_finder B P coeffs dir_b = Done coeffs' ->
  untouched j coeffs -> untouched j coeffs'.
Proof.
  intros N E [Ip Im]. unfold bound_direction in E.
  destruct (index (dir_matrix B) dir_b); simpl in E; [|discriminate].
  destruct (find_max_coeffs _ _) as [mc|]; [|discriminate].
  destruct (index (fst coeffs) dir_b); simpl in E; [|discriminate].
  destruct (assign (fst coeffs) dir_b _) as [tp|] eqn:Ep; simpl in E; [|discriminate].
  destruct (index (snd coeffs) dir_b); simpl in E; [|discriminate].
  destruct (assign (snd coeffs) dir_b _) as [tm|] eqn:Em; simpl in E; [|discriminate].
  injection E as <-. simpl. split.
  - rewrite (@assign_other _ _ _ _ j _ Ep); auto.
  - rewrite (@assign_other _ _ _ _ j _ Em); auto.
Qed.

(** X17.  In the mode that bounds the directions of each template only
    ([mode == 0]), a direction that occurs in no template gets no bound
    from the Bernstein coefficients: when the loops end its two
    coefficients are still [DBL_MAX], their initial value. *)
Theorem transform_unused_direction_unbounded (B : Bundle)
    (p_coeffs m_coeffs : Vector) (j : nat) :
  transform_coeffs bern_coeffs max_finder 0 B = Done (p_coeffs, m_coeffs) ->
  j < size B ->
  (forall row, In row (t_matrix B) -> ~ In (Z.of_nat j) row) ->
  nth_error p_coeffs j = Some d_max /\ nth_error m_coeffs j = Some d_max.
Proof.
  intros E Lj Unused. unfold transform_coeffs in E.
  refine (@foldM_preserves _ _ (untouched j) _ _ _ _ (p_coeffs, m_coeffs) _ E).
  - intros coeffs template_num coeffs' _ I Em. unfold minimizeCoeffs in Em.
    destruct (getParallelotope B template_num) as [P|]; simpl in Em; [|discriminate].
    destruct (index (t_matrix B) template_num) as [row|] eqn:Er; simpl in Em;
      [|discriminate].
    assert (In row (t_matrix B)) as Irow.
    { unfold index in Er. destruct (nth_error (t_matrix B) template_num) eqn:En;
        [|discriminate]. injection Er as <-. eapply nth_error_In; eauto. }
    refine (@foldM_preserves _ _ (untouched j) _ _ _ coeffs coeffs' I Em).
    intros s k s' _ Is Es.
    destruct (index row k) as [idx|] eqn:Ek; simpl in Es; [|discriminate].
    assert (In idx row) as Iidx.
    { unfold index in Ek. destruct (nth_error row k) eqn:En; [|discriminate].
      injection Ek as <-. eapply nth_error_In; eauto. }
    destruct (Z.ltb_spec idx 0); simpl in Es; [discriminate|].
    refine (@bound_direction_other B P s s' (Z.to_nat idx) j _ Es Is).
    intros <-. apply (Unused row Irow). now rewrite Z2Nat.id.
  - unfold minCoeffType_init. simpl. split; now apply nth_error_repeat.
Qed.

End UnusedDirection.

Lemma transform_unused_direction_unbounded_witness :
  nth_error [1%float; @d_max binary64] 1 = Some (@d_max binary64) /\
  nth_error [0%float; @d_max binary64] 1 = Some (@d_max binary64).
Proof.
  apply (@transform_unused_direction_unbounded binary64 float identity_bern
           (plain_finder (H := binary64) (fun c : float => c))
           bundle_two_directions).
  - reflexivity.
  - unfold size, bundle_two_directions. simpl. lia.
  - intros row [<-|[]] [E|[]]. discriminate.
Defined.

(** ** Synthesis over an empty interval *)

(** X18.  On a temporal formula whose interval [[a, b]] has [b < a], the
    synthesis returns the empty set without looking at the subformulas: a
    negation below such an operator raises no "Unsupported formula"
    error. *)
Theorem synthesize_empty_interval `{SymbolicAlgebra} (bundle SetsUnion : Type)
    (env : Collaborators bundle SetsUnion) (sapo : Sapo)
    (a b : Z) (l r f : STL) (init_set : bundle) (pSet : SetsUnion) :
  length (poly_A (assumptions sapo)) = 0 -> (b < a)%Z ->
  synthesize env sapo (Until l a b r) init_set pSet = Done (su_empty env) /\
  synthesize env sapo (Always a b f) init_set pSet = Done (su_empty env) /\
  synthesize env sapo (Eventually a b f) init_set pSet = Done (su_empty env).
Proof.
  intros NoA L. apply Z.ltb_lt in L.
  repeat split; simpl; rewrite NoA; simpl;
    destruct (Z.to_nat b); simpl; now rewrite L.
Qed.

Lemma synthesize_empty_interval_witness :
  synthesize line_env line_sapo always_never (0, 1)%Z [1; 2]%Z = Done [].
Proof.
  exact (proj1 (proj2 (@synthesize_empty_interval exactZ line_algebra _ _
           line_env line_sapo 2 1 not_nonpositive not_nonpositive not_nonpositive
           (0, 1)%Z [1; 2]%Z eq_refl eq_refl))).
Defined.

(** ** The parametric reachability on the line *)

Lemma reach_param_no_parameters_witness :
  reach_param line_env line_sapo line_transform_polytope line_polytope_is_empty
              (0, 1)%Z [] 3
  = [[0; 1]%Z; []].
Proof.
  exact (@reach_param_no_parameters exactZ line_algebra _ _ line_env line_sapo
           line_transform_polytope line_polytope_is_empty (0, 1)%Z [] 3
           eq_refl eq_refl).
Defined.

Lemma reach_param_single_polytope_witness :
  reach_param line_env line_sapo line_transform_polytope line_polytope_is_empty
              (1, 2)%Z [2%Z] 2
  = reach (under_parameters line_env line_transform_polytope (point_polytope 2))
          line_sapo (1, 2)%Z 2.
Proof.
  apply (@reach_param_single_polytope exactZ line_algebra _ _ line_env line_sapo
           line_transform_polytope line_polytope_is_empty (1, 2)%Z [2%Z]
           (point_polytope 2) 2 eq_refl).
  intros [lo hi]. unfold line_polytope_is_empty. simpl.
  now rewrite Z.opp_involutive.
Defined.

(** ** The sets of a model *)

Lemma dot_map_opp (d x : list Z) :
  @dot exactZ (map Z.opp d) x = (- @dot exactZ d x)%Z.
Proof.
  revert x. induction d as [|a d IH]; intros [|b x]; simpl; try reflexivity.
  rewrite IH. lia.
Qed.

Lemma dot_opp_exact (d x : list Z) :
  @dot exactZ (@vec_opp exactZ d) x = (- @dot exactZ d x)%Z.
Proof. apply dot_map_opp. Qed.

(** X19.  Over exact numbers the initial set of a model is the set of points
    [x] with [LB[i] <= directions[i] . x <= UB[i]] for every direction. *)
Theorem model_reachSet_points (directions : list (list Z)) (LB UB : list Z)
    (template : list (list Z)) (B : Bundle (H := exactZ)) :
  @model_reachSet exactZ directions LB UB template = Done B ->
  forall x,
    in_bundle B x <->
    forall i d lb ub,
      nth_error directions i = Some d -> nth_error LB i = Some lb ->
      nth_error UB i = Some ub -> (lb <= @dot exactZ d x <= ub)%Z.
Proof.
  unfold model_reachSet, Bundle_new.
  destruct (@Bundle_checks exactZ directions UB (@vec_opp exactZ LB) template) eqn:V;
    [|discriminate].
  intros [= <-] x. unfold in_bundle. simpl. split.
  - intros E i d lb ub Ed El Eu.
    destruct (E i d ub (- lb)%Z Ed Eu) as [A1 A2].
    { unfold vec_opp. simpl. now apply map_nth_error. }
    rewrite dot_opp_exact in A2. apply Z.leb_le in A1, A2. lia.
  - intros E i d p m Ed Ep Em.
    unfold vec_opp in Em. simpl in Em.
    apply nth_error_map_Some in Em. destruct Em as [lb [El ->]].
    destruct (E i d lb p Ed El Ep). rewrite dot_opp_exact.
    split; apply Z.leb_le; lia.
Qed.

Lemma model_reachSet_points_witness :
  in_bundle (@mkBundle exactZ [[1; 0]; [0; 1]]%Z [3; 4]%Z [-1; -2]%Z [[0; 1]]%Z [] [])
            [2; 3]%Z <->
  forall i d lb ub,
    nth_error [[1; 0]; [0; 1]]%Z i = Some d -> nth_error [1; 2]%Z i = Some lb ->
    nth_error [3; 4]%Z i = Some ub -> (lb <= @dot exactZ d [2; 3]%Z <= ub)%Z.
Proof.
  exact (@model_reachSet_points [[1; 0]; [0; 1]]%Z [1; 2]%Z [3; 4]%Z [[0; 1]]%Z _
           eq_refl [2; 3]%Z).
Defined.

Lemma combine_concat_pairs (A B : Type) (f : nat -> list A) (g : nat -> list B)
    (s : list nat) :
  (forall i, length (f i) = length (g i)) ->
  combine (concat (map f s)) (concat (map g s))
  = concat (map (fun i => combine (f i) (g i)) s).
Proof.
  intros L. induction s as [|i s IH]; simpl; [reflexivity|].
  rewrite combine_app_same by apply L. now rewrite IH.
Qed.

(** X20.  Over exact numbers, when there is at least one parameter direction,
    each of them has an entry for each parameter and there is a lower and
    an upper bound for each, the parameter set of a model is the set of
    points [p] with [paramLB[i] <= paramDirections[i] . p <= paramUB[i]]
    for every direction. *)
Theorem model_paraSet_points (paramDirections : list (list Z))
    (paramLB paramUB : list Z) (paramNum : nat) :
  paramDirections <> [] ->
  Forall (fun d => length d = paramNum) paramDirections ->
  length paramLB = length paramDirections ->
  length paramUB = length paramDirections ->
  exists P,
    @model_paraSet exactZ paramDirections paramLB paramUB paramNum = Done (Some P) /\
    forall p,
      in_polytope P p = true <->
      forall i d lb ub,
        nth_error paramDirections i = Some d -> nth_error paramLB i = Some lb ->
        nth_error paramUB i = Some ub -> (lb <= @dot exactZ d p <= ub)%Z.
Proof.
  intros NE Rows LL LU. unfold model_paraSet.
  change (@double exactZ) with Z in *. change (@d_opp exactZ) with Z.opp.
  destruct (Nat.eqb_spec (length paramDirections) 0) as [E0|E0].
  { destruct paramDirections; [contradiction|discriminate]. }
  rewrite (@mapM_Done_in _ _ _
             (fun i => [nth i paramDirections []; map Z.opp (nth i paramDirections [])])).
  2:{ intros i Hi. apply in_seq in Hi.
      rewrite (@index_Done _ _ i (nth i paramDirections [])).
      2:{ apply nth_error_nth'. lia. }
      simpl.
      assert (length (nth i paramDirections []) = paramNum) as Ld.
      { rewrite Forall_forall in Rows. apply Rows. apply nth_In. lia. }
      rewrite <- Ld.
      rewrite (@mapM_index_map Z Z Z.opp (nth i paramDirections [])).
      reflexivity. }
  simpl.
  rewrite (@mapM_Done_in _ _ _ (fun i => [nth i paramUB 0%Z; (- nth i paramLB 0)%Z])).
  2:{ intros i Hi. apply in_seq in Hi.
      rewrite (@index_Done _ _ i (nth i paramUB 0%Z)) by (apply nth_error_nth'; lia).
      simpl.
      rewrite (@index_Done _ _ i (nth i paramLB 0%Z)) by (apply nth_error_nth'; lia).
      reflexivity. }
  simpl. eexists. split; [reflexivity|]. intros p.
  unfold in_polytope. simpl.
  rewrite combine_concat_pairs by reflexivity.
  rewrite forallb_forall. split.
  - intros E i d lb ub Ed El Eu.
    assert (i < length paramDirections) as Li by (apply nth_error_Some; congruence).
    assert (forall row, In row [(d, ub); (map Z.opp d, (- lb)%Z)] ->
                        @d_leb exactZ (@dot exactZ (fst row) p) (snd row) = true) as Both.
    { intros row Hrow. apply E. apply in_concat.
      exists [(d, ub); (map Z.opp d, (- lb)%Z)]. split; [|exact Hrow].
      apply in_map_iff. exists i. split; [|apply in_seq; lia].
      simpl. now rewrite (nth_error_nth _ _ _ Ed), (nth_error_nth _ _ _ El),
                         (nth_error_nth _ _ _ Eu). }
    pose proof (Both _ (or_introl eq_refl)) as A1.
    pose proof (Both _ (or_intror (or_introl eq_refl))) as A2.
    simpl in A1, A2. rewrite dot_map_opp in A2.
    apply Z.leb_le in A1, A2. lia.
  - intros E row Hrow. apply in_concat in Hrow as (pair & Hpair & Hrow).
    apply in_map_iff in Hpair as (i & <- & Hi). apply in_seq in Hi.
    destruct (E i (nth i paramDirections []) (nth i paramLB 0%Z) (nth i paramUB 0%Z))
      as [A1 A2]; try (apply nth_error_nth'; lia).
    simpl in Hrow. destruct Hrow as [<-|[<-|[]]]; simpl.
    + now apply Z.leb_le.
    + rewrite dot_map_opp. apply Z.leb_le. lia.
Qed.

Lemma model_paraSet_points_witness :
  exists P,
    @model_paraSet exactZ [[1; 1]]%Z [0]%Z [5]%Z 2 = Done (Some P) /\
    forall p,
      in_polytope P p = true <->
      forall i d lb ub,
        nth_error [[1; 1]]%Z i = Some d -> nth_error [0]%Z i = Some lb ->
        nth_error [5]%Z i = Some ub -> (lb <= @dot exactZ d p <= ub)%Z.
Proof.
  apply (@model_paraSet_points [[1; 1]]%Z [0]%Z [5]%Z 2); try reflexivity.
  - discriminate.
  - repeat constructor.
Defined.

(** ** The columns of the template problem *)

Lemma int_wrap_in_range (z : Z) :
  (-2147483648 <= z < 2147483648)%Z -> int_wrap z = z.
Proof. intros R. unfold int_wrap. rewrite Z.mod_small; lia. Qed.

Lemma map_paral_in_range (d P Pn m : Z) :
  (0 <= P < Pn)%Z -> (0 <= d < m)%Z -> (m * Pn <= 2147483648)%Z ->
  map_paral d P Pn = (d * Pn + P)%Z /\ (0 <= d * Pn + P < m * Pn)%Z.
Proof.
  intros RP Rd Fit.
  assert (0 <= d * Pn)%Z by nia.
  assert (d * Pn + Pn <= m * Pn)%Z by nia.
  split; [|lia].
  unfold map_paral. rewrite (int_wrap_in_range (z := d * Pn)) by lia.
  apply int_wrap_in_range. lia.
Qed.

(** X21.  For directions below [m] and parallelotopes below [Pn], with
    [m * Pn] at most [2^31] so that the [int] arithmetic stays in range:
    the column is [d * Pn + P], two pairs of a direction and a
    parallelotope get the same column only when they are the same pair, and
    the columns are numbers below [m * Pn]. *)
Theorem map_paral_injective (d d' P P' Pn m : Z) :
  (0 <= P < Pn)%Z -> (0 <= P' < Pn)%Z ->
  (0 <= d < m)%Z -> (0 <= d' < m)%Z -> (m * Pn <= 2147483648)%Z ->
  map_paral d P Pn = (d * Pn + P)%Z /\
  (map_paral d P Pn = map_paral d' P' Pn -> d = d' /\ P = P') /\
  (0 <= map_paral d P Pn < m * Pn)%Z.
Proof.
  intros RP RP' Rd Rd' Fit.
  destruct (map_paral_in_range RP Rd Fit) as [E R].
  destruct (map_paral_in_range RP' Rd' Fit) as [E' R'].
  rewrite E, E'. split; [reflexivity|]. split; [|exact R].
  intros Eq. assert (d = d') by nia. subst. split; [reflexivity|lia].
Qed.

Lemma map_paral_injective_witness :
  map_paral 1 2 3 = (1 * 3 + 2)%Z /\
  (map_paral 1 2 3 = map_paral 0 2 3 -> 1%Z = 0%Z /\ 2%Z = 2%Z) /\
  (0 <= map_paral 1 2 3 < 4 * 3)%Z.
Proof.
  apply (@map_paral_injective 1 0 2 2 3 4); lia.
Defined.

(** Beyond the range of [int] the product wraps around, and distinct pairs
    share a column. *)
Example map_paral_wraps :
  map_paral 1073741824 0 4 = map_paral 0 0 4 /\
  map_paral 536870912 0 4 = (-2147483648)%Z.
Proof. split; reflexivity. Qed.

(** ** Looking up the variables of the input *)

Section LookupFacts.
Variable Variable_ : Type.
Variable getName : Variable_ -> string.

Lemma getVarPos_from_spec (vars : list Variable_) (name : string) (i : nat) :
  match find (fun v => String.eqb (getName v) name) vars with
  | None => getVarPos_from getName i vars name = (-1)%Z
  | Some v =>
      exists k, getVarPos_from getName i vars name = Z.of_nat (i + k) /\
                nth_error vars k = Some v /\ getName v = name /\
                forall j w, j < k -> nth_error vars j = Some w -> getName w <> name
  end.
Proof.
  revert i. induction vars as [|v vars IH]; intros i; simpl; [reflexivity|].
  destruct (String.eqb_spec (getName v) name) as [E|N].
  - exists 0. rewrite Nat.add_0_r. repeat split; auto. intros; lia.
  - specialize (IH (S i)).
    destruct (find (fun v => String.eqb (getName v) name) vars) as [w|]; [|exact IH].
    destruct IH as (k & -> & Ek & En & Before).
    exists (S k). split; [f_equal; lia|]. split; [exact Ek|]. split; [exact En|].
    intros [|j] w' Lj Ej; simpl in Ej.
    + now injection Ej as <-.
    + apply (Before j); [lia|exact Ej].
Qed.

(** X22.  The three lookups of a variable by its name agree: when no variable
    has the name, [isVarDefined] is false, [getVar] returns [NULL] and
    [getVarPos] returns -1; otherwise [isVarDefined] is true and [getVar]
    and [getVarPos] return the first variable of that name and its
    index. *)
Theorem variable_lookups_agree (vars : list Variable_) (name : string) :
  match getVar getName vars name with
  | None =>
      isVarDefined getName vars name = false /\
      getVarPos getName vars name = (-1)%Z /\
      forall v, In v vars -> getName v <> name
  | Some v =>
      isVarDefined getName vars name = true /\
      exists k, getVarPos getName vars name = Z.of_nat k /\
                nth_error vars k = Some v /\ getName v = name /\
                forall j w, j < k -> nth_error vars j = Some w -> getName w <> name
  end.
Proof.
  unfold getVar, getVarPos, isVarDefined.
  pose proof (getVarPos_from_spec vars name 0) as P.
  destruct (find (fun v => String.eqb (getName v) name) vars) as [v|] eqn:F.
  - split; [|exact P].
    apply existsb_exists. exists v. apply find_some in F. exact F.
  - assert (forall v, In v vars -> getName v <> name) as None.
    { intros v I E. pose proof (find_none _ _ F v I) as N. simpl in N.
      apply String.eqb_neq in N. contradiction. }
    split; [|split; [exact P|exact None]].
    destruct (existsb _ vars) eqn:X; [|reflexivity].
    apply existsb_exists in X as (v & I & E). apply String.eqb_eq in E.
    now apply None in I.
Qed.

End LookupFacts.

(** ** The storage of control points *)

Section StorageFacts.
Variable lst : Type.
Variable lst_empty : lst.

Local Abbreviation storage := (ControlPointStorage lst).

Lemma find_store_same (s : storage) (k : list Z) (v : lst * lst) :
  find_entry (store_entry s k v) k = Some v.
Proof.
  induction s as [|[k' w] s IH]; simpl.
  - now destruct (list_eq_dec Z.eq_dec k k).
  - destruct (list_eq_dec Z.eq_dec k' k) as [E|N]; simpl.
    + now destruct (list_eq_dec Z.eq_dec k' k).
    + now destruct (list_eq_dec Z.eq_dec k' k).
Qed.

Lemma find_store_other (s : storage) (k k' : list Z) (v : lst * lst) :
  k' <> k -> find_entry (store_entry s k v) k' = find_entry s k'.
Proof.
  intros N. induction s as [|[k0 w] s IH]; simpl.
  - destruct (list_eq_dec Z.eq_dec k k'); [congruence|reflexivity].
  - destruct (list_eq_dec Z.eq_dec k0 k) as [E|N0]; simpl.
    + destruct (list_eq_dec Z.eq_dec k0 k'); [congruence|reflexivity].
    + destruct (list_eq_dec Z.eq_dec k0 k'); [reflexivity|exact IH].
Qed.

(** X23.  [set_first] stores the generator functions under the index and keeps
    the control points the index had, or gives it no control point when it
    had no entry; [set_second] does the same with the roles exchanged.
    After either the storage contains the index, and every other index
    reads as before. *)
Theorem set_first_set_second_lookup (s : storage) (index : list Z) (x : lst) :
  (get_gen_fun (set_first lst_empty s index x) index = Some x /\
   get_ctrl_pts (set_first lst_empty s index x) index
   = Some (match get_ctrl_pts s index with Some c => c | None => lst_empty end) /\
   contains (set_first lst_empty s index x) index = true /\
   forall other, other <> index ->
     get (set_first lst_empty s index x) other = get s other) /\
  (get_ctrl_pts (set_second lst_empty s index x) index = Some x /\
   get_gen_fun (set_second lst_empty s index x) index
   = Some (match get_gen_fun s index with Some g => g | None => lst_empty end) /\
   contains (set_second lst_empty s index x) index = true /\
   forall other, other <> index ->
     get (set_second lst_empty s index x) other = get s other).
Proof.
  unfold get_gen_fun, get_ctrl_pts, contains, get, set_first, set_second,
    entry_or_default.
  split; (split; [|split; [|split]]).
  all: try (rewrite find_store_same; simpl; try reflexivity;
            now destruct (find_entry s index)).
  all: intros other N; now apply find_store_other.
Qed.

(** X24.  Setting the two components of two indices, equal or not, gives the
    same storage content in either order. *)
Theorem set_first_set_second_commute (s : storage) (i1 i2 : list Z) (g c : lst) :
  forall index,
    get (set_second lst_empty (set_first lst_empty s i1 g) i2 c) index
    = get (set_first lst_empty (set_second lst_empty s i2 c) i1 g) index.
Proof.
  intros index. unfold get, set_first, set_second, entry_or_default.
  destruct (list_eq_dec Z.eq_dec i1 i2) as [<-|N12].
  - rewrite !find_store_same. simpl.
    destruct (list_eq_dec Z.eq_dec index i1) as [->|N].
    + now rewrite !find_store_same.
    + now rewrite !find_store_other by exact N.
  - rewrite (@find_store_other _ i1 i2) by congruence.
    rewrite (@find_store_other _ i2 i1) by congruence.
    destruct (list_eq_dec Z.eq_dec index i2) as [->|N2].
    + rewrite find_store_same.
      rewrite (@find_store_other _ i1 i2) by congruence.
      now rewrite find_store_same.
    + rewrite (@find_store_other _ i2 index) by exact N2.
      destruct (list_eq_dec Z.eq_dec index i1) as [->|N1].
      * now rewrite !find_store_same.
      * rewrite !find_store_other by assumption. reflexivity.
Qed.

Lemma copy_from (orig acc : storage) :
  unique_keys orig ->
  (forall k, In k (map fst orig) -> find_entry acc k = None) ->
  forall k,
    find_entry (fold_left (fun s entry =>
                             store_entry s (fst entry) (fst (snd entry), snd (snd entry)))
                          orig acc) k
    = match find_entry acc k with
      | Some v => Some v
      | None => find_entry orig k
      end.
Proof.
  unfold unique_keys. revert acc.
  induction orig as [|[k0 [a b]] orig IH]; intros acc U Fresh k; simpl.
  - now destruct (find_entry acc k).
  - inversion U as [|? ? Hn U']; subst. rewrite IH; [|exact U'|].
    + destruct (list_eq_dec Z.eq_dec k0 k) as [->|N].
      * rewrite find_store_same. rewrite Fresh by now left. reflexivity.
      * rewrite find_store_other by congruence. reflexivity.
    + intros k1 I1. rewrite find_store_other.
      * apply Fresh. now right.
      * intros ->. contradiction.
Qed.

(** X25.  The copy constructor gives a storage with the content of the
    original: every index reads the same in both. *)
Theorem ControlPointStorage_copy_same (orig : storage) :
  unique_keys orig ->
  forall index, get (ControlPointStorage_copy orig) index = get orig index.
Proof.
  intros U index. unfold get, ControlPointStorage_copy.
  now rewrite copy_from.
Qed.

End StorageFacts.

Lemma ControlPointStorage_copy_same_witness :
  get (ControlPointStorage_copy [([0; 1]%Z, (1, 2)); ([1; 0]%Z, (3, 4))]) [1; 0]%Z
  = Some (3, 4).
Proof.
  refine (@ControlPointStorage_copy_same nat
            [([0; 1]%Z, (1, 2)); ([1; 0]%Z, (3, 4))] _ [1; 0]%Z).
  repeat constructor; simpl; intuition discriminate.
Defined.

(** ** Searching a direction up to its length *)

Lemma sum_of_squares_null (v : list float) :
  Forall (fun x => x = 0%float \/ x = (-0)%float) v ->
  fold_left (fun res x => res + x * x)%float v 0%float = 0%float.
Proof.
  induction 1 as [|x v [-> | ->] _ IH]; simpl; [reflexivity| |]; exact IH.
Qed.

Lemma normalize_null (v : list float) :
  Forall (fun x => x = 0%float \/ x = (-0)%float) v ->
  normalize v = map (fun _ => nan) v.
Proof.
  intros N. unfold normalize, getNormalizationCoefficient.
  rewrite sum_of_squares_null by exact N.
  apply map_ext_in. intros x I. rewrite Forall_forall in N.
  destruct (N x I) as [-> | ->]; reflexivity.
Qed.

Lemma nan_never_above (tol y : float) :
  (tol <? PrimFloat.abs (nan - y))%float = false.
Proof.
  rewrite FloatAxioms.ltb_spec, FloatAxioms.abs_spec, FloatAxioms.sub_spec.
  change (Prim2SF nan) with S754_nan. simpl.
  unfold SFltb. now destruct (Prim2SF tol).
Qed.

Lemma compare_nan (v w : list float) (tol : float) :
  compare (map (fun _ => nan) v) w tol = (length v =? length w).
Proof.
  unfold compare. rewrite length_map.
  destruct (Nat.eqb_spec (length v) (length w)) as [L|L]; simpl; [|reflexivity].
  apply forallb_forall. intros [x y] I.
  apply in_combine_l in I as Ix. apply in_map_iff in Ix as (_ & <- & _).
  simpl. now rewrite nan_never_above.
Qed.

Lemma normalize_length (v : list float) : length (normalize v) = length v.
Proof. unfold normalize. apply length_map. Qed.

Lemma find_from_null (v : list float) (pre : list (list float)) :
  forall i,
    Forall (fun row => length row <> length v) pre ->
    (forall row post,
        length row = length v ->
        find_from i (pre ++ row :: post) (map (fun _ => nan) v)
        = Z.of_nat (i + length pre)) /\
    find_from i pre (map (fun _ => nan) v) = (-1)%Z.
Proof.
  induction pre as [|r pre IH]; intros i F; simpl.
  - split; [|reflexivity]. intros row post L.
    rewrite compare_nan, normalize_length, L, Nat.eqb_refl. f_equal. lia.
  - inversion F as [|? ? Nr F']; subst.
    rewrite compare_nan, normalize_length.
    destruct (Nat.eqb_spec (length v) (length r)) as [E|_]; [congruence|].
    destruct (IH (S i) F') as [Found None]. split; [|exact None].
    intros row post L. rewrite Found by exact L. f_equal. lia.
Qed.

(** X26.  A null vector is found in the first row of its size, whatever that
    row holds: its normalisation divides by zero, every element of the
    result is NaN, and no comparison with NaN exceeds the tolerance.  With
    no row of its size the answer is -1. *)
Theorem find_direction_null_vector (v : list float) (pre : list (list float)) :
  Forall (fun x => x = 0%float \/ x = (-0)%float) v ->
  Forall (fun row => length row <> length v) pre ->
  (forall row post,
      length row = length v ->
      find_direction (pre ++ row :: post) v = Z.of_nat (length pre)) /\
  find_direction pre v = (-1)%Z.
Proof.
  intros N F. unfold find_direction. rewrite normalize_null by exact N.
  exact (find_from_null v 0 F).
Qed.

Lemma find_direction_null_vector_witness :
  find_direction [[1; 0; 0]; [3; 4]; [0; 1]]%float [0; -0]%float = 1%Z.
Proof.
  refine (proj1 (@find_direction_null_vector [0; -0]%float [[1; 0; 0]%float] _ _)
            [3; 4]%float [[0; 1]%float] eq_refl).
  - constructor; [now left|]. constructor; [now right|constructor].
  - constructor; [discriminate|constructor].
Defined.

(** ** The finer covering of a list of parameter sets *)

(** X27.  When the union made of one polytope holds that polytope, every set of
    a finer covering holds exactly one polytope: a set without polytopes
    leaves nothing, a set of one polytope leaves the pieces of its split,
    and a larger set is unpacked into its polytopes, which are not
    split. *)
Theorem get_a_finer_covering_single_polytopes `{SymbolicAlgebra}
    (bundle SetsUnion : Type) (env : Collaborators bundle SetsUnion)
    (orig : list SetsUnion) (num_of_polytope_splits : N) :
  (forall P, su_polytopes env (su_of_polytope env P) = [P]) ->
  map (su_polytopes env) (get_a_finer_covering env orig num_of_polytope_splits)
  = map (fun P => [P])
        (flat_map (fun ps =>
                     match su_polytopes env ps with
                     | [P] => polytope_split env P num_of_polytope_splits
                     | polytopes => polytopes
                     end) orig).
Proof.
  intros Law. unfold get_a_finer_covering.
  induction orig as [|ps orig IH]; [reflexivity|].
  cbn [flat_map]. rewrite !map_app, IH. f_equal.
  destruct (su_polytopes env ps) as [|P [|Q l]]; [reflexivity| |];
    rewrite map_map; now apply map_ext.
Qed.

Lemma get_a_finer_covering_single_polytopes_witness :
  map (su_polytopes list_env)
      (get_a_finer_covering list_env
         [[]; [point_polytope 1; point_polytope 5]; [point_polytope 3]] 2)
  = [[point_polytope 1]; [point_polytope 5]; [point_polytope 3]; [point_polytope 3]].
Proof.
  exact (@get_a_finer_covering_single_polytopes exactZ line_algebra _ _ list_env
           [[]; [point_polytope 1; point_polytope 5]; [point_polytope 3]] 2%N
           (fun P => eq_refl)).
Defined.

(** ** The horizon of [reach] *)

Lemma reach_loop_extends `{SymbolicAlgebra} (bundle SetsUnion : Type)
    (env : Collaborators bundle SetsUnion) (sapo : Sapo) (n m : nat) :
  forall cbundles last_step flowpipe,
    exists more,
      reach_loop env sapo (n + m) cbundles last_step flowpipe
      = reach_loop env sapo n cbundles last_step flowpipe ++ more.
Proof.
  induction n as [|n IH]; intros cbundles last_step flowpipe.
  - simpl. destruct (@reach_loop_shape _ _ _ _ env sapo m cbundles last_step flowpipe)
      as (rest & -> & _). eauto.
  - simpl. destruct (su_size env last_step =? 0).
    + exists []. now rewrite app_nil_r.
    + apply IH.
Qed.

(** X28.  The flowpipe of a horizon is the beginning of the flowpipe of every
    longer horizon: the unions of the first [k] steps do not depend on how
    far [reach] is asked to go. *)
Theorem reach_longer_horizon `{SymbolicAlgebra} (bundle SetsUnion : Type)
    (env : Collaborators bundle SetsUnion) (sapo : Sapo)
    (init_set : bundle) (k m : nat) :
  exists more,
    reach env sapo init_set (k + m) = reach env sapo init_set k ++ more.
Proof. unfold reach. apply reach_loop_extends. Qed.

Lemma self_difference_never_above (x : float) :
  (0x1.4f8b588e368f1p-17 <? PrimFloat.abs (x - x))%float = false.
Proof.
  rewrite FloatAxioms.ltb_spec, FloatAxioms.abs_spec, FloatAxioms.sub_spec.
  change (Prim2SF 0x1.4f8b588e368f1p-17) with (S754_finite false 5902958103587057 (-69)).
  destruct (Prim2SF x) as [s|s| |s m e]; try reflexivity.
  - now destruct s.
  - now destruct s.
  - unfold SF64sub, SFsub. rewrite Z.sub_diag. reflexivity.
Qed.

Lemma compare_self (v : list float) : compare v v 0x1.4f8b588e368f1p-17 = true.
Proof.
  unfold compare. rewrite Nat.eqb_refl. simpl.
  induction v as [|x v IH]; simpl; [reflexivity|].
  now rewrite self_difference_never_above, IH.
Qed.

Lemma find_from_row (M : list (list float)) (v : list float) (k : nat) :
  forall i, nth_error M k = Some v ->
    (Z.of_nat i <= find_from i M (normalize v) <= Z.of_nat (i + k))%Z.
Proof.
  revert k. induction M as [|row M IH]; intros [|k] i E; simpl in E; try discriminate.
  - injection E as ->. simpl. rewrite compare_self. lia.
  - simpl. destruct (compare _ _ _); [lia|].
    specialize (IH k (S i) E). lia.
Qed.

(** X29.  A vector that is a row of the matrix is always found, at its own index
    or before: no double differs from itself by more than the tolerance,
    not even an infinity or NaN that normalising a row may produce. *)
Theorem find_direction_finds_rows (M : list (list float)) (v : list float) (k : nat) :
  nth_error M k = Some v ->
  (0 <= find_direction M v <= Z.of_nat k)%Z.
Proof.
  intros E. exact (@find_from_row M v k 0 E).
Qed.

Lemma find_direction_finds_rows_witness :
  (0 <= find_direction [[1; 0]; [2; 0]; [0; 1]]%float [2; 0]%float <= 1)%Z.
Proof.
  exact (@find_direction_finds_rows [[1; 0]; [2; 0]; [0; 1]]%float [2; 0]%float 1 eq_refl).
Defined.

(** ** The assumptions recorded on a bundle *)

Lemma Bundle_new_no_assumptions `{Scalar} (D : Matrix) (p m : Vector)
    (T : list (list Z)) (B : Bundle) :
  Bundle_new D p m T = Done B ->
  constraintDirections B = [] /\ constraintOffsets B = [].
Proof.
  unfold Bundle_new. destruct (Bundle_checks D p m T); [|discriminate].
  intros E. inversion E. auto.
Qed.

Lemma get_canonical_no_assumptions `{Scalar}
    (maximize : Polytope -> Vector -> double) (B B' : Bundle) :
  get_canonical maximize B = Done B' ->
  constraintDirections B' = [] /\ constraintOffsets B' = [].
Proof.
  unfold get_canonical.
  destruct (as_polytope B); simpl; [|discriminate].
  destruct (mapM _ _); simpl; [|discriminate].
  destruct (mapM _ _); simpl; [|discriminate].
  apply Bundle_new_no_assumptions.
Qed.

(** X30.  [get_canonical] and [transform] build their result with the
    constructor that takes the directions, the offsets and the templates
    only: whatever assumptions were recorded on the bundle they are given,
    the bundle they return has none. *)
Theorem get_canonical_and_transform_forget_assumptions `{Scalar}
    (Expression : Type) (bern_coeffs : Parallelotope -> Vector -> list Expression)
    (max_finder : MaxCoeffFinder Expression)
    (maximize : Polytope -> Vector -> double) (B : Bundle) :
  (forall B', get_canonical maximize B = Done B' ->
              constraintDirections B' = [] /\ constraintOffsets B' = []) /\
  (forall mode B',
      transform bern_coeffs max_finder maximize mode B = Done B' ->
      constraintDirections B' = [] /\ constraintOffsets B' = []).
Proof.
  split.
  - intros B'. apply get_canonical_no_assumptions.
  - intros mode B'. unfold transform, transform_int.
    destruct (transform_coeffs _ _ _ _) as [coeffs|]; simpl; [|discriminate].
    destruct (Bundle_new _ _ _ _) as [res|] eqn:En; simpl; [|discriminate].
    destruct (mode_value mode =? 0)%Z.
    + apply get_canonical_no_assumptions.
    + intros E. injection E as <-. now apply Bundle_new_no_assumptions in En.
Qed.

(** On the sample bundle that records the assumption [x <= 0], the
    canonical form has lost it. *)
Example get_canonical_forgets_run (maximize : Polytope -> list float -> float) :
  constraintDirections bundle_with_assumption = [[1%float]] /\
  exists B', get_canonical maximize bundle_with_assumption = Done B' /\
             constraintDirections B' = [].
Proof.
  split; [reflexivity|]. eexists. split; [reflexivity|reflexivity].
Qed.
